(** * Shallow embedding of [incident_generator.py]

    The resumable batch-generation engine of the incident test data
    generator: the dispatch arithmetic of a round, the collection loop, the
    checkpoint file, and the response parser. Python integers are [Z],
    Python strings are lists of code points, Python exceptions are values
    of [exn]. *)

From Stdlib Require Import ZArith NArith Lia DecimalFacts DecimalPos DecimalZ.
From Stdlib Require Import Sorted.
From stdpp Require Import base tactics option list strings.

Local Open Scope Z_scope.

(** ** Exceptions that the modelled code paths can raise *)

Inductive exn :=
  | ZeroDivisionError   (* [//] with a zero [BATCH_SIZE] *)
  | ValueError          (* non-list response, non-positive [max_workers] *)
  | JSONDecodeError     (* [json.loads] on malformed text *)
  | BackendError        (* any failure of the LLM call itself *)
  | ExportError         (* [export_to_xlsx] re-raises *)
  | KeyboardInterrupt.  (* not a subclass of [Exception] *)

(** [except Exception] catches everything here but [KeyboardInterrupt]. *)
Definition is_Exception (e : exn) : bool :=
  match e with KeyboardInterrupt => false | _ => true end.

(** ** Dispatch of one round (main, lines 674-697) *)

(** The two varying arguments of one [executor.submit(generate_incident_batch,
    client_config, current_batch_size, batch_start_count, config)]. *)
Record BatchJob := mkJob {
  num_incidents : Z;    (* current_batch_size *)
  existing_count : Z    (* batch_start_count *)
}.

(** [range(n)]: empty for [n <= 0]. *)
Definition py_range (n : Z) : list Z := seqZ 0 n.

(** Body of the [for i in range(...)] loop, with its two [break]s.
    [len_all] is [len(all_incidents)], which the submission loop never
    changes: results are only merged after all jobs are submitted. *)
Fixpoint submit_jobs (len_all total_incidents BATCH_SIZE : Z) (idx : list Z)
  : list BatchJob :=
  match idx with
  | [] => []
  | i :: idx' =>
      if bool_decide (len_all + i * BATCH_SIZE >= total_incidents) then []
      else
        let current_batch_size :=
          Z.min BATCH_SIZE (total_incidents - len_all - i * BATCH_SIZE) in
        if bool_decide (current_batch_size <= 0) then []
        else
          let batch_start_count := len_all + i * BATCH_SIZE in
          mkJob current_batch_size batch_start_count
            :: submit_jobs len_all total_incidents BATCH_SIZE idx'
  end.

(** One pass over lines 674-697. Python's [//] is floor division, as
    [Z.div]; with a zero divisor it raises. *)
Definition dispatch_round (len_all total_incidents BATCH_SIZE NUM_WORKERS : Z)
  : exn + list BatchJob :=
  let remaining := total_incidents - len_all in
  if bool_decide (BATCH_SIZE = 0) then inl ZeroDivisionError
  else
    inr (submit_jobs len_all total_incidents BATCH_SIZE
           (py_range (Z.min NUM_WORKERS
                        ((remaining + BATCH_SIZE - 1) / BATCH_SIZE)))).

(** Half-open range of record numbers a job is asked to produce. *)
Definition job_range_disjoint (a b : BatchJob) : Prop :=
  existing_count a + num_incidents a <= existing_count b
  ∨ existing_count b + num_incidents b <= existing_count a.

(** The batch the specification assigns to index [i] of a round. *)
Definition planned_job (L R B i : Z) : BatchJob :=
  mkJob (Z.min B (R - i * B)) (L + i * B).

(** ** Python strings

    A [str] is a sequence of Unicode code points. *)

Abbreviation str := (list N).

Definition lit (s : string) : str := Ascii.N_of_ascii <$> String.list_ascii_of_string s.
Arguments lit s%_string.

Definition NL : N := 10.         (* line feed *)
Definition SPACE : N := 32.
Definition QUOTE : N := 34.
Definition BACKSLASH : N := 92.
Definition BACKTICK : N := 96.
Definition FENCE : str := [BACKTICK; BACKTICK; BACKTICK].

Local Open Scope N_scope.

(** [str.isspace] on one code point: the characters [str.strip()] removes. *)
Definition py_isspace (c : N) : bool :=
  (9 <=? c) && (c <=? 13) || (28 <=? c) && (c <=? 32)
  || (c =? 0x85) || (c =? 0xA0) || (c =? 0x1680)
  || (0x2000 <=? c) && (c <=? 0x200A)
  || (c =? 0x2028) || (c =? 0x2029) || (c =? 0x202F)
  || (c =? 0x205F) || (c =? 0x3000).

Fixpoint lstrip (s : str) : str :=
  match s with
  | c :: s' => if py_isspace c then lstrip s' else s
  | [] => []
  end.

Definition rstrip (s : str) : str := reverse (lstrip (reverse s)).

(** [s.strip()] *)
Definition strip (s : str) : str := rstrip (lstrip s).

(** [s.startswith(p)] *)
Fixpoint startswith (s p : str) : bool :=
  match p, s with
  | [], _ => true
  | _ :: _, [] => false
  | a :: p', c :: s' => (c =? a) && startswith s' p'
  end.

(** [s.split(sep)] for a one-character separator: never empty. *)
Fixpoint split (sep : N) (s : str) : list str :=
  match s with
  | [] => [[]]
  | c :: s' =>
      if c =? sep then [] :: split sep s'
      else match split sep s' with
           | l :: ls => (c :: l) :: ls
           | [] => [[c]]
           end
  end.

(** [sep.join(ls)] *)
Fixpoint join (sep : str) (ls : list str) : str :=
  match ls with
  | [] => []
  | [l] => l
  | l :: ls' => l ++ sep ++ join sep ls'
  end.

(** ** Values decoded from JSON

    What [json.loads] builds: [None], [bool], [int], [float], [str], [list]
    and [dict]. A float is carried as the literal it was read from; its
    numeric value is not interpreted. A [dict] keeps insertion order. *)

Unset Elimination Schemes.
Inductive json :=
  | JNull
  | JBool (b : bool)
  | JInt (z : Z)
  | JFloat (literal : str)
  | JStr (s : str)
  | JList (l : list json)
  | JDict (d : list (str * json)).
Set Elimination Schemes.

(** [len(x)]: [TypeError] on values without a length. *)
Definition py_len (v : json) : option Z :=
  match v with
  | JList l => Some (Z.of_nat (length l))
  | JDict d => Some (Z.of_nat (length d))
  | JStr s => Some (Z.of_nat (length s))
  | _ => None
  end.

(** [d[k] = v] on an insertion-ordered dict. *)
Fixpoint dict_set (d : list (str * json)) (k : str) (v : json)
  : list (str * json) :=
  match d with
  | [] => [(k, v)]
  | (k', v') :: d' =>
      if bool_decide (k' = k) then (k', v) :: d'
      else (k', v') :: dict_set d' k v
  end.

(** [dict(pairs)] *)
Definition dict_of_pairs (pairs : list (str * json)) : list (str * json) :=
  foldl (λ d kv, dict_set d kv.1 kv.2) [] pairs.

(** ** [json.loads] (strict mode, CPython's scanner)

    The decoder of the standard library, on which both the response parser
    and the checkpoint loader rest. The limits of the interpreter (the
    recursion depth, the number of digits [int] converts) are not part of
    it: nesting and integers are unbounded here. *)

(** [WHITESPACE = re.compile(r'[ \t\n\r]*')] *)
Definition json_ws (c : N) : bool :=
  (c =? 32) || (c =? 9) || (c =? 10) || (c =? 13).

Fixpoint skip_ws (s : str) : str :=
  match s with
  | c :: s' => if json_ws c then skip_ws s' else s
  | [] => []
  end.

Definition is_digit (c : N) : bool := (48 <=? c) && (c <=? 57).

Definition hex_value (c : N) : option N :=
  if is_digit c then Some (c - 48)
  else if (97 <=? c) && (c <=? 102) then Some (c - 87)
  else if (65 <=? c) && (c <=? 70) then Some (c - 55)
  else None.

(** The four hex digits of a [\uXXXX] escape. *)
Definition hex4 (a b c d : N) : option N :=
  a ← hex_value a; b ← hex_value b; c ← hex_value c; d ← hex_value d;
  Some (((a * 16 + b) * 16 + c) * 16 + d).

(** [BACKSLASH] table of the decoder. *)
Definition unescape (c : N) : option N :=
  if c =? 34 then Some 34          (* quote *)
  else if c =? 92 then Some 92     (* backslash *)
  else if c =? 47 then Some 47     (* slash *)
  else if c =? 98 then Some 8      (* b escape *)
  else if c =? 102 then Some 12    (* f escape *)
  else if c =? 110 then Some 10    (* n escape *)
  else if c =? 114 then Some 13    (* r escape *)
  else if c =? 116 then Some 9     (* t escape *)
  else None.

Definition is_high_surrogate (c : N) : bool := (0xD800 <=? c) && (c <=? 0xDBFF).
Definition is_low_surrogate (c : N) : bool := (0xDC00 <=? c) && (c <=? 0xDFFF).
Definition join_surrogates (hi lo : N) : N :=
  0x10000 + (N.lor (N.shiftl (hi - 0xD800) 10) (lo - 0xDC00)).

(** [scanstring], entered after the opening quote: the decoded string and
    the text after the closing quote. A high surrogate escape directly
    followed by a low surrogate escape gives one code point. *)
Fixpoint scanstring (s : str) : option (str * str) :=
  match s with
  | [] => None
  | c :: s1 =>
      if c =? QUOTE then Some ([], s1)
      else if c =? BACKSLASH then
        match s1 with
        | [] => None
        | e :: s2 =>
            if e =? 117 (* u *) then
              match s2 with
              | h1 :: h2 :: h3 :: h4 :: s3 =>
                  match hex4 h1 h2 h3 h4 with
                  | None => None
                  | Some uni =>
                      let single :=
                        '(t, r) ← scanstring s3; Some (uni :: t, r) in
                      if is_high_surrogate uni then
                        match s3 with
                        | b :: u :: g1 :: g2 :: g3 :: g4 :: s4 =>
                            if (b =? BACKSLASH) && (u =? 117) then
                              match hex4 g1 g2 g3 g4 with
                              | None => None
                              | Some uni2 =>
                                  if is_low_surrogate uni2 then
                                    '(t, r) ← scanstring s4;
                                    Some (join_surrogates uni uni2 :: t, r)
                                  else single
                              end
                            else single
                        | _ => single
                        end
                      else single
                  end
              | _ => None
              end
            else
              match unescape e with
              | None => None
              | Some ch => '(t, r) ← scanstring s2; Some (ch :: t, r)
              end
        end
      else if c <? 32 then None      (* control character, strict mode *)
      else '(t, r) ← scanstring s1; Some (c :: t, r)
  end.

(** Longest prefix of ASCII digits. *)
Fixpoint span_digits (s : str) : str * str :=
  match s with
  | c :: s' =>
      if is_digit c then let '(ds, r) := span_digits s' in (c :: ds, r)
      else ([], s)
  | [] => ([], [])
  end.

Fixpoint uint_of_digits (ds : str) : Decimal.uint :=
  match ds with
  | [] => Decimal.Nil
  | c :: ds' =>
      let u := uint_of_digits ds' in
      if c =? 48 then Decimal.D0 u else if c =? 49 then Decimal.D1 u
      else if c =? 50 then Decimal.D2 u else if c =? 51 then Decimal.D3 u
      else if c =? 52 then Decimal.D4 u else if c =? 53 then Decimal.D5 u
      else if c =? 54 then Decimal.D6 u else if c =? 55 then Decimal.D7 u
      else if c =? 56 then Decimal.D8 u else Decimal.D9 u
  end.

(** [int(text)] for a sign and a run of ASCII digits. *)
Definition py_int (negative : bool) (ds : str) : Z :=
  Z.of_int (if negative then Decimal.Neg (uint_of_digits ds)
            else Decimal.Pos (uint_of_digits ds)).

(** The three groups of [NUMBER_RE]. Integer part: a single 0, or a run of
    digits that does not start with 0. *)
Definition scan_int (s : str) : option (str * str) :=
  match s with
  | d :: t =>
      if is_digit d then Some (if d =? 48 then ([d], t) else span_digits s)
      else None
  | [] => None
  end.

(** Fraction: a dot and at least one digit, or nothing. *)
Definition scan_frac (s : str) : str * str :=
  match s with
  | c :: f =>
      if c =? 46 then
        match span_digits f with
        | ([], _) => ([], s)
        | (fd, r) => (c :: fd, r)
        end
      else ([], s)
  | [] => ([], s)
  end.

(** Exponent: e or E, an optional sign, at least one digit, or nothing. *)
Definition scan_exp (s : str) : str * str :=
  match s with
  | e :: x =>
      if (e =? 101) || (e =? 69) then
        let '(sign, x') :=
          match x with
          | c :: x' => if (c =? 43) || (c =? 45) then ([c], x') else ([], x)
          | [] => ([], x)
          end in
        match span_digits x' with
        | ([], _) => ([], s)
        | (ed, r) => (e :: sign ++ ed, r)
        end
      else ([], s)
  | [] => ([], s)
  end.

(** [match_number]: without fraction and exponent the result is an [int],
    otherwise a [float]. *)
Definition match_number (s : str) : option (json * str) :=
  let '(negative, s0) :=
    match s with
    | c :: t => if c =? 45 then (true, t) else (false, s)
    | [] => (false, s)
    end in
  '(int_ds, r0) ← scan_int s0;
  let '(frac, r1) := scan_frac r0 in
  let '(exp, r2) := scan_exp r1 in
  match frac, exp with
  | [], [] => Some (JInt (py_int negative int_ds), r2)
  | _, _ =>
      Some (JFloat ((if negative then [45] else []) ++ int_ds ++ frac ++ exp),
            r2)
  end.

(** [string[idx:idx+len(p)] == p], returning the text after [p]. *)
Fixpoint strip_prefix (p s : str) : option str :=
  match p, s with
  | [], _ => Some s
  | a :: p', c :: s' => if c =? a then strip_prefix p' s' else None
  | _ :: _, [] => None
  end.

(** The literals and numbers of [scan_once]. *)
Definition scan_atom (s : str) : option (json * str) :=
  match strip_prefix (lit "null") s with
  | Some r => Some (JNull, r)
  | None =>
  match strip_prefix (lit "true") s with
  | Some r => Some (JBool true, r)
  | None =>
  match strip_prefix (lit "false") s with
  | Some r => Some (JBool false, r)
  | None =>
  match match_number s with
  | Some res => Some res
  | None =>
  match strip_prefix (lit "NaN") s with
  | Some r => Some (JFloat (lit "NaN"), r)
  | None =>
  match strip_prefix (lit "Infinity") s with
  | Some r => Some (JFloat (lit "Infinity"), r)
  | None =>
  match strip_prefix (lit "-Infinity") s with
  | Some r => Some (JFloat (lit "-Infinity"), r)
  | None => None
  end end end end end end end.

(** [scan_once], [JSONArray] and [JSONObject]. [array_items] is entered at
    the first character of an element, [object_items] after the opening
    quote of a key. The fuel bounds the number of nested calls;
    [json_loads] supplies more than any text can use. *)
Fixpoint scan_once (fuel : nat) (s : str) : option (json * str) :=
  match fuel with
  | O => None
  | S n =>
      match s with
      | [] => None
      | c :: t =>
          if c =? QUOTE then '(k, r) ← scanstring t; Some (JStr k, r)
          else if c =? 123 (* { *) then
            match skip_ws t with
            | [] => None
            | c1 :: r =>
                if c1 =? 125 (* } *) then Some (JDict [], r)
                else if c1 =? QUOTE then
                  '(pairs, r') ← object_items n r;
                  Some (JDict (dict_of_pairs pairs), r')
                else None
            end
          else if c =? 91 (* [ *) then
            match skip_ws t with
            | [] => None
            | c1 :: r =>
                if c1 =? 93 (* ] *) then Some (JList [], r)
                else '(vs, r') ← array_items n (c1 :: r); Some (JList vs, r')
            end
          else scan_atom s
      end
  end
with array_items (fuel : nat) (s : str) : option (list json * str) :=
  match fuel with
  | O => None
  | S n =>
      '(v, r) ← scan_once n s;
      match skip_ws r with
      | [] => None
      | c :: r' =>
          if c =? 93 (* ] *) then Some ([v], r')
          else if c =? 44 (* , *) then
            '(vs, r'') ← array_items n (skip_ws r'); Some (v :: vs, r'')
          else None
      end
  end
with object_items (fuel : nat) (s : str) : option (list (str * json) * str) :=
  match fuel with
  | O => None
  | S n =>
      '(key, r) ← scanstring s;
      match skip_ws r with
      | [] => None
      | c :: r1 =>
          if c =? 58 (* : *) then
            '(v, r2) ← scan_once n (skip_ws r1);
            match skip_ws r2 with
            | [] => None
            | c2 :: r3 =>
                if c2 =? 125 (* } *) then Some ([(key, v)], r3)
                else if c2 =? 44 (* , *) then
                  match skip_ws r3 with
                  | [] => None
                  | c3 :: r4 =>
                      if c3 =? QUOTE then
                        '(pairs, r5) ← object_items n r4;
                        Some ((key, v) :: pairs, r5)
                      else None
                  end
                else None
            end
          else None
      end
  end.

(** [json.loads(s)]: [None] when decoding raises. *)
Definition json_loads (s : str) : option json :=
  if startswith s [0xFEFF] then None
  else
    match scan_once (2 * length s + 2) (skip_ws s) with
    | Some (v, r) =>
        match skip_ws r with
        | [] => Some v
        | _ => None
        end
    | None => None
    end.

Local Close Scope N_scope.

(** ** [json.dump(..., indent=2, ensure_ascii=False)] *)

Local Open Scope N_scope.

Definition hex_digit (n : N) : N := if n <? 10 then 48 + n else 87 + n.

(** [ESCAPE_DCT] of the encoder: quote, backslash and the control
    characters; every other code point is written as it is. *)
Definition escape_char (c : N) : str :=
  if c =? 34 then [92; 34]
  else if c =? 92 then [92; 92]
  else if c =? 10 then [92; 110]
  else if c =? 13 then [92; 114]
  else if c =? 9 then [92; 116]
  else if c =? 8 then [92; 98]
  else if c =? 12 then [92; 102]
  else if c <? 32 then [92; 117; 48; 48; hex_digit (c / 16); hex_digit (c mod 16)]
  else [c].

(** [encode_basestring] *)
Definition encode_basestring (s : str) : str :=
  QUOTE :: concat (escape_char <$> s) ++ [QUOTE].

Fixpoint digits_of_uint (u : Decimal.uint) : str :=
  match u with
  | Decimal.Nil => []
  | Decimal.D0 u => 48 :: digits_of_uint u
  | Decimal.D1 u => 49 :: digits_of_uint u
  | Decimal.D2 u => 50 :: digits_of_uint u
  | Decimal.D3 u => 51 :: digits_of_uint u
  | Decimal.D4 u => 52 :: digits_of_uint u
  | Decimal.D5 u => 53 :: digits_of_uint u
  | Decimal.D6 u => 54 :: digits_of_uint u
  | Decimal.D7 u => 55 :: digits_of_uint u
  | Decimal.D8 u => 56 :: digits_of_uint u
  | Decimal.D9 u => 57 :: digits_of_uint u
  end.

(** [int.__repr__] *)
Definition int_repr (z : Z) : str :=
  match Z.to_int z with
  | Decimal.Pos u => digits_of_uint u
  | Decimal.Neg u => 45 :: digits_of_uint u
  end.

Local Close Scope N_scope.

(** ["\n" + " " * (2 * level)] *)
Definition newline_indent (level : nat) : str :=
  NL :: replicate (2 * level) SPACE.

(** [_iterencode] at nesting depth [level], all chunks concatenated. Items
    are separated by a comma and a new line, keys from values by a colon
    and a space; an empty container has no line break. *)
Fixpoint encode (level : nat) (v : json) : str :=
  match v with
  | JNull => lit "null"
  | JBool true => lit "true"
  | JBool false => lit "false"
  | JInt z => int_repr z
  | JFloat literal => literal
  | JStr s => encode_basestring s
  | JList [] => lit "[]"
  | JList (x :: xs) =>
      lit "[" ++ newline_indent (S level) ++ encode (S level) x
      ++ (fix items (l : list json) : str :=
            match l with
            | [] => []
            | y :: l' =>
                lit "," ++ newline_indent (S level) ++ encode (S level) y
                ++ items l'
            end) xs
      ++ newline_indent level ++ lit "]"
  | JDict [] => lit "{}"
  | JDict ((k, x) :: kxs) =>
      lit "{" ++ newline_indent (S level)
      ++ encode_basestring k ++ lit ": " ++ encode (S level) x
      ++ (fix items (l : list (str * json)) : str :=
            match l with
            | [] => []
            | (k', y) :: l' =>
                lit "," ++ newline_indent (S level)
                ++ encode_basestring k' ++ lit ": " ++ encode (S level) y
                ++ items l'
            end) kxs
      ++ newline_indent level ++ lit "}"
  end.

Definition json_dumps (v : json) : str := encode 0 v.

(** ** Values that come from JSON

    The collection only ever holds values built by [json.loads]: a float
    carries a literal the decoder accepts as a float, and the keys of a
    [dict] are pairwise distinct. *)

Definition is_float_literal (l : str) : bool :=
  bool_decide (l = lit "NaN") || bool_decide (l = lit "Infinity")
  || bool_decide (l = lit "-Infinity")
  || match match_number l with
     | Some (JFloat l', []) => bool_decide (l' = l)
     | _ => false
     end.

Fixpoint json_ok (v : json) : bool :=
  match v with
  | JFloat l => is_float_literal l
  | JList l => forallb json_ok l
  | JDict d =>
      bool_decide (NoDup d.*1) && forallb (λ kv, json_ok kv.2) d
  | _ => true
  end.

(** ** Checkpoint store (lines 496-527) *)

(** What the run can observe of [TEMP_FILE]. *)
Inductive file_state :=
  | Missing                (* [os.path.exists] is false *)
  | Unreadable             (* exists, but [open] or reading raises *)
  | Text (content : str).  (* exists and reads back as this text *)

(** How one [open(TEMP_FILE, 'w')] followed by [json.dump] ends: completely
    written, refused at [open], or cut off after some characters. The last
    two raise inside the [try] of [save_incidents_to_temp]. *)
Inductive write_result :=
  | Written
  | OpenFailed
  | Torn (n : nat).

(** [load_existing_incidents]. Any exception in the [try], including the
    [TypeError] of [len] on a decoded number, boolean or null, gives [[]];
    a decoded object or string is returned as it is. *)
Definition load_existing_incidents (f : file_state) : json :=
  match f with
  | Missing => JList []
  | Unreadable => JList []
  | Text content =>
      match json_loads content with
      | None => JList []
      | Some incidents =>
          match py_len incidents with
          | Some _ => incidents
          | None => JList []
          end
      end
  end.

(** [save_incidents_to_temp]: the file after the call. Opening for writing
    truncates; a failure is caught and only reported. *)
Definition save_incidents_to_temp (w : write_result) (incidents : list json)
    (f : file_state) : file_state :=
  match w with
  | Written => Text (json_dumps (JList incidents))
  | OpenFailed => f
  | Torn n => Text (take n (json_dumps (JList incidents)))
  end.

(** ** Response parser (generate_incident_batch, lines 452-485) *)

(** Lines 452-467: trim, and when the text begins with a fence drop every
    line that begins with one, re-join and trim again. *)
Definition strip_code_fences (content : str) : str :=
  let content := strip content in
  if startswith content FENCE then
    let lines := split NL content in
    let lines := List.filter (λ l, negb (startswith l FENCE)) lines in
    strip (join [NL] lines)
  else content.

(** Lines 452-485 on the raw text of the backend. *)
Definition parse_response (content : str) : exn + list json :=
  match json_loads (strip_code_fences content) with
  | None => inl JSONDecodeError
  | Some (JList incidents) => inr incidents
  | Some _ => inl ValueError
  end.

(** What the backend call of one job produced. *)
Inductive backend_reply :=
  | Reply (content : str)
  | Failure.

(** [generate_incident_batch] after the backend has answered: any
    exception is logged and re-raised (lines 487-491). *)
Definition generate_incident_batch (reply : backend_reply) : exn + list json :=
  match reply with
  | Failure => inl BackendError
  | Reply content => parse_response content
  end.

(** ** The generation loop (main, lines 669-742) *)

(** Where in a round a [KeyboardInterrupt] can reach the main thread. *)
Inductive ipoint :=
  | AtRoundStart      (* at the head of the [while] body *)
  | AwaitingResult    (* blocked in [as_completed] *)
  | AfterExtend       (* between [extend] and the save *)
  | AfterSave.        (* after the save of a batch *)

(** Everything the loop does not decide itself. *)
Record World := {
  (* the reply to the job submitted in the given round *)
  backend : nat → BatchJob → backend_reply;
  (* when that job finishes; [as_completed] yields in this order *)
  finish_time : nat → BatchJob → nat;
  (* how the n-th call of [save_incidents_to_temp] ends *)
  disk : nat → write_result;
  (* Ctrl-C in the given round, at the k-th collected future *)
  interrupt : nat → nat → ipoint → bool;
  (* [export_to_xlsx] succeeds *)
  export_ok : bool;
  (* the answer to the clean-up question is y *)
  cleanup_yes : bool
}.

Record state := mkState {
  all_incidents : list json;
  temp_file : file_state;
  (* log: the jobs submitted, round by round *)
  submitted : list (list BatchJob);
  (* log: the collections handed to [save_incidents_to_temp] *)
  saves : list (list json)
}.

(** [future.result()] of a job. *)
Definition job_result (w : World) (round : nat) (j : BatchJob)
  : exn + list json :=
  generate_incident_batch (backend w round j).

Fixpoint insert_by_time (t : BatchJob → nat) (j : BatchJob)
    (l : list BatchJob) : list BatchJob :=
  match l with
  | [] => [j]
  | j' :: l' =>
      if bool_decide (t j' ≤ t j)%nat then j' :: insert_by_time t j l'
      else j :: l
  end.

(** [as_completed(futures)]: the futures in order of completion. *)
Definition as_completed (w : World) (round : nat) (futures : list BatchJob)
  : list BatchJob :=
  foldr (insert_by_time (finish_time w round)) [] futures.

Definition do_extend (st : state) (batch : list json) : state :=
  mkState (all_incidents st ++ batch) (temp_file st) (submitted st) (saves st).

Definition do_save (w : World) (st : state) : state :=
  mkState (all_incidents st)
    (save_incidents_to_temp (disk w (length (saves st))) (all_incidents st)
       (temp_file st))
    (submitted st) (saves st ++ [all_incidents st]).

Definition do_submit (st : state) (jobs : list BatchJob) : state :=
  mkState (all_incidents st) (temp_file st) (submitted st ++ [jobs]) (saves st).

(** Lines 700-713: the loop over [as_completed(futures)]. The result is the
    exception that leaves the loop, if any. *)
Fixpoint collect_results (w : World) (round k : nat)
    (completed : list BatchJob) (st : state) : option exn * state :=
  match completed with
  | [] => (None, st)
  | future :: completed' =>
      if interrupt w round k AwaitingResult then (Some KeyboardInterrupt, st)
      else
        match job_result w round future with
        | inl e =>
            if is_Exception e then collect_results w round (S k) completed' st
            else (Some e, st)
        | inr batch =>
            let st := do_extend st batch in
            if interrupt w round k AfterExtend then (Some KeyboardInterrupt, st)
            else
              let st := do_save w st in
              if interrupt w round k AfterSave then (Some KeyboardInterrupt, st)
              else collect_results w round (S k) completed' st
        end
  end.

(** One iteration of the [while] body (lines 673-713). *)
Definition run_round (w : World) (total_incidents BATCH_SIZE NUM_WORKERS : Z)
    (round : nat) (st : state) : option exn * state :=
  if interrupt w round 0 AtRoundStart then (Some KeyboardInterrupt, st)
  else
    match dispatch_round (Z.of_nat (length (all_incidents st)))
            total_incidents BATCH_SIZE NUM_WORKERS with
    | inl e => (Some e, st)
    | inr futures =>
        collect_results w round 0 (as_completed w round futures)
          (do_submit st futures)
    end.

(** [while len(all_incidents) < total_incidents]. [None] means the loop is
    still running after [fuel] rounds. *)
Fixpoint generation_loop (fuel : nat) (w : World)
    (total_incidents BATCH_SIZE NUM_WORKERS : Z) (round : nat) (st : state)
  : option (option exn * state) :=
  if bool_decide (Z.of_nat (length (all_incidents st)) < total_incidents) then
    match fuel with
    | O => None
    | S fuel' =>
        match run_round w total_incidents BATCH_SIZE NUM_WORKERS round st with
        | (None, st') =>
            generation_loop fuel' w total_incidents BATCH_SIZE NUM_WORKERS
              (S round) st'
        | (Some e, st') => Some (Some e, st')
        end
    end
  else Some (None, st).




(** ** Vocabulary of the statements *)

(** Total number of records a list of jobs asks for. *)
Definition requested (jobs : list BatchJob) : Z :=
  foldr (λ j acc, num_incidents j + acc) 0 jobs.

(** The records a job contributes: its batch, or nothing when it failed. *)
Definition delivered (w : World) (round : nat) (j : BatchJob) : list json :=
  match job_result w round j with
  | inr batch => batch
  | inl _ => []
  end.

(** What a round appends to the collection, in completion order. *)
Definition merged (w : World) (round : nat) (jobs : list BatchJob)
  : list json :=
  concat (delivered w round <$> as_completed w round jobs).

(** What the rounds [round], [round + 1], ... append, given their jobs. *)
Fixpoint merged_rounds (w : World) (round : nat)
    (rounds : list (list BatchJob)) : list json :=
  match rounds with
  | [] => []
  | jobs :: rounds' =>
      merged w round jobs ++ merged_rounds w (S round) rounds'
  end.

(** No Ctrl-C during the run. *)
Definition quiet (w : World) : Prop :=
  ∀ round k p, interrupt w round k p = false.

(** The job succeeds and returns exactly the requested number of records. *)
Definition succeeds_exactly (w : World) (round : nat) (j : BatchJob) : Prop :=
  ∃ batch, job_result w round j = inr batch
           ∧ length batch = Z.to_nat (num_incidents j).

(** A successful job never returns a different number of records than
    requested; it may still fail. *)
Definition exact_when_ok (w : World) : Prop :=
  ∀ round j batch,
    job_result w round j = inr batch →
    length batch = Z.to_nat (num_incidents j).

(** One step of the collection loop when no interrupt arrives. *)
Definition merge_result (w : World) (round : nat) (st : state) (j : BatchJob)
  : state :=
  match job_result w round j with
  | inr batch => do_save w (do_extend st batch)
  | inl _ => st
  end.

(** Sum of the lengths of what the jobs deliver. *)
Definition delivered_count (w : World) (round : nat) (jobs : list BatchJob) : Z :=
  foldr (λ j acc, Z.of_nat (length (delivered w round j)) + acc) 0 jobs.

(** The last save was handed the whole current collection, and the file
    holds its serialisation if that write went through. *)
Definition checkpoint_current (w : World) (st : state) : Prop :=
  last (saves st) = Some (all_incidents st)
  ∧ (disk w (pred (length (saves st))) = Written →
     temp_file st = Text (json_dumps (JList (all_incidents st)))).

(** Every collection handed to a save is an initial part of the current
    in-memory collection. *)
Definition saves_ok (st : state) : Prop :=
  Forall (λ snapshot, snapshot `prefix_of` all_incidents st) (saves st).

Definition job_failed (w : World) (round : nat) (j : BatchJob) : bool :=
  match job_result w round j with
  | inl _ => true
  | inr _ => false
  end.

(** A text between a line that opens a code fence, with an optional
    language tag, and a line that closes it, with whitespace around. *)
Definition fenced (before tag body after : str) : str :=
  before ++ FENCE ++ tag ++ [NL] ++ body ++ [NL] ++ FENCE ++ after.

Definition len_all (st : state) : Z := Z.of_nat (length (all_incidents st)).

(** ** Vocabulary of the proofs *)

Local Open Scope N_scope.

(** First characters of a JSON value. *)
Definition value_start (c : N) : bool :=
  (c =? 34) || (c =? 123) || (c =? 91) || (c =? 110) || (c =? 116)
  || (c =? 102) || (c =? 45) || is_digit c || (c =? 78) || (c =? 73).

(** What may follow a number literal without being read as part of it. *)
Definition number_follow (r : str) : bool :=
  match r with
  | [] => true
  | c :: _ =>
      negb (is_digit c || (c =? 46) || (c =? 101) || (c =? 69)
            || (c =? 43) || (c =? 45))
  end.

(** The digits and the rest of a [\uXXXX] escape at the head of a text. *)
Definition escape_window (s : str) : option (N * N * N * N * str) :=
  match s with
  | b :: u :: t =>
      if (b =? BACKSLASH) && (u =? 117) then
        match t with
        | g1 :: g2 :: g3 :: g4 :: s4 => Some (g1, g2, g3, g4, s4)
        | _ => None
        end
      else None
  | _ => None
  end.

(** No line begins with a backtick; [bol] tells whether the text starts at
    the beginning of a line. *)
Fixpoint no_tick_line (bol : bool) (s : str) : bool :=
  match s with
  | [] => true
  | c :: s' => negb (bol && (c =? BACKTICK)) && no_tick_line (c =? NL) s'
  end.

Local Close Scope N_scope.

(** Nested calls the scanner needs for a value. *)
Fixpoint need (v : json) : nat :=
  match v with
  | JList l => S (foldr (λ x acc, S (need x) + acc)%nat 0%nat l)
  | JDict d => S (foldr (λ kv acc, S (need kv.2) + acc)%nat 0%nat d)
  | _ => 1
  end.

(** The text of the elements after the first one. *)
Definition list_tail_text (level : nat) (l : list json) : str :=
  concat ((λ y, lit "," ++ newline_indent level ++ encode level y) <$> l).

Definition dict_tail_text (level : nat) (d : list (str * json)) : str :=
  concat ((λ kv, lit "," ++ newline_indent level ++ encode_basestring kv.1
                 ++ lit ": " ++ encode level kv.2) <$> d).

(** The collection of a run only ever holds decoded values. *)
Definition records_ok (st : state) : Prop :=
  forallb json_ok (all_incidents st) = true.

(** ** Concrete scenarios *)

(** The text of a JSON array of [n] nulls, as [json.dumps] lays it out. *)
Definition null_array (n : Z) : str :=
  json_dumps (JList (replicate (Z.to_nat n) JNull)).

Definition calm : nat → nat → ipoint → bool := λ _ _ _, false.

(** Every job is answered with exactly the requested number of records. *)
Definition obedient_world : World := {|
  backend := λ _ j, Reply (null_array (num_incidents j));
  finish_time := λ _ _, 0%nat;
  disk := λ _, Written;
  interrupt := calm;
  export_ok := true;
  cleanup_yes := false
|}.

(** In round 0 every job is answered with one record too many. *)
Definition generous_world : World := {|
  backend := λ round j,
    Reply (null_array (if bool_decide (round = 0%nat)
                       then num_incidents j + 1 else num_incidents j));
  finish_time := λ _ _, 0%nat;
  disk := λ _, Written;
  interrupt := calm;
  export_ok := true;
  cleanup_yes := false
|}.

(** In round 0 the job for the first records fails at the backend. *)
Definition flaky_world : World := {|
  backend := λ round j,
    if bool_decide (round = 0%nat ∧ existing_count j = 0) then Failure
    else Reply (null_array (num_incidents j));
  finish_time := λ _ _, 0%nat;
  disk := λ _, Written;
  interrupt := calm;
  export_ok := true;
  cleanup_yes := false
|}.

(** Ctrl-C arrives right after the first batch has been merged. *)
Definition interrupted_world : World := {|
  backend := λ _ j, Reply (null_array (num_incidents j));
  finish_time := λ _ _, 0%nat;
  disk := λ _, Written;
  interrupt := λ round k p,
    match p with AfterExtend => true | _ => false end;
  export_ok := true;
  cleanup_yes := false
|}.

(** A fresh run: nothing loaded, no checkpoint file. *)
Definition fresh : state := mkState [] Missing [] [].

(** Two records with text, number, nested and empty fields. *)
Definition sample_records : list json :=
  [ JDict [ (lit "Number", JStr (lit "INC0000001"));
            (lit "Effort", JInt 3);
            (lit "Resolve time", JFloat (lit "1.5e3"));
            (lit "Notes", JStr [34; 92; 10; 233; 8364]%N);
            (lit "Tags", JList [JNull; JBool true; JList []]) ];
    JDict [] ].

(** ** Configuration file (load_config, lines 102-127) *)

(** [key.startswith('_')]: the keys that serve as comments. *)
Definition is_comment_key (key : str) : bool := startswith key [95%N].

(** Line 121: [{k: v for k, v in value.items() if not k.startswith('_')}]. *)
Definition clean_section (value : list (str * json)) : list (str * json) :=
  dict_of_pairs (List.filter (λ kv, negb (is_comment_key kv.1)) value).

(** Lines 116-123: the loop that fills [cleaned_config]. *)
Definition clean_config (config : list (str * json)) : list (str * json) :=
  foldl (λ cleaned_config kv,
           if is_comment_key kv.1 then cleaned_config
           else
             match kv.2 with
             | JDict value =>
                 dict_set cleaned_config kv.1 (JDict (clean_section value))
             | value => dict_set cleaned_config kv.1 value
             end)
    [] config.

(** [load_config] on what [CONFIG_FILE] is: [None] when the file is
    missing, and when anything in the [try] raises, which includes the
    [AttributeError] of [items] on a decoded value that is not an object. *)
Definition load_config (f : file_state) : option (list (str * json)) :=
  match f with
  | Missing => None
  | Unreadable => None
  | Text content =>
      match json_loads content with
      | Some (JDict config) => Some (clean_config config)
      | _ => None
      end
  end.

(** A configuration with comment keys at three depths. *)
Definition sample_config : json :=
  JDict [ (lit "_comment", JStr (lit "copy and fill in"));
          (lit "llm_provider", JStr (lit "ollama"));
          (lit "generation",
           JDict [ (lit "_batch_size_comment", JStr (lit "records per call"));
                   (lit "batch_size", JInt 4);
                   (lit "num_workers", JInt 2) ]);
          (lit "categories",
           JDict [ (lit "sub_categories",
                    JDict [ (lit "_comment", JStr (lit "per top category"));
                            (lit "Hardware", JList [JStr (lit "Laptop")]) ]) ]) ].

(** ** The start of a run (main, lines 631-657) *)

(** Lines 631-638: the target is asked for until an answer converts to a
    positive integer. An answer is given by what [int] makes of the line,
    [None] for its [ValueError]; the result is [None] when the answers
    run out, where [input] raises [EOFError]. *)
Fixpoint read_total_incidents (answers : list (option Z)) : option Z :=
  match answers with
  | [] => None
  | Some total_incidents :: answers' =>
      if bool_decide (total_incidents > 0) then Some total_incidents
      else read_total_incidents answers'
  | None :: answers' => read_total_incidents answers'
  end.

(** How lines 641-657 go on. *)
Inductive startup :=
  | ExportOnly (incidents : json)                    (* lines 653-655 *)
  | Generate (all_incidents : json) (f : file_state). (* on to line 657 *)

(** Lines 641-657: the checkpoint is loaded and compared with the target;
    [overwrite_yes] tells whether the answer to the question of line 646
    is y. [None] stands for the [TypeError] of [len]. The removal of the
    file is taken to succeed. *)
Definition start_run (f : file_state) (total_incidents : Z)
    (overwrite_yes : bool) : option startup :=
  let all_incidents := load_existing_incidents f in
  existing_count ← py_len all_incidents;
  if bool_decide (existing_count >= total_incidents) then
    if overwrite_yes then Some (Generate (JList []) Missing)
    else Some (ExportOnly all_incidents)
  else Some (Generate all_incidents f).

(** ** The loop on a collection that is not a list

    [load_existing_incidents] returns whatever the file decodes to, if it
    has a length: an object or a string as well as an array. On such a
    value [extend] (line 703) raises [AttributeError], which line 710
    catches like the failure of a batch: nothing is merged, nothing is
    saved, and [len(all_incidents)] stays what it was. *)

(** Lines 700-713 on such a collection. *)
Fixpoint collect_unmergeable (w : World) (round k : nat)
    (completed : list BatchJob) : option exn :=
  match completed with
  | [] => None
  | future :: completed' =>
      if interrupt w round k AwaitingResult then Some KeyboardInterrupt
      else
        match job_result w round future with
        | inl e =>
            if is_Exception e then collect_unmergeable w round (S k) completed'
            else Some e
        | inr _ => collect_unmergeable w round (S k) completed'
        end
  end.

(** One iteration of the [while] body: the exception that leaves it, if
    any, and the log of the jobs submitted round by round. *)
Definition run_round_unmergeable (w : World)
    (total_incidents BATCH_SIZE NUM_WORKERS : Z) (round : nat)
    (existing_count : Z) (log : list (list BatchJob))
  : option exn * list (list BatchJob) :=
  if interrupt w round 0 AtRoundStart then (Some KeyboardInterrupt, log)
  else
    match dispatch_round existing_count total_incidents BATCH_SIZE
            NUM_WORKERS with
    | inl e => (Some e, log)
    | inr futures =>
        (collect_unmergeable w round 0 (as_completed w round futures),
         log ++ [futures])
    end.

(** [while len(all_incidents) < total_incidents] on such a collection. *)
Fixpoint loop_unmergeable (fuel : nat) (w : World)
    (total_incidents BATCH_SIZE NUM_WORKERS : Z) (round : nat)
    (existing_count : Z) (log : list (list BatchJob))
  : option (option exn * list (list BatchJob)) :=
  if bool_decide (existing_count < total_incidents) then
    match fuel with
    | O => None
    | S fuel' =>
        match run_round_unmergeable w total_incidents BATCH_SIZE NUM_WORKERS
                round existing_count log with
        | (None, log') =>
            loop_unmergeable fuel' w total_incidents BATCH_SIZE NUM_WORKERS
              (S round) existing_count log'
        | (Some e, log') => Some (Some e, log')
        end
    end
  else Some (None, log).

(** ** Worlds that differ in one respect *)

(** The same world with checkpoint writes that end as [d] says. *)
Definition with_disk (w : World) (d : nat → write_result) : World := {|
  backend := backend w;
  finish_time := finish_time w;
  disk := d;
  interrupt := interrupt w;
  export_ok := export_ok w;
  cleanup_yes := cleanup_yes w
|}.

(** The same world with jobs that finish when [t] says. *)
Definition with_finish_time (w : World) (t : nat → BatchJob → nat) : World := {|
  backend := backend w;
  finish_time := t;
  disk := disk w;
  interrupt := interrupt w;
  export_ok := export_ok w;
  cleanup_yes := cleanup_yes w
|}.

(** What a run holds in memory: everything of the state but the file. *)
Definition in_memory (st : state)
  : list json * list (list BatchJob) * list (list json) :=
  (all_incidents st, submitted st, saves st).

(** Every job is answered as asked, and Ctrl-C arrives right after the
    first checkpoint write. *)
Definition saved_then_interrupted_world : World := {|
  backend := λ _ j, Reply (null_array (num_incidents j));
  finish_time := λ _ _, 0%nat;
  disk := λ _, Written;
  interrupt := λ round k p,
    match p with AfterSave => true | _ => false end;
  export_ok := true;
  cleanup_yes := false
|}.

(** The jobs ask for the records after the first [from], up to [to], one
    stretch after the other: each starts where the one before it ends. *)
Fixpoint consecutive (jobs : list BatchJob) (from to : Z) : Prop :=
  match jobs with
  | [] => from = to
  | j :: jobs' =>
      existing_count j = from ∧ 1 <= num_incidents j
      ∧ consecutive jobs' (from + num_incidents j) to
  end.

(** The same world with a backend that fails every call. *)
Definition with_backend_down (w : World) : World := {|
  backend := λ _ _, Failure;
  finish_time := finish_time w;
  disk := disk w;
  interrupt := interrupt w;
  export_ok := export_ok w;
  cleanup_yes := cleanup_yes w
|}.

(** * Properties *)

(** ** Dispatch of a round *)

Section Dispatch.
Variables L T B W : Z.
Hypothesis HLT : L < T.
Hypothesis HB : 1 <= B.

(** [(R + B - 1) // B] is the ceiling of [R / B]. *)
Lemma ceil_div_spec :
  let n := (T - L + B - 1) / B in (n - 1) * B < T - L <= n * B.
Proof.
  intros n. subst n.
  pose proof (Z.div_mod (T - L + B - 1) B ltac:(lia)) as Hdm.
  pose proof (Z.mod_pos_bound (T - L + B - 1) B ltac:(lia)) as Hmod.
  nia.
Qed.

(** The ceiling is the only [n] with [(n - 1) * B < T - L <= n * B]. *)
Lemma ceil_unique (n : Z) :
  (n - 1) * B < T - L <= n * B → n = (T - L + B - 1) / B.
Proof. pose proof ceil_div_spec as Hc. cbv zeta in Hc. nia. Qed.

(** Neither [break] fires below the ceiling. *)
Lemma submit_jobs_planned (m k : nat) :
  Z.of_nat k + Z.of_nat m <= (T - L + B - 1) / B →
  submit_jobs L T B (seqZ (Z.of_nat k) (Z.of_nat m))
  = planned_job L (T - L) B <$> seqZ (Z.of_nat k) (Z.of_nat m).
Proof.
  revert k. induction m as [|m IH]; intros k Hk; [done|].
  rewrite seqZ_cons by lia. cbn [submit_jobs fmap list_fmap].
  pose proof ceil_div_spec as Hc. cbv zeta in Hc.
  assert (Z.of_nat k * B < T - L) by nia.
  rewrite bool_decide_eq_false_2 by lia.
  rewrite bool_decide_eq_false_2 by lia.
  replace (Z.succ (Z.of_nat k)) with (Z.of_nat (S k)) by lia.
  replace (Z.pred (Z.of_nat (S m))) with (Z.of_nat m) by lia.
  rewrite IH by lia. unfold planned_job. do 2 f_equal; lia.
Qed.

Lemma dispatch_round_planned :
  dispatch_round L T B W
  = inr (planned_job L (T - L) B
           <$> seqZ 0 (Z.min W ((T - L + B - 1) / B))).
Proof.
  unfold dispatch_round, py_range.
  rewrite bool_decide_eq_false_2 by lia. f_equal.
  destruct (decide (0 <= Z.min W ((T - L + B - 1) / B))) as [Hm|Hm].
  - pose proof (submit_jobs_planned
                  (Z.to_nat (Z.min W ((T - L + B - 1) / B))) 0) as Hp.
    rewrite !Z2Nat.id in Hp by lia. apply Hp. simpl. lia.
  - by rewrite seqZ_nil by lia.
Qed.
End Dispatch.

(** C1. In a round with snapshot length [L < T], batch size [B >= 1] and
    worker count [W >= 1], the scheduler submits exactly
    [min(W, ceil(R/B))] jobs for [R = T - L]; the job of index [i] starts at
    offset [L + i*B] and asks for [min(B, R - i*B)] records; the offsets are
    pairwise distinct and the ranges [offset, offset+size) do not overlap. *)
Theorem dispatch_round_spec (L T B W : Z) :
  L < T → 1 <= B → 1 <= W →
  ∃ (n : Z) (jobs : list BatchJob),
    (n - 1) * B < T - L <= n * B
    ∧ dispatch_round L T B W = inr jobs
    ∧ Z.of_nat (length jobs) = Z.min W n
    ∧ (∀ i : nat, Z.of_nat i < Z.min W n →
         jobs !! i = Some (mkJob (Z.min B (T - L - Z.of_nat i * B))
                                 (L + Z.of_nat i * B)))
    ∧ NoDup (existing_count <$> jobs)
    ∧ (∀ (i j : nat) (a b : BatchJob),
         i ≠ j → jobs !! i = Some a → jobs !! j = Some b →
         job_range_disjoint a b).
Proof.
  intros HLT HB HW.
  pose proof (ceil_div_spec L T B HB) as Hc. cbv zeta in Hc.
  set (n := (T - L + B - 1) / B) in *.
  assert (Hn : 1 <= n) by nia.
  exists n, (planned_job L (T - L) B <$> seqZ 0 (Z.min W n)).
  split; [done|]. split; [by apply dispatch_round_planned|].
  split; [rewrite length_fmap, length_seqZ; lia|].
  split.
  { intros i Hi. rewrite list_lookup_fmap.
    rewrite (lookup_seqZ_lt 0 (Z.min W n) i Hi).
    simpl. unfold planned_job. do 2 f_equal; lia. }
  split.
  { rewrite <- list_fmap_compose. apply NoDup_fmap_2_strong; [|apply NoDup_seqZ].
    intros x y _ _. simpl. nia. }
  intros i j a b Hij Ha Hb.
  rewrite list_lookup_fmap in Ha. rewrite list_lookup_fmap in Hb.
  apply fmap_Some in Ha as (x & Hx & ->). apply fmap_Some in Hb as (y & Hy & ->).
  apply lookup_seqZ in Hx as [-> Hx]. apply lookup_seqZ in Hy as [-> Hy].
  unfold job_range_disjoint, planned_job. simpl.
  destruct (decide (i < j)%nat); [left|right]; nia.
Qed.

(** The hypotheses of [dispatch_round_spec] at the defaults of the script
    ([BATCH_SIZE = 5], [NUM_WORKERS = 3]) with 7 records of 30 present. *)
Lemma dispatch_round_spec_witness :
  ∃ (n : Z) (jobs : list BatchJob),
    (n - 1) * 5 < 30 - 7 <= n * 5
    ∧ dispatch_round 7 30 5 3 = inr jobs
    ∧ Z.of_nat (length jobs) = Z.min 3 n
    ∧ (∀ i : nat, Z.of_nat i < Z.min 3 n →
         jobs !! i = Some (mkJob (Z.min 5 (30 - 7 - Z.of_nat i * 5))
                                 (7 + Z.of_nat i * 5)))
    ∧ NoDup (existing_count <$> jobs)
    ∧ (∀ (i j : nat) (a b : BatchJob),
         i ≠ j → jobs !! i = Some a → jobs !! j = Some b →
         job_range_disjoint a b).
Proof. apply (dispatch_round_spec 7 30 5 3); lia. Defined.

(** ** Collection of a round *)

(** A job fails only with an [Exception], which line 710 catches. *)
Lemma job_result_Exception (w : World) (round : nat) (j : BatchJob) (e : exn) :
  job_result w round j = inl e → is_Exception e = true.
Proof.
  unfold job_result, generate_incident_batch, parse_response.
  destruct (backend w round j) as [content|]; [|by intros [= <-]].
  destruct (json_loads _) as [[]|]; by intros [= <-].
Qed.

Lemma insert_by_time_perm (t : BatchJob → nat) (j : BatchJob)
    (l : list BatchJob) :
  insert_by_time t j l ≡ₚ j :: l.
Proof.
  induction l as [|j' l IH]; [done|]. simpl. case_bool_decide; [|done].
  rewrite IH. apply Permutation_swap.
Qed.

(** [as_completed] yields every future once. *)
Lemma as_completed_perm (w : World) (round : nat) (jobs : list BatchJob) :
  as_completed w round jobs ≡ₚ jobs.
Proof.
  unfold as_completed. induction jobs as [|j jobs IH]; [done|]. simpl.
  by rewrite insert_by_time_perm, IH.
Qed.

Lemma collect_results_quiet (w : World) (round : nat) (Hq : quiet w)
    (completed : list BatchJob) :
  ∀ k st,
    collect_results w round k completed st
    = (None, foldl (merge_result w round) st completed).
Proof.
  induction completed as [|j completed IH]; intros k st; [done|].
  simpl. rewrite !Hq. unfold merge_result at 2.
  destruct (job_result w round j) as [e|batch] eqn:Hj.
  - by rewrite (job_result_Exception _ _ _ _ Hj).
  - apply IH.
Qed.

Lemma merge_all_incidents (w : World) (round : nat) (completed : list BatchJob) :
  ∀ st,
    all_incidents (foldl (merge_result w round) st completed)
    = all_incidents st ++ concat (delivered w round <$> completed).
Proof.
  induction completed as [|j completed IH]; intros st; simpl.
  - by rewrite app_nil_r.
  - rewrite IH. unfold merge_result, delivered.
    destruct (job_result w round j); simpl; [done|]. by rewrite <- app_assoc.
Qed.

Lemma merge_submitted (w : World) (round : nat) (completed : list BatchJob) :
  ∀ st, submitted (foldl (merge_result w round) st completed) = submitted st.
Proof.
  induction completed as [|j completed IH]; intros st; simpl; [done|].
  rewrite IH. unfold merge_result. by destruct (job_result w round j).
Qed.

Lemma length_concat_delivered (w : World) (round : nat) (jobs : list BatchJob) :
  Z.of_nat (length (concat (delivered w round <$> jobs)))
  = delivered_count w round jobs.
Proof.
  unfold delivered_count.
  induction jobs as [|j jobs IH]; [done|].
  cbn [fmap list_fmap concat foldr]. rewrite length_app. lia.
Qed.

Lemma delivered_count_perm (w : World) (round : nat) (l1 l2 : list BatchJob) :
  l1 ≡ₚ l2 → delivered_count w round l1 = delivered_count w round l2.
Proof.
  unfold delivered_count.
  induction 1 as [|x l l' _ IH|x y l|l l' l'' _ IH1 _ IH2];
    cbn [foldr]; lia.
Qed.

(** The length of what a round appends does not depend on completion order. *)
Lemma length_merged (w : World) (round : nat) (jobs : list BatchJob) :
  Z.of_nat (length (merged w round jobs)) = delivered_count w round jobs.
Proof.
  unfold merged. rewrite length_concat_delivered.
  apply delivered_count_perm, as_completed_perm.
Qed.

(** A round without interrupt and with a non-zero batch size: all jobs are
    submitted, then every result is merged or dropped. *)
Lemma run_round_quiet (w : World) (T B W : Z) (round : nat) (st : state)
    (jobs : list BatchJob) :
  quiet w →
  dispatch_round (len_all st) T B W = inr jobs →
  ∃ st',
    run_round w T B W round st = (None, st')
    ∧ all_incidents st' = all_incidents st ++ merged w round jobs
    ∧ submitted st' = submitted st ++ [jobs].
Proof.
  intros Hq Hd. unfold run_round. rewrite Hq. fold (len_all st). rewrite Hd.
  rewrite collect_results_quiet by done. eexists. split; [done|].
  by rewrite merge_all_incidents, merge_submitted.
Qed.

Lemma merge_checkpoint_current (w : World) (round : nat)
    (completed : list BatchJob) :
  ∀ st,
    checkpoint_current w st
    ∨ (∃ j batch, j ∈ completed ∧ job_result w round j = inr batch) →
    checkpoint_current w (foldl (merge_result w round) st completed).
Proof.
  induction completed as [|j completed IH]; intros st H; simpl.
  - destruct H as [H|(j & b & Hj & _)]; [done|]. by apply elem_of_nil in Hj.
  - apply IH. unfold merge_result.
    destruct (job_result w round j) as [e|batch] eqn:Hj.
    + destruct H as [H|(j' & b & Hj' & Hb)]; [by left|]. right.
      apply elem_of_cons in Hj' as [->|Hj']; [congruence|eauto].
    + left. unfold checkpoint_current, do_save, do_extend. simpl.
      rewrite last_snoc, length_app. simpl.
      replace (pred (length (saves st) + 1)) with (length (saves st)) by lia.
      split; [done|]. by intros ->.
Qed.

(** ** Arithmetic of a round *)

Lemma requested_app (l1 l2 : list BatchJob) :
  requested (l1 ++ l2) = requested l1 + requested l2.
Proof.
  unfold requested. induction l1 as [|j l1 IH]; cbn [app foldr]; lia.
Qed.

(** The sizes of the planned jobs add up to the remainder, or to full
    batches when the workers do not cover it. *)
Lemma requested_planned (L R B : Z) (m : nat) :
  1 <= B → 0 <= R → (Z.of_nat m - 1) * B < R →
  requested (planned_job L R B <$> seqZ 0 (Z.of_nat m))
  = Z.min R (Z.of_nat m * B).
Proof.
  intros HB HR. induction m as [|m IH]; intros Hm.
  - simpl. unfold requested. simpl. lia.
  - rewrite seqZ_S, fmap_app, requested_app, IH by nia.
    unfold requested, planned_job. simpl. nia.
Qed.

Lemma delivered_count_exact (w : World) (round : nat) (jobs : list BatchJob) :
  Forall (λ j, 0 <= num_incidents j) jobs →
  Forall (succeeds_exactly w round) jobs →
  delivered_count w round jobs = requested jobs.
Proof.
  unfold delivered_count, requested.
  induction 1 as [|j jobs Hj _ IH]; [done|].
  intros Hs. apply Forall_cons in Hs as [(b & Hb & Hl) Hs].
  cbn [foldr]. rewrite IH by done. unfold delivered at 1. rewrite Hb. lia.
Qed.

Lemma delivered_count_bounds (w : World) (round : nat) (jobs : list BatchJob) :
  exact_when_ok w →
  Forall (λ j, 0 <= num_incidents j) jobs →
  0 <= delivered_count w round jobs <= requested jobs.
Proof.
  intros Hw. unfold delivered_count, requested.
  induction 1 as [|j jobs Hj _ IH]; [simpl; lia|].
  cbn [foldr].
  assert (0 <= Z.of_nat (length (delivered w round j)) <= num_incidents j);
    [|lia].
  unfold delivered.
  destruct (job_result w round j) as [e|b] eqn:Hb; simpl; [lia|].
  apply Hw in Hb. lia.
Qed.

Lemma planned_sizes_pos (L R B m : Z) :
  1 <= B → (m - 1) * B < R →
  Forall (λ j, 0 <= num_incidents j) (planned_job L R B <$> seqZ 0 m).
Proof.
  intros HB Hm. apply Forall_fmap, Forall_seqZ. intros i Hi. simpl. nia.
Qed.

(** What a round does when nothing interrupts it: the planned jobs are
    submitted and their results merged. *)
Lemma run_round_planned (w : World) (T B W : Z) (round : nat) (st : state) :
  quiet w → 1 <= B → 1 <= W → len_all st < T →
  let jobs := planned_job (len_all st) (T - len_all st) B
                <$> seqZ 0 (Z.min W ((T - len_all st + B - 1) / B)) in
  ∃ st',
    run_round w T B W round st = (None, st')
    ∧ all_incidents st' = all_incidents st ++ merged w round jobs
    ∧ submitted st' = submitted st ++ [jobs]
    ∧ len_all st' = len_all st + delivered_count w round jobs
    ∧ 1 <= requested jobs <= T - len_all st
    ∧ Forall (λ j, 0 <= num_incidents j) jobs
    ∧ (checkpoint_current w st
       ∨ (∃ j batch, j ∈ jobs ∧ job_result w round j = inr batch) →
       checkpoint_current w st').
Proof.
  intros Hq HB HW HL jobs.
  pose proof (ceil_div_spec (len_all st) T B HB) as Hc. cbv zeta in Hc.
  set (n := (T - len_all st + B - 1) / B) in *.
  assert (1 <= n) by nia.
  unfold run_round. rewrite Hq. fold (len_all st).
  rewrite dispatch_round_planned by done. fold n. fold jobs.
  rewrite collect_results_quiet by done. eexists. split; [done|].
  rewrite merge_all_incidents, merge_submitted.
  fold (merged w round jobs).
  split; [done|]. split; [done|]. split.
  { unfold len_all. rewrite merge_all_incidents. fold (merged w round jobs).
    rewrite length_app, Nat2Z.inj_add, length_merged. simpl. lia. }
  split.
  { subst jobs. rewrite <- (Z2Nat.id (Z.min W n)) by lia.
    rewrite requested_planned; rewrite ?Z2Nat.id by lia; nia. }
  split; [apply planned_sizes_pos; nia|].
  intros Hcur. apply merge_checkpoint_current.
  destruct Hcur as [Hcur|(j & b & Hj & Hb)]; [by left|right].
  exists j, b. by rewrite as_completed_perm.
Qed.

(** ** The generation loop *)

Section Loop.
Variable w : World.
Variables T B W : Z.

Lemma generation_loop_stop (fuel round : nat) (st : state) :
  T <= len_all st →
  generation_loop fuel w T B W round st = Some (None, st).
Proof.
  intros H. unfold len_all in H.
  destruct fuel; simpl; by rewrite bool_decide_eq_false_2 by lia.
Qed.

Lemma generation_loop_step (fuel round : nat) (st : state) :
  len_all st < T →
  generation_loop (S fuel) w T B W round st
  = match run_round w T B W round st with
    | (None, st') => generation_loop fuel w T B W (S round) st'
    | (Some e, st') => Some (Some e, st')
    end.
Proof.
  intros H. unfold len_all in H. simpl.
  by rewrite bool_decide_eq_true_2 by lia.
Qed.

Lemma generation_loop_out_of_fuel (round : nat) (st : state) :
  len_all st < T → generation_loop 0 w T B W round st = None.
Proof.
  intros H. unfold len_all in H. simpl.
  by rewrite bool_decide_eq_true_2 by lia.
Qed.

(** More fuel does not change a result. *)
Lemma generation_loop_mono (fuel fuel' : nat) :
  (fuel ≤ fuel')%nat →
  ∀ round st res,
    generation_loop fuel w T B W round st = Some res →
    generation_loop fuel' w T B W round st = Some res.
Proof.
  revert fuel'. induction fuel as [|fuel IH]; intros fuel' Hle round st res.
  - destruct (decide (len_all st < T)) as [Hlt|Hge].
    + by rewrite generation_loop_out_of_fuel.
    + rewrite !generation_loop_stop by lia. done.
  - destruct (decide (len_all st < T)) as [Hlt|Hge].
    + destruct fuel' as [|fuel']; [lia|].
      rewrite !generation_loop_step by done.
      destruct (run_round w T B W round st) as [[e|] st']; [done|].
      apply IH. lia.
    + rewrite !generation_loop_stop by lia. done.
Qed.

(** Normal termination means the target is reached; everything merged on
    the way is kept whole, in completion order. *)
Lemma generation_loop_finished (Hq : quiet w) (fuel : nat) :
  ∀ round st st',
    generation_loop fuel w T B W round st = Some (None, st') →
    T <= len_all st'
    ∧ ∃ rounds,
        submitted st' = submitted st ++ rounds
        ∧ all_incidents st' = all_incidents st ++ merged_rounds w round rounds.
Proof.
  induction fuel as [|fuel IH]; intros round st st'.
  - destruct (decide (len_all st < T)) as [Hlt|Hge].
    + by rewrite generation_loop_out_of_fuel.
    + rewrite generation_loop_stop by lia. intros [= <-].
      split; [lia|]. exists []. by rewrite !app_nil_r.
  - destruct (decide (len_all st < T)) as [Hlt|Hge].
    + rewrite generation_loop_step by done.
      destruct (dispatch_round (len_all st) T B W) as [e|jobs] eqn:Hd.
      * unfold run_round. rewrite Hq. fold (len_all st). by rewrite Hd.
      * destruct (run_round_quiet w T B W round st jobs Hq Hd)
          as (st1 & -> & Hall & Hsub).
        intros (HT & rounds & Hsub' & Hall')%IH. split; [done|].
        exists (jobs :: rounds). rewrite Hsub', Hall', Hsub, Hall. simpl.
        by rewrite <- !app_assoc.
    + rewrite generation_loop_stop by lia. intros [= <-].
      split; [lia|]. exists []. by rewrite !app_nil_r.
Qed.

Hypothesis Hq : quiet w.
Hypothesis HB : 1 <= B.
Hypothesis HW : 1 <= W.

(** When every batch succeeds with exactly the requested count, the loop
    asks for exactly the remainder and stops on the target. *)
Lemma generation_loop_exact (fuel : nat) :
  ∀ round st,
    (∀ r j, (round ≤ r)%nat → succeeds_exactly w r j) →
    len_all st <= T →
    (Z.to_nat (T - len_all st) ≤ fuel)%nat →
    ∃ st' rounds,
      generation_loop fuel w T B W round st = Some (None, st')
      ∧ len_all st' = T
      ∧ submitted st' = submitted st ++ rounds
      ∧ requested (concat rounds) = T - len_all st
      ∧ (rounds ≠ [] ∨ checkpoint_current w st → checkpoint_current w st').
Proof.
  induction fuel as [|fuel IH]; intros round st Hok Hle Hfuel.
  - exists st, []. rewrite generation_loop_stop by lia.
    rewrite app_nil_r. unfold requested. simpl.
    split_and!; [done|lia|done|lia|by intros [?|?]].
  - destruct (decide (len_all st < T)) as [Hlt|Hge].
    + rewrite generation_loop_step by done.
      destruct (run_round_planned w T B W round st Hq HB HW Hlt)
        as (st1 & -> & Hall & Hsub & Hlen & Hreq & Hpos & Hck).
      set (jobs := planned_job _ _ _ <$> _) in *.
      rewrite delivered_count_exact in Hlen;
        [|done|apply Forall_forall; intros; by apply Hok].
      destruct (IH (S round) st1) as (st' & rounds & Hrun & HT & Hsub' & Hreq' & Hck');
        [intros; apply Hok; lia|lia|lia|].
      exists st', (jobs :: rounds). split; [done|]. split; [done|].
      split; [by rewrite Hsub', Hsub, <- app_assoc|].
      split; [simpl; rewrite requested_app; lia|].
      intros _. apply Hck'. right. apply Hck. right.
      destruct jobs as [|j jobs']; [unfold requested in Hreq; simpl in Hreq; lia|].
      destruct (Hok round j) as (b & Hb & _); [lia|].
      exists j, b. split; [apply elem_of_cons; by left|done].
    + exists st, []. rewrite generation_loop_stop by lia.
      rewrite app_nil_r. unfold requested. simpl.
      split_and!; [done|lia|done|lia|by intros [?|?]].
Qed.

(** Failed batches in the first [k] rounds are made up for afterwards. *)
Lemma generation_loop_recovers (Hw : exact_when_ok w) (k : nat) :
  ∀ fuel round st,
    (∀ r j, (round + k ≤ r)%nat → succeeds_exactly w r j) →
    len_all st <= T →
    (k + Z.to_nat (T - len_all st) ≤ fuel)%nat →
    ∃ st',
      generation_loop fuel w T B W round st = Some (None, st')
      ∧ len_all st' = T.
Proof.
  induction k as [|k IH]; intros fuel round st Hok Hle Hfuel.
  - destruct (generation_loop_exact fuel round st)
      as (st' & rounds & Hrun & HT & _); [|done|lia|by eauto].
    intros; apply Hok; lia.
  - destruct (decide (len_all st < T)) as [Hlt|Hge].
    + destruct fuel as [|fuel]; [lia|].
      rewrite generation_loop_step by done.
      destruct (run_round_planned w T B W round st Hq HB HW Hlt)
        as (st1 & -> & Hall & Hsub & Hlen & Hreq & Hpos & Hck).
      set (jobs := planned_job _ _ _ <$> _) in *.
      pose proof (delivered_count_bounds w round jobs Hw Hpos).
      apply IH; [intros; apply Hok; lia|lia|lia].
    + exists st. rewrite generation_loop_stop by lia. split; [done|lia].
Qed.
End Loop.

(** ** Over-delivery *)

Lemma merged_rounds_app (w : World) (rounds1 rounds2 : list (list BatchJob)) :
  ∀ round,
    merged_rounds w round (rounds1 ++ rounds2)
    = merged_rounds w round rounds1
      ++ merged_rounds w (round + length rounds1) rounds2.
Proof.
  induction rounds1 as [|jobs rounds1 IH]; intros round; simpl.
  - by rewrite Nat.add_0_r.
  - rewrite IH, <- app_assoc. do 3 f_equal. lia.
Qed.

Lemma delivered_count_ge (w : World) (round : nat) (jobs : list BatchJob) :
  Forall (λ j, num_incidents j <= Z.of_nat (length (delivered w round j))) jobs →
  requested jobs <= delivered_count w round jobs.
Proof.
  unfold requested, delivered_count.
  induction 1 as [|j jobs Hj _ IH]; cbn [foldr]; lia.
Qed.

Lemma delivered_count_gt (w : World) (round : nat) (jobs : list BatchJob) :
  Forall (λ j, num_incidents j <= Z.of_nat (length (delivered w round j))) jobs →
  Exists (λ j, num_incidents j < Z.of_nat (length (delivered w round j))) jobs →
  requested jobs < delivered_count w round jobs.
Proof.
  intros Hall Hex. induction Hex as [j jobs Hj|j jobs Hex IH].
  - apply Forall_cons in Hall as [_ Hall%delivered_count_ge].
    unfold requested, delivered_count in *. cbn [foldr]. lia.
  - apply Forall_cons in Hall as [Hj Hall%IH].
    unfold requested, delivered_count in *. cbn [foldr]. lia.
Qed.

(** C10, as amended. The loop stops normally exactly in a state whose
    collection has reached the target, and [extend] keeps every merged
    batch whole: the final collection is the initial one followed by the
    successful batches in completion order, so its length is at least the
    target, and no round is run once the target is reached. The length is strictly above the target when the jobs of
    the last round ask for the whole remainder, each delivers at least what
    it was asked for, and one delivers more. *)
Theorem target_reached_without_truncation (w : World) (T B W : Z)
    (fuel round : nat) (st st' : state) :
  quiet w →
  generation_loop fuel w T B W round st = Some (None, st') →
  T <= len_all st'
  ∧ (T <= len_all st → st' = st)
  ∧ (∀ fuel' round' s,
       generation_loop fuel' w T B W round' s = Some (None, s)
       ↔ T <= len_all s)
  ∧ ∃ rounds,
      submitted st' = submitted st ++ rounds
      ∧ all_incidents st' = all_incidents st ++ merged_rounds w round rounds
      ∧ ∀ earlier last_jobs,
          rounds = earlier ++ [last_jobs] →
          let last_round := (round + length earlier)%nat in
          requested last_jobs
          = T - (len_all st
                 + Z.of_nat (length (merged_rounds w round earlier))) →
          Forall (λ j, num_incidents j
                       <= Z.of_nat (length (delivered w last_round j)))
            last_jobs →
          Exists (λ j, num_incidents j
                       < Z.of_nat (length (delivered w last_round j)))
            last_jobs →
          T < len_all st'.
Proof.
  intros Hq Hrun.
  destruct (generation_loop_finished w T B W Hq fuel round st st' Hrun)
    as (HT & rounds & Hsub & Hall).
  split; [done|]. split.
  { intros Hge. rewrite generation_loop_stop in Hrun by done. congruence. }
  split.
  { intros fuel' round' s. split; [|apply generation_loop_stop].
    intros Hs. by apply (generation_loop_finished w T B W Hq _ _ _ _ Hs). }
  exists rounds. split; [done|]. split; [done|].
  intros earlier last_jobs -> last_round Hreq Hge Hgt.
  pose proof (delivered_count_gt w last_round last_jobs Hge Hgt) as Hlt.
  unfold len_all in *. rewrite Hall, merged_rounds_app. simpl.
  rewrite app_nil_r, !length_app, !Nat2Z.inj_add, length_merged.
  fold last_round. lia.
Qed.

(** [target_reached_without_truncation] on a run that over-delivers in its
    only round: target 10, batches of 4, three workers, 13 records. *)
Lemma target_reached_without_truncation_witness :
  ∃ st',
    generation_loop 1 generous_world 10 4 3 0 fresh = Some (None, st')
    ∧ 10 < len_all st'.
Proof.
  eexists. split; [vm_compute; reflexivity|].
  set (st' := mkState _ _ _ _).
  assert (Hq : quiet generous_world) by (intros ? ? ?; reflexivity).
  assert (Hrun : generation_loop 1 generous_world 10 4 3 0 fresh
                 = Some (None, st')) by (vm_compute; reflexivity).
  destruct (target_reached_without_truncation
              generous_world 10 4 3 1 0 fresh st' Hq Hrun)
    as (_ & _ & _ & rounds & Hsub & _ & Hlast).
  apply (Hlast [] [mkJob 4 0; mkJob 4 4; mkJob 2 8]).
  - simpl in Hsub. by rewrite <- Hsub.
  - reflexivity.
  - repeat constructor; vm_compute; discriminate.
  - constructor. vm_compute. reflexivity.
Defined.

(** C10 as stated fails: with one worker, target 10 and batches of 4, the
    first batch returns 5 records instead of 4, and the run still ends with
    exactly 10 records, because the later rounds ask only for what is
    missing. *)
Lemma over_delivery_can_be_absorbed :
  ∃ batch st',
    job_result generous_world 0 (mkJob 4 0) = inr batch
    ∧ (length batch > Z.to_nat 4)%nat
    ∧ generation_loop 3 generous_world 10 4 1 0 fresh = Some (None, st')
    ∧ mkJob 4 0 ∈ concat (submitted st')
    ∧ ¬ (10 < len_all st').
Proof.
  eexists _, _.
  split; [vm_compute; reflexivity|].
  split; [vm_compute; lia|].
  split; [vm_compute; reflexivity|].
  split; [simpl; apply elem_of_cons; by left|].
  vm_compute. by intros [=].
Qed.

(** ** Interrupted and failed runs *)

Lemma saves_ok_extend (st : state) (batch : list json) :
  saves_ok st → saves_ok (do_extend st batch).
Proof.
  unfold saves_ok. simpl. intros H. eapply Forall_impl; [done|].
  intros snap Hp. by apply prefix_app_r.
Qed.

Lemma saves_ok_save (w : World) (st : state) :
  saves_ok st → saves_ok (do_save w st).
Proof.
  unfold saves_ok. simpl. intros H. apply Forall_app. split; [done|].
  by apply Forall_singleton.
Qed.







(** ** Characters *)

Local Open Scope N_scope.

(** Turns boolean tests on code points into arithmetic. *)
Ltac chars :=
  repeat rewrite ?orb_true_iff, ?orb_false_iff, ?andb_true_iff,
    ?andb_false_iff, ?negb_true_iff, ?negb_false_iff, ?N.eqb_eq, ?N.eqb_neq,
    ?N.leb_le, ?N.leb_gt, ?N.ltb_lt, ?N.ltb_ge in *;
  try lia.

Lemma value_start_not_ws (c : N) : value_start c = true → json_ws c = false.
Proof. unfold value_start, json_ws, is_digit. intros H. chars. Qed.

Lemma value_start_not_space (c : N) :
  value_start c = true → py_isspace c = false.
Proof. unfold value_start, py_isspace, is_digit. intros H. chars. Qed.

Lemma value_start_not_tick (c : N) : value_start c = true → c ≠ BACKTICK.
Proof. unfold value_start, BACKTICK, is_digit. intros H. chars. Qed.

Lemma skip_ws_start (c : N) (s : str) :
  json_ws c = false → skip_ws (c :: s) = c :: s.
Proof. intros H. simpl. by rewrite H. Qed.

Lemma skip_ws_spaces (k : nat) (s : str) :
  skip_ws (replicate k SPACE ++ s) = skip_ws s.
Proof. induction k as [|k IH]; [done|]. simpl. apply IH. Qed.

Lemma skip_ws_newline_indent (level : nat) (s : str) :
  skip_ws (newline_indent level ++ s) = skip_ws s.
Proof. unfold newline_indent. simpl. apply skip_ws_spaces. Qed.

(** ** Strings survive encoding and decoding *)

Lemma hex_escape (c : N) :
  c < 32 → hex4 48 48 (hex_digit (c / 16)) (hex_digit (c mod 16)) = Some c.
Proof.
  intros H. rewrite <- (N2Nat.id c). assert (N.to_nat c < 32)%nat as Hn by lia.
  revert Hn. generalize (N.to_nat c). intros n Hn.
  do 32 (destruct n as [|n]; [vm_compute; reflexivity|]). lia.
Qed.

Lemma scanstring_escape_char (c : N) (s k r : str) :
  scanstring s = Some (k, r) →
  scanstring (escape_char c ++ s) = Some (c :: k, r).
Proof.
  intros H. unfold escape_char.
  destruct (N.eqb_spec c 34) as [->|]; [simpl; by rewrite H|].
  destruct (N.eqb_spec c 92) as [->|]; [simpl; by rewrite H|].
  destruct (N.eqb_spec c 10) as [->|]; [simpl; by rewrite H|].
  destruct (N.eqb_spec c 13) as [->|]; [simpl; by rewrite H|].
  destruct (N.eqb_spec c 9) as [->|]; [simpl; by rewrite H|].
  destruct (N.eqb_spec c 8) as [->|]; [simpl; by rewrite H|].
  destruct (N.eqb_spec c 12) as [->|]; [simpl; by rewrite H|].
  destruct (N.ltb_spec c 32) as [Hlt|Hge].
  - cbn [app scanstring]. change (92 =? QUOTE) with false.
    change (92 =? BACKSLASH) with true. change (117 =? 117) with true.
    cbn iota. rewrite hex_escape by done.
    replace (is_high_surrogate c) with false
      by (symmetry; unfold is_high_surrogate; chars).
    by rewrite H.
  - cbn [app scanstring]. unfold QUOTE, BACKSLASH.
    destruct (N.eqb_spec c 34); [done|]. destruct (N.eqb_spec c 92); [done|].
    destruct (N.ltb_spec c 32); [lia|]. by rewrite H.
Qed.

Lemma scanstring_escaped (s r : str) :
  scanstring (concat (escape_char <$> s) ++ QUOTE :: r) = Some (s, r).
Proof.
  induction s as [|c s IH]; [done|].
  cbn [fmap list_fmap concat]. rewrite <- app_assoc.
  by apply scanstring_escape_char.
Qed.

Lemma encode_basestring_app (s r : str) :
  encode_basestring s ++ r = QUOTE :: concat (escape_char <$> s) ++ QUOTE :: r.
Proof. unfold encode_basestring. simpl. by rewrite <- app_assoc. Qed.

Local Close Scope N_scope.

(** ** Numbers survive encoding and decoding *)

Local Open Scope N_scope.

Lemma span_digits_app (a r ds x : str) :
  number_follow r = true →
  span_digits a = (ds, x) → span_digits (a ++ r) = (ds, x ++ r).
Proof.
  intros Hr. revert ds x. induction a as [|c a IH]; intros ds x; simpl.
  - intros [= <- <-]. destruct r as [|c r]; [done|]. simpl in *.
    destruct (is_digit c); [done|done].
  - destruct (is_digit c); [|by intros [= <- <-]].
    destruct (span_digits a) as [ds' x']. intros [= <- <-].
    by rewrite (IH ds' x').
Qed.

Lemma scan_int_app (a r ds x : str) :
  number_follow r = true →
  scan_int a = Some (ds, x) → scan_int (a ++ r) = Some (ds, x ++ r).
Proof.
  intros Hr. destruct a as [|d a]; [done|]. cbn [scan_int app].
  destruct (is_digit d); [|done]. destruct (d =? 48); [by intros [= <- <-]|].
  intros [= H]. f_equal. rewrite app_comm_cons. by apply span_digits_app.
Qed.

Lemma scan_frac_app (a r f x : str) :
  number_follow r = true →
  scan_frac a = (f, x) → scan_frac (a ++ r) = (f, x ++ r).
Proof.
  intros Hr. destruct a as [|c a].
  - intros [= <- <-]. destruct r as [|c r]; [done|]. simpl in *.
    destruct (N.eqb_spec c 46) as [->|]; [done|done].
  - cbn [scan_frac app]. destruct (c =? 46); [|by intros [= <- <-]].
    destruct (span_digits a) as [fd x'] eqn:Hs.
    rewrite (span_digits_app a r fd x' Hr Hs).
    destruct fd; by intros [= <- <-].
Qed.

Lemma scan_exp_app (a r e x : str) :
  number_follow r = true →
  scan_exp a = (e, x) → scan_exp (a ++ r) = (e, x ++ r).
Proof.
  intros Hr. destruct a as [|c a].
  - intros [= <- <-]. destruct r as [|c r]; [done|]. simpl in *.
    destruct (N.eqb_spec c 101) as [->|]; [done|].
    destruct (N.eqb_spec c 69) as [->|]; [done|done].
  - cbn [scan_exp app]. destruct ((c =? 101) || (c =? 69)); [|by intros [= <- <-]].
    destruct a as [|c' a].
    + simpl. intros [= <- <-]. destruct r as [|c' r]; [done|]. simpl in *.
      destruct (N.eqb_spec c' 43) as [->|]; [done|].
      destruct (N.eqb_spec c' 45) as [->|]; [done|]. simpl.
      destruct (is_digit c'); [done|done].
    + cbn [app]. destruct ((c' =? 43) || (c' =? 45)).
      * destruct (span_digits a) as [ed x'] eqn:Hs.
        rewrite (span_digits_app a r ed x' Hr Hs).
        destruct ed; by intros [= <- <-].
      * destruct (span_digits (c' :: a)) as [ed x'] eqn:Hs.
        change (c' :: a ++ r) with ((c' :: a) ++ r).
        rewrite (span_digits_app (c' :: a) r ed x' Hr Hs).
        destruct ed; by intros [= <- <-].
Qed.

(** A number read from a text is read the same way when a harmless
    continuation follows. *)
Lemma match_number_app (a r x : str) (v : json) :
  number_follow r = true →
  match_number a = Some (v, x) → match_number (a ++ r) = Some (v, x ++ r).
Proof.
  intros Hr. unfold match_number.
  assert (Hgen : ∀ neg s0,
    ('(int_ds, r0) ← scan_int s0;
     let '(frac, r1) := scan_frac r0 in
     let '(exp, r2) := scan_exp r1 in
     match frac, exp with
     | [], [] => Some (JInt (py_int neg int_ds), r2)
     | _, _ => Some (JFloat ((if neg then [45] else []) ++ int_ds ++ frac ++ exp), r2)
     end) = Some (v, x) →
    ('(int_ds, r0) ← scan_int (s0 ++ r);
     let '(frac, r1) := scan_frac r0 in
     let '(exp, r2) := scan_exp r1 in
     match frac, exp with
     | [], [] => Some (JInt (py_int neg int_ds), r2)
     | _, _ => Some (JFloat ((if neg then [45] else []) ++ int_ds ++ frac ++ exp), r2)
     end) = Some (v, x ++ r)).
  { intros neg s0. destruct (scan_int s0) as [[int_ds r0]|] eqn:Hi; [|done].
    rewrite (scan_int_app s0 r int_ds r0 Hr Hi). simpl.
    destruct (scan_frac r0) as [frac r1] eqn:Hf.
    rewrite (scan_frac_app r0 r frac r1 Hr Hf).
    destruct (scan_exp r1) as [exp r2] eqn:He.
    rewrite (scan_exp_app r1 r exp r2 Hr He).
    destruct frac, exp; by intros [= <- <-]. }
  destruct a as [|c a]; [done|]. cbn [app].
  destruct (c =? 45); [apply Hgen|]. rewrite app_comm_cons. apply Hgen.
Qed.

Lemma is_digit_digits_of_uint (u : Decimal.uint) :
  Forall (λ c, is_digit c = true) (digits_of_uint u).
Proof. induction u; simpl; constructor; done. Qed.

Lemma uint_of_digits_of_uint (u : Decimal.uint) :
  uint_of_digits (digits_of_uint u) = u.
Proof. induction u; simpl; by f_equal. Qed.

Lemma span_digits_all (ds : str) :
  Forall (λ c, is_digit c = true) ds → span_digits ds = (ds, []).
Proof.
  induction 1 as [|c ds Hc _ IH]; [done|]. simpl. by rewrite Hc, IH.
Qed.

(** The decimal digits of a positive number do not start with a zero. *)
Lemma to_uint_head (p : positive) :
  ∃ c ds, digits_of_uint (Pos.to_uint p) = c :: ds
          ∧ is_digit c = true ∧ c ≠ 48.
Proof.
  pose proof (DecimalPos.Unsigned.to_of (Pos.to_uint p)) as Hn.
  rewrite DecimalPos.Unsigned.of_to in Hn. simpl in Hn.
  pose proof (DecimalPos.Unsigned.to_uint_nonzero p) as Hz.
  destruct (Decimal.uint_eq_dec (Decimal.nzhead (Pos.to_uint p)) Decimal.Nil)
    as [Hnil|Hnn].
  - apply unorm_0 in Hnil. congruence.
  - rewrite (unorm_nzhead _ Hnn) in Hn.
    pose proof (nzhead_nonzero (Pos.to_uint p)) as H0. rewrite <- Hn in H0.
    destruct (Pos.to_uint p) eqn:E; simpl;
      try (eexists _, _; split; [reflexivity|split; [reflexivity|lia]]).
    + by rewrite <- Hn in Hnn.
    + by destruct (H0 u).
Qed.

Lemma match_number_int_repr (z : Z) :
  match_number (int_repr z) = Some (JInt z, []).
Proof.
  assert (Hpos : ∀ neg p,
    ('(int_ds, r0) ← scan_int (digits_of_uint (Pos.to_uint p));
     let '(frac, r1) := scan_frac r0 in
     let '(exp, r2) := scan_exp r1 in
     match frac, exp with
     | [], [] => Some (JInt (py_int neg int_ds), r2)
     | _, _ => Some (JFloat ((if neg then [45] else []) ++ int_ds ++ frac ++ exp), r2)
     end)
    = Some (JInt (Z.of_int (if neg then Decimal.Neg (Pos.to_uint p)
                            else Decimal.Pos (Pos.to_uint p))), [])).
  { intros neg p. destruct (to_uint_head p) as (c & ds & Hd & Hc & H48).
    pose proof (is_digit_digits_of_uint (Pos.to_uint p)) as Hall.
    unfold scan_int. rewrite Hd, Hc.
    destruct (N.eqb_spec c 48); [done|].
    rewrite <- Hd, span_digits_all by done. simpl.
    unfold py_int. by rewrite uint_of_digits_of_uint. }
  rewrite <- (DecimalZ.of_to z) at 2. unfold int_repr, match_number.
  destruct z as [|p|p]; [done| |].
  - simpl Z.to_int. destruct (to_uint_head p) as (c & ds & Hd & Hc & H48).
    rewrite Hd. replace (c =? 45) with false
      by (symmetry; unfold is_digit in Hc; chars).
    rewrite <- Hd. apply (Hpos false).
  - simpl Z.to_int. cbn iota. change (45 =? 45) with true. cbn iota.
    apply (Hpos true).
Qed.

Local Close Scope N_scope.

(** ** Induction on values *)

Lemma json_ind (P : json → Prop) :
  P JNull →
  (∀ b, P (JBool b)) →
  (∀ z, P (JInt z)) →
  (∀ l, P (JFloat l)) →
  (∀ s, P (JStr s)) →
  (∀ l, Forall P l → P (JList l)) →
  (∀ d, Forall (λ kv, P kv.2) d → P (JDict d)) →
  ∀ v, P v.
Proof.
  intros Hnull Hbool Hint Hfloat Hstr Hlist Hdict.
  fix IH 1. intros [ |b|z|l|s|l|d].
  - apply Hnull.
  - apply Hbool.
  - apply Hint.
  - apply Hfloat.
  - apply Hstr.
  - apply Hlist. induction l as [|x l IHl]; constructor; [apply IH|apply IHl].
  - apply Hdict. induction d as [|[k x] d IHd]; constructor;
      [apply IH|apply IHd].
Qed.

(** ** Unfolding the scanner *)

Local Open Scope N_scope.

Lemma scan_once_quote (n : nat) (t : str) :
  scan_once (S n) (QUOTE :: t) = '(k, r) ← scanstring t; Some (JStr k, r).
Proof. reflexivity. Qed.

Lemma scan_once_array (n : nat) (t : str) :
  scan_once (S n) (91 :: t)
  = match skip_ws t with
    | [] => None
    | c1 :: r =>
        if c1 =? 93 then Some (JList [], r)
        else '(vs, r') ← array_items n (c1 :: r); Some (JList vs, r')
    end.
Proof. reflexivity. Qed.

Lemma scan_once_object (n : nat) (t : str) :
  scan_once (S n) (123 :: t)
  = match skip_ws t with
    | [] => None
    | c1 :: r =>
        if c1 =? 125 then Some (JDict [], r)
        else if c1 =? QUOTE then
          '(pairs, r') ← object_items n r;
          Some (JDict (dict_of_pairs pairs), r')
        else None
    end.
Proof. reflexivity. Qed.

Lemma scan_once_atom (n : nat) (c : N) (t : str) :
  c ≠ 34 → c ≠ 123 → c ≠ 91 → scan_once (S n) (c :: t) = scan_atom (c :: t).
Proof.
  intros H1 H2 H3. cbn [scan_once]. unfold QUOTE.
  destruct (N.eqb_spec c 34); [done|]. destruct (N.eqb_spec c 123); [done|].
  by destruct (N.eqb_spec c 91).
Qed.

Lemma array_items_unfold (n : nat) (s : str) :
  array_items (S n) s
  = '(v, r) ← scan_once n s;
    match skip_ws r with
    | [] => None
    | c :: r' =>
        if c =? 93 then Some ([v], r')
        else if c =? 44 then
          '(vs, r'') ← array_items n (skip_ws r'); Some (v :: vs, r'')
        else None
    end.
Proof. reflexivity. Qed.

Lemma object_items_unfold (n : nat) (s : str) :
  object_items (S n) s
  = '(key, r) ← scanstring s;
    match skip_ws r with
    | [] => None
    | c :: r1 =>
        if c =? 58 then
          '(v, r2) ← scan_once n (skip_ws r1);
          match skip_ws r2 with
          | [] => None
          | c2 :: r3 =>
              if c2 =? 125 then Some ([(key, v)], r3)
              else if c2 =? 44 then
                match skip_ws r3 with
                | [] => None
                | c3 :: r4 =>
                    if c3 =? QUOTE then
                      '(pairs, r5) ← object_items n r4;
                      Some ((key, v) :: pairs, r5)
                    else None
                end
              else None
          end
        else None
    end.
Proof. reflexivity. Qed.

(** ** Atoms *)

Lemma strip_prefix_other (a c : N) (p s : str) :
  c ≠ a → strip_prefix (a :: p) (c :: s) = None.
Proof. intros H. simpl. by destruct (N.eqb_spec c a). Qed.

(** A text that starts like a number is never taken for a literal name. *)
Lemma scan_atom_number (c : N) (s : str) :
  c = 45 ∨ is_digit c = true →
  scan_atom (c :: s)
  = match match_number (c :: s) with
    | Some res => Some res
    | None => match strip_prefix (lit "-Infinity") (c :: s) with
              | Some r => Some (JFloat (lit "-Infinity"), r)
              | None => None
              end
    end.
Proof.
  intros Hc. unfold scan_atom.
  assert (c ≠ 110 ∧ c ≠ 116 ∧ c ≠ 102 ∧ c ≠ 78 ∧ c ≠ 73) as (?&?&?&?&?)
    by (unfold is_digit in Hc; chars).
  change (lit "null") with (110 :: lit "ull").
  change (lit "true") with (116 :: lit "rue").
  change (lit "false") with (102 :: lit "alse").
  change (lit "NaN") with (78 :: lit "aN").
  change (lit "Infinity") with (73 :: lit "nfinity").
  by rewrite !strip_prefix_other by done.
Qed.

Lemma match_number_head (l x : str) (v : json) :
  match_number l = Some (v, x) →
  ∃ c t, l = c :: t ∧ (c = 45 ∨ is_digit c = true).
Proof.
  destruct l as [|c t]; [done|]. intros H. exists c, t. split; [done|].
  unfold match_number in H. destruct (N.eqb_spec c 45); [by left|right].
  cbn [scan_int] in H. by destruct (is_digit c).
Qed.

Lemma scan_atom_match_number (a r x : str) (v : json) :
  number_follow r = true →
  match_number a = Some (v, x) → scan_atom (a ++ r) = Some (v, x ++ r).
Proof.
  intros Hr Hm. destruct (match_number_head a x v Hm) as (c & t & -> & Hc).
  cbn [app]. rewrite scan_atom_number by done.
  change (c :: t ++ r) with ((c :: t) ++ r).
  by rewrite (match_number_app _ r x v Hr Hm).
Qed.

Lemma scan_atom_float (l r : str) :
  is_float_literal l = true → number_follow r = true →
  scan_atom (l ++ r) = Some (JFloat l, r).
Proof.
  unfold is_float_literal. intros Hl Hr.
  destruct (decide (l = lit "NaN")) as [->|]; [done|].
  destruct (decide (l = lit "Infinity")) as [->|]; [done|].
  destruct (decide (l = lit "-Infinity")) as [->|]; [done|].
  rewrite !bool_decide_eq_false_2 in Hl by done. simpl in Hl.
  destruct (match_number l) as [[[ | | |l'| | | ] [|? ?]]|] eqn:Hm; try done.
  apply bool_decide_eq_true in Hl as ->.
  by rewrite (scan_atom_match_number l r [] (JFloat l) Hr Hm).
Qed.

Lemma is_float_literal_head (l : str) :
  is_float_literal l = true →
  ∃ c t, l = c :: t ∧ value_start c = true ∧ c ≠ 34 ∧ c ≠ 123 ∧ c ≠ 91.
Proof.
  unfold is_float_literal. intros Hl.
  destruct (decide (l = lit "NaN")) as [->|]; [by eexists _, _|].
  destruct (decide (l = lit "Infinity")) as [->|]; [by eexists _, _|].
  destruct (decide (l = lit "-Infinity")) as [->|]; [by eexists _, _|].
  rewrite !bool_decide_eq_false_2 in Hl by done. simpl in Hl.
  destruct (match_number l) as [[v x]|] eqn:Hm; [|done].
  destruct (match_number_head l x v Hm) as (c & t & -> & Hc).
  exists c, t. split; [done|]. unfold value_start, is_digit in *. chars.
Qed.

Lemma int_repr_head (z : Z) :
  ∃ c t, int_repr z = c :: t ∧ value_start c = true
         ∧ c ≠ 34 ∧ c ≠ 123 ∧ c ≠ 91.
Proof.
  unfold int_repr. destruct z as [|p|p]; simpl.
  - by eexists _, _.
  - destruct (to_uint_head p) as (c & ds & -> & Hc & _). exists c, ds.
    split; [done|]. unfold value_start, is_digit in *. chars.
  - by eexists _, _.
Qed.

Local Close Scope N_scope.

(** ** Decoding what the encoder wrote *)

Lemma encode_list_cons (level : nat) (x : json) (xs : list json) :
  encode level (JList (x :: xs))
  = lit "[" ++ newline_indent (S level) ++ encode (S level) x
    ++ list_tail_text (S level) xs ++ newline_indent level ++ lit "]".
Proof.
  cbn [encode]. do 3 f_equal. f_equal.
  unfold list_tail_text. induction xs as [|y xs IH]; [done|].
  cbn [fmap list_fmap concat]. rewrite <- !app_assoc. by rewrite IH.
Qed.

Lemma encode_dict_cons (level : nat) (k : str) (x : json)
    (kxs : list (str * json)) :
  encode level (JDict ((k, x) :: kxs))
  = lit "{" ++ newline_indent (S level) ++ encode_basestring k ++ lit ": "
    ++ encode (S level) x ++ dict_tail_text (S level) kxs
    ++ newline_indent level ++ lit "}".
Proof.
  cbn [encode]. do 5 f_equal. f_equal.
  unfold dict_tail_text. induction kxs as [|[k' y] kxs IH]; [done|].
  cbn [fmap list_fmap concat]. rewrite <- !app_assoc. by rewrite IH.
Qed.

Local Open Scope N_scope.

Lemma encode_head (level : nat) (v : json) :
  json_ok v = true →
  ∃ c t, encode level v = c :: t ∧ value_start c = true.
Proof.
  destruct v as [ |[]|z|l|s|[|x xs]|[|[k x] kxs]]; intros Hok;
    try by eexists _, _.
  - destruct (int_repr_head z) as (c & t & Hz & Hc & _). by exists c, t.
  - destruct (is_float_literal_head l Hok) as (c & t & Hz & Hc & _).
    by exists c, t.
Qed.

Lemma skip_ws_encode (level : nat) (v : json) (r : str) :
  json_ok v = true → skip_ws (encode level v ++ r) = encode level v ++ r.
Proof.
  intros Hok. destruct (encode_head level v Hok) as (c & t & -> & Hc).
  apply skip_ws_start. by apply value_start_not_ws.
Qed.

Lemma number_follow_list_tail (level level' : nat) (xs : list json) (r : str) :
  number_follow (list_tail_text level xs ++ newline_indent level' ++ r) = true.
Proof. by destruct xs. Qed.

Lemma number_follow_dict_tail (level level' : nat) (d : list (str * json))
    (r : str) :
  number_follow (dict_tail_text level d ++ newline_indent level' ++ r) = true.
Proof. by destruct d. Qed.

(** Inserting pairs with distinct keys keeps them as they are. *)
Lemma dict_set_fresh (d : list (str * json)) (k : str) (v : json) :
  k ∉ d.*1 → dict_set d k v = d ++ [(k, v)].
Proof.
  induction d as [|[k' v'] d IH]; [done|]. simpl. intros Hk.
  apply not_elem_of_cons in Hk as [Hne Hk].
  rewrite bool_decide_eq_false_2 by done. by rewrite IH.
Qed.

Lemma dict_of_pairs_NoDup (d : list (str * json)) :
  NoDup d.*1 → dict_of_pairs d = d.
Proof.
  unfold dict_of_pairs.
  assert (∀ acc, NoDup ((acc ++ d).*1) →
    foldl (λ d kv, dict_set d kv.1 kv.2) acc d = acc ++ d) as Hgen.
  { induction d as [|[k v] d IH]; intros acc Hnd; simpl.
    - by rewrite app_nil_r.
    - rewrite dict_set_fresh.
      + rewrite IH; rewrite <- app_assoc; done.
      + rewrite fmap_app in Hnd. apply NoDup_app in Hnd as (_ & Hd & _).
        intros Hin. apply (Hd k Hin). simpl. apply elem_of_cons. by left. }
  apply (Hgen []).
Qed.

(** The punctuation of the encoder as code points. *)
Ltac punct :=
  change (lit ",") with [44%N] in *; change (lit ": ") with [58%N; 32%N] in *;
  change (lit "[") with [91%N] in *; change (lit "]") with [93%N] in *;
  change (lit "{") with [123%N] in *; change (lit "}") with [125%N] in *.

Lemma Forall_forallb_impl {A} (f : A → bool) (P : A → Prop) (l : list A) :
  Forall (λ x, f x = true → P x) l → forallb f l = true → Forall P l.
Proof.
  induction 1 as [|x l Hx _ IH]; [done|]. simpl.
  intros [? ?]%andb_true_iff. constructor; auto.
Qed.

Section RoundTrip.
(** The scanner reads back a value, with enough fuel and before a harmless
    continuation. *)
Let reads_back (x : json) : Prop :=
  ∀ level fuel r,
    (need x ≤ fuel)%nat → number_follow r = true →
    scan_once fuel (encode level x ++ r) = Some (x, r).

Lemma array_items_encode (level level' : nat) (xs : list json) :
  Forall reads_back xs → forallb json_ok xs = true →
  ∀ x fuel r,
    reads_back x → json_ok x = true →
    (S (need x) + foldr (λ y acc, S (need y) + acc) 0 xs ≤ fuel)%nat →
    array_items fuel (encode level x ++ list_tail_text level xs
                      ++ newline_indent level' ++ 93 :: r)
    = Some (x :: xs, r).
Proof.
  induction 1 as [|y ys Hy _ IH]; intros Hoks x fuel r Hx Hok Hfuel.
  - destruct fuel as [|n]; [simpl in Hfuel; lia|].
    rewrite array_items_unfold. cbn [list_tail_text fmap list_fmap concat app].
    rewrite Hx; [|simpl in Hfuel; lia|done]. cbn [mbind option_bind].
    by rewrite skip_ws_newline_indent.
  - destruct fuel as [|n]; [simpl in Hfuel; lia|].
    apply andb_true_iff in Hoks as [Hoky Hoks].
    rewrite array_items_unfold.
    rewrite Hx; [|simpl in Hfuel; lia|apply number_follow_list_tail].
    cbn [mbind option_bind].
    unfold list_tail_text at 1. cbn [fmap list_fmap concat].
    fold (list_tail_text level ys). punct. rewrite <- !app_assoc.
    cbn [app skip_ws].
    change (json_ws 44) with false. cbn iota.
    change (44 =? 93) with false.
    change (44 =? 44) with true. cbn iota.
    rewrite skip_ws_newline_indent, skip_ws_encode by done.
    rewrite IH; [done|done|done|done|simpl in Hfuel |- *; lia].
Qed.

Lemma object_items_encode (level level' : nat) (d : list (str * json)) :
  Forall (λ kv, reads_back kv.2) d →
  forallb (λ kv, json_ok kv.2) d = true →
  ∀ k x fuel r,
    reads_back x → json_ok x = true →
    (S (need x) + foldr (λ kv acc, S (need kv.2) + acc) 0 d ≤ fuel)%nat →
    object_items fuel (concat (escape_char <$> k) ++ QUOTE :: lit ": "
                       ++ encode level x ++ dict_tail_text level d
                       ++ newline_indent level' ++ 125 :: r)
    = Some ((k, x) :: d, r).
Proof.
  induction 1 as [|[k' y] d Hy _ IH]; intros Hoks k x fuel r Hx Hok Hfuel.
  - destruct fuel as [|n]; [simpl in Hfuel; lia|].
    rewrite object_items_unfold, scanstring_escaped. cbn [mbind option_bind].
    punct.
    cbn [app skip_ws].
    change (json_ws 58) with false. cbn iota.
    change (58 =? 58) with true. cbn iota.
    cbn [skip_ws]. change (json_ws 32) with true. cbn iota.
    rewrite skip_ws_encode by done.
    cbn [dict_tail_text fmap list_fmap concat app].
    rewrite Hx; [|simpl in Hfuel; lia|done]. cbn [mbind option_bind].
    by rewrite skip_ws_newline_indent.
  - destruct fuel as [|n]; [simpl in Hfuel; lia|].
    apply andb_true_iff in Hoks as [Hoky Hoks]. simpl in Hy, Hoky.
    rewrite object_items_unfold, scanstring_escaped. cbn [mbind option_bind].
    punct.
    cbn [app skip_ws].
    change (json_ws 58) with false. cbn iota.
    change (58 =? 58) with true. cbn iota.
    cbn [skip_ws]. change (json_ws 32) with true. cbn iota.
    rewrite skip_ws_encode by done.
    rewrite Hx; [|simpl in Hfuel; lia|apply number_follow_dict_tail].
    cbn [mbind option_bind].
    unfold dict_tail_text at 1. cbn [fmap list_fmap concat fst snd].
    fold (dict_tail_text level d). punct. rewrite <- !app_assoc.
    rewrite encode_basestring_app.
    cbn [app skip_ws].
    change (json_ws 44) with false. cbn iota.
    change (44 =? 125) with false.
    change (44 =? 44) with true. cbn iota.
    rewrite skip_ws_newline_indent. cbn [skip_ws].
    change (json_ws QUOTE) with false. cbn iota.
    change (QUOTE =? QUOTE) with true. cbn iota.
    cbn [app] in IH.
    rewrite IH; [done|done|done|done|simpl in Hfuel |- *; lia].
Qed.

Lemma scan_once_encode (v : json) : json_ok v = true → reads_back v.
Proof.
  induction v as [ |b|z|l|s|l IH|d IH] using json_ind;
    intros Hok level fuel r Hfuel Hr;
    (destruct fuel as [|n]; [simpl in Hfuel; lia|]).
  - done.
  - by destruct b.
  - cbn [encode]. destruct (int_repr_head z) as (c & t & Hz & _ & ? & ? & ?).
    pose proof (match_number_int_repr z) as Hm. rewrite Hz in *. cbn [app].
    rewrite scan_once_atom by done. change (c :: t ++ r) with ((c :: t) ++ r).
    by rewrite (scan_atom_match_number _ r [] (JInt z) Hr Hm).
  - cbn [encode]. simpl in Hok.
    destruct (is_float_literal_head l Hok) as (c & t & -> & _ & ? & ? & ?).
    cbn [app]. rewrite scan_once_atom by done.
    change (c :: t ++ r) with ((c :: t) ++ r). by apply scan_atom_float.
  - cbn [encode]. rewrite encode_basestring_app, scan_once_quote.
    by rewrite scanstring_escaped.
  - destruct l as [|x xs]; [done|]. simpl in Hok.
    apply andb_true_iff in Hok as [Hokx Hoks].
    apply Forall_cons in IH as [IHx IHs].
    apply (Forall_forallb_impl _ _ _ IHs) in Hoks as IHs'.
    rewrite encode_list_cons. punct. rewrite <- !app_assoc.
    cbn [app].
    rewrite scan_once_array, skip_ws_newline_indent.
    destruct (encode_head (S level) x Hokx) as (c & t & Hx & Hc).
    rewrite skip_ws_encode by done. rewrite Hx. cbn [app].
    replace (c =? 93) with false by (symmetry; unfold value_start, is_digit in Hc; chars).
    change (c :: t ++ ?rest) with ((c :: t) ++ rest). rewrite <- Hx.
    rewrite (array_items_encode (S level) level xs IHs' Hoks x n r);
      [done|by apply IHx|done|cbn [need foldr] in Hfuel; lia].
  - destruct d as [|[k x] d]; [done|]. simpl in Hok.
    apply andb_true_iff in Hok as [Hnd Hok].
    apply bool_decide_eq_true in Hnd.
    apply andb_true_iff in Hok as [Hokx Hoks].
    apply Forall_cons in IH as [IHx IHs]. simpl in IHx.
    apply (Forall_forallb_impl (λ kv, json_ok kv.2) (λ kv, reads_back kv.2)
             _ IHs) in Hoks as IHs'.
    rewrite encode_dict_cons. punct. rewrite <- !app_assoc.
    rewrite encode_basestring_app.
    cbn [app].
    rewrite scan_once_object, skip_ws_newline_indent. cbn [skip_ws].
    change (json_ws QUOTE) with false. cbn iota.
    change (QUOTE =? 125) with false. change (QUOTE =? QUOTE) with true.
    cbn iota.
    pose proof (object_items_encode (S level) level d IHs' Hoks k x n r) as Ho.
    punct.
    cbn [app] in Ho.
    rewrite Ho; [|by apply IHx|done|cbn [need foldr snd] in Hfuel; lia].
    cbn [mbind option_bind]. by rewrite dict_of_pairs_NoDup.
Qed.
End RoundTrip.

Local Close Scope N_scope.

(** The fuel of [json_loads] covers every value the encoder can write. *)
Lemma need_le_length (v : json) :
  json_ok v = true → ∀ level, (need v ≤ length (encode level v))%nat.
Proof.
  induction v as [ |b|z|l|s|l IH|d IH] using json_ind; intros Hok level.
  - simpl. lia.
  - destruct b; simpl; lia.
  - cbn [encode need]. destruct (int_repr_head z) as (c & t & -> & _).
    simpl. lia.
  - cbn [encode need]. simpl in Hok.
    destruct (is_float_literal_head l Hok) as (c & t & -> & _). simpl. lia.
  - cbn [encode need]. unfold encode_basestring. simpl. lia.
  - destruct l as [|x xs]; [simpl; lia|]. simpl in Hok.
    apply andb_true_iff in Hok as [Hokx Hoks].
    apply Forall_cons in IH as [IHx IHs].
    apply (Forall_forallb_impl _ _ _ IHs) in Hoks as IHs'.
    rewrite encode_list_cons. cbn [need foldr].
    rewrite !length_app. specialize (IHx Hokx (S level)).
    assert (foldr (λ y acc, S (need y) + acc) 0 xs
            ≤ length (list_tail_text (S level) xs))%nat;
      [|punct; unfold newline_indent; cbn [length]; lia].
    clear -IHs'. unfold list_tail_text.
    induction IHs' as [|y ys Hy _ IH]; [simpl; lia|].
    cbn [foldr fmap list_fmap concat]. rewrite !length_app.
    specialize (Hy (S level)). punct. unfold newline_indent in *.
    cbn [length] in *. lia.
  - destruct d as [|[k x] d]; [simpl; lia|]. simpl in Hok.
    apply andb_true_iff in Hok as [_ Hok].
    apply andb_true_iff in Hok as [Hokx Hoks].
    apply Forall_cons in IH as [IHx IHs]. simpl in IHx.
    apply (Forall_forallb_impl (λ kv, json_ok kv.2)
             (λ kv, ∀ level, (need kv.2 ≤ length (encode level kv.2))%nat)
             _ IHs) in Hoks as IHs'.
    rewrite encode_dict_cons. cbn [need foldr snd].
    rewrite !length_app. specialize (IHx Hokx (S level)).
    assert (foldr (λ kv acc, S (need kv.2) + acc) 0 d
            ≤ length (dict_tail_text (S level) d))%nat;
      [|punct; unfold newline_indent; cbn [length]; lia].
    clear -IHs'. unfold dict_tail_text.
    induction IHs' as [|y ys Hy _ IH]; [simpl; lia|].
    cbn [foldr fmap list_fmap concat]. rewrite !length_app.
    specialize (Hy (S level)). punct. unfold newline_indent in *.
    cbn [length] in *. lia.
Qed.

(** [json.loads(json.dumps(v, indent=2, ensure_ascii=False)) == v]. *)
Lemma json_loads_dumps (v : json) :
  json_ok v = true → json_loads (json_dumps v) = Some v.
Proof.
  intros Hok. unfold json_loads, json_dumps.
  pose proof (need_le_length v Hok 0).
  destruct (encode_head 0 v Hok) as (c & t & Hv & Hc).
  replace (startswith (encode 0 v) [65279%N]) with false.
  2:{ rewrite Hv. simpl. unfold value_start, is_digit in Hc.
      destruct (N.eqb_spec c 65279) as [->|]; done. }
  rewrite <- (app_nil_r (encode 0 v)) at 2. rewrite skip_ws_encode by done.
  rewrite scan_once_encode; [done|done|lia|done].
Qed.

(** ** The checkpoint store *)

(** Loading a file that holds the dump of a collection. *)
Lemma load_dumped (X : list json) :
  forallb json_ok X = true →
  load_existing_incidents (Text (json_dumps (JList X))) = JList X.
Proof.
  intros HX. unfold load_existing_incidents. by rewrite json_loads_dumps.
Qed.





(** ** The response parser *)


(** No field is checked: numbers, nulls and objects with other keys pass. *)
Example parse_response_any_shape :
  parse_response (lit "[1, null, {}, [true]]")
  = inr [JInt 1; JNull; JDict []; JList [JBool true]].
Proof. vm_compute. reflexivity. Qed.

(** The decoder on texts at the edge of the grammar: a trailing comma, a
    leading zero, a missing comma, text after the value and an exponent
    without digits are refused; a repeated key keeps its first place and
    its last value; a surrogate pair of escapes is one code point, a lone
    one is kept; a raw control character in a string is refused. *)
Example json_loads_samples :
  json_loads (lit "[1,]") = None
  ∧ json_loads (lit "01") = None
  ∧ json_loads (lit "[1 2]") = None
  ∧ json_loads (lit "nullx") = None
  ∧ json_loads (lit " [-0, 1.5e3, 2e, NaN] ") = None
  ∧ json_loads (lit " [-0, 1.5e3, NaN] ")
    = Some (JList [JInt 0; JFloat (lit "1.5e3"); JFloat (lit "NaN")])
  ∧ json_loads (lit "{" ++ encode_basestring (lit "a") ++ lit ": 1, "
                ++ encode_basestring (lit "b") ++ lit ": [], "
                ++ encode_basestring (lit "a") ++ lit ": 2}")
    = Some (JDict [(lit "a", JInt 2); (lit "b", JList [])])
  ∧ json_loads ([QUOTE] ++ lit "\ud83d\ude00\n" ++ [QUOTE])
    = Some (JStr [0x1F600; 10]%N)
  ∧ json_loads ([QUOTE] ++ lit "\ud83d" ++ [QUOTE]) = Some (JStr [0xD83D]%N)
  ∧ json_loads [QUOTE; 9%N; QUOTE] = None.
Proof. repeat split; vm_compute; reflexivity. Qed.

(** ** Lines of a JSON text *)

Local Open Scope N_scope.

Lemma no_tick_line_weaken (s : str) :
  no_tick_line true s = true → no_tick_line false s = true.
Proof. destruct s as [|c s]; [done|]. simpl. by intros [_ ?]%andb_true_iff. Qed.

Lemma no_tick_line_any (b : bool) (s : str) :
  no_tick_line true s = true → no_tick_line b s = true.
Proof. destruct b; [done|apply no_tick_line_weaken]. Qed.

(** A character that is not a line feed continues the line. *)
Lemma no_tick_mid_cons (c : N) (s : str) :
  c ≠ NL → no_tick_line false s = true → no_tick_line false (c :: s) = true.
Proof. intros Hc Hs. simpl. by destruct (N.eqb_spec c NL). Qed.

Lemma no_tick_mid_app (p s : str) :
  Forall (λ c, c ≠ NL) p →
  no_tick_line false s = true → no_tick_line false (p ++ s) = true.
Proof.
  induction 1 as [|c p Hc _ IH]; [done|]. intros Hs.
  apply no_tick_mid_cons; auto.
Qed.

Lemma no_tick_bol_cons (c : N) (s : str) :
  c ≠ BACKTICK → no_tick_line true s = true →
  no_tick_line true (c :: s) = true.
Proof.
  intros Hc Hs. simpl. destruct (N.eqb_spec c BACKTICK); [done|]. simpl.
  by apply no_tick_line_any.
Qed.

Lemma no_tick_bol_of_mid (c : N) (s : str) :
  c ≠ BACKTICK → no_tick_line false (c :: s) = true →
  no_tick_line true (c :: s) = true.
Proof. intros Hc. simpl. by destruct (N.eqb_spec c BACKTICK). Qed.

Lemma no_tick_token (c : N) (s : str) :
  c ≠ BACKTICK → c ≠ NL → no_tick_line false s = true →
  no_tick_line true (c :: s) = true.
Proof.
  intros H1 H2 Hs. by apply no_tick_bol_of_mid, no_tick_mid_cons.
Qed.

Lemma json_ws_not_tick (c : N) : json_ws c = true → c ≠ BACKTICK.
Proof. unfold json_ws, BACKTICK. intros H. chars. Qed.

Lemma no_tick_skip_ws (s : str) :
  no_tick_line true (skip_ws s) = true → no_tick_line true s = true.
Proof.
  induction s as [|c s IH]; [done|]. cbn [skip_ws].
  destruct (json_ws c) eqn:Hc; [|done]. intros H.
  apply no_tick_bol_cons; [by apply json_ws_not_tick|auto].
Qed.

(** *** What each scanner consumes *)

Lemma hex_value_not_nl (c v : N) : hex_value c = Some v → c ≠ NL.
Proof.
  unfold hex_value, NL, is_digit. intros H ->. by vm_compute in H.
Qed.

Lemma hex4_not_nl (a b c d v : N) :
  hex4 a b c d = Some v → a ≠ NL ∧ b ≠ NL ∧ c ≠ NL ∧ d ≠ NL.
Proof.
  unfold hex4. intros H.
  destruct (hex_value a) eqn:Ha; [|done]. destruct (hex_value b) eqn:Hb; [|done].
  destruct (hex_value c) eqn:Hc; [|done]. destruct (hex_value d) eqn:Hd; [|done].
  split_and!; by eapply hex_value_not_nl.
Qed.

Lemma unescape_not_nl (e ch : N) : unescape e = Some ch → e ≠ NL.
Proof. intros H ->. by vm_compute in H. Qed.

(** A string body holds no raw line feed. *)
Lemma scanstring_no_tick (n : nat) :
  ∀ s k r,
    (length s ≤ n)%nat →
    scanstring s = Some (k, r) →
    no_tick_line false r = true → no_tick_line false s = true.
Proof.
  induction n as [|n IH]; intros s k r Hlen.
  { destruct s; [done|simpl in Hlen; lia]. }
  destruct s as [|c s1]; [done|]. cbn [scanstring]. simpl in Hlen.
  assert (Hrec : ∀ s' (t : str → str),
    (length s' ≤ n)%nat →
    ('(t0, r0) ← scanstring s'; Some (t t0, r0)) = Some (k, r) →
    no_tick_line false r = true → no_tick_line false s' = true).
  { intros s' t Hl H. destruct (scanstring s') as [[t0 r0]|] eqn:Hs; [|done].
    injection H as _ <-. by eapply IH. }
  destruct (N.eqb_spec c QUOTE) as [->|Hq].
  { intros [= _ <-] Hr. by apply no_tick_mid_cons. }
  destruct (N.eqb_spec c BACKSLASH) as [->|Hb].
  - destruct s1 as [|e s2]; [done|]. simpl in Hlen.
    destruct (N.eqb_spec e 117) as [->|He].
    + destruct s2 as [|h1 [|h2 [|h3 [|h4 s3]]]]; try done. simpl in Hlen.
      destruct (hex4 h1 h2 h3 h4) as [uni|] eqn:Hh; [|done].
      apply hex4_not_nl in Hh as (?&?&?&?).
      assert (Hsingle :
        ('(t, r0) ← scanstring s3; Some (uni :: t, r0)) = Some (k, r) →
        no_tick_line false r = true →
        no_tick_line false (BACKSLASH :: 117 :: h1 :: h2 :: h3 :: h4 :: s3)
        = true).
      { intros Hs Hr. repeat (apply no_tick_mid_cons; [done|]).
        eapply (Hrec s3 (cons uni)); [lia|done|done]. }
      destruct (is_high_surrogate uni); [|done].
      destruct s3 as [|b [|u [|g1 [|g2 [|g3 [|g4 s4]]]]]]; try done.
      simpl in Hlen.
      destruct (N.eqb_spec b BACKSLASH) as [->|]; [|done].
      destruct (N.eqb_spec u 117) as [->|]; [|done]. cbn [andb].
      destruct (hex4 g1 g2 g3 g4) as [uni2|] eqn:Hg; [|done].
      apply hex4_not_nl in Hg as (?&?&?&?).
      destruct (is_low_surrogate uni2); [|done].
      intros Hs Hr. repeat (apply no_tick_mid_cons; [done|]).
      eapply (Hrec s4 (cons (join_surrogates uni uni2))); [lia|done|done].
    + destruct (unescape e) as [ch|] eqn:Hu; [|done].
      apply unescape_not_nl in Hu. intros Hs Hr.
      repeat (apply no_tick_mid_cons; [done|]).
      eapply (Hrec s2 (cons ch)); [lia|done|done].
  - destruct (N.ltb_spec c 32) as [|Hge]; [done|]. intros Hs Hr.
    apply no_tick_mid_cons; [unfold NL; lia|].
    eapply (Hrec s1 (cons c)); [lia|done|done].
Qed.

Lemma is_digit_not_nl (c : N) : is_digit c = true → c ≠ NL.
Proof. unfold is_digit, NL. intros H. chars. Qed.

Lemma span_digits_consumed (s ds r : str) :
  span_digits s = (ds, r) → s = ds ++ r ∧ Forall (λ c, c ≠ NL) ds.
Proof.
  revert ds r. induction s as [|c s IH]; intros ds r; simpl.
  - by intros [= <- <-].
  - destruct (is_digit c) eqn:Hc; [|by intros [= <- <-]].
    destruct (span_digits s) as [ds' r']. intros [= <- <-].
    destruct (IH ds' r' eq_refl) as [-> ?]. split; [done|].
    constructor; [by apply is_digit_not_nl|done].
Qed.

Lemma scan_int_consumed (s ds r : str) :
  scan_int s = Some (ds, r) →
  s = ds ++ r ∧ ds ≠ [] ∧ Forall (λ c, c ≠ NL) ds.
Proof.
  destruct s as [|d t]; [done|]. cbn [scan_int].
  destruct (is_digit d) eqn:Hd; [|done].
  destruct (d =? 48).
  - intros [= <- <-]. split_and!; [done|done|]. constructor; [|done].
    by apply is_digit_not_nl.
  - intros H0. assert (H : span_digits (d :: t) = (ds, r)) by congruence.
    pose proof H as [Heq Hnl]%span_digits_consumed.
    split_and!; [done| |done]. intros ->. simpl in H. rewrite Hd in H.
    by destruct (span_digits t).
Qed.

Lemma scan_frac_consumed (s f r : str) :
  scan_frac s = (f, r) → s = f ++ r ∧ Forall (λ c, c ≠ NL) f.
Proof.
  destruct s as [|c t]; [by intros [= <- <-]|]. cbn [scan_frac].
  destruct (N.eqb_spec c 46) as [->|]; [|by intros [= <- <-]].
  destruct (span_digits t) as [fd r'] eqn:Hs.
  apply span_digits_consumed in Hs as [-> Hfd].
  destruct fd; intros [= <- <-]; [done|]. split; [done|].
  constructor; [done|done].
Qed.

Lemma scan_exp_consumed (s e r : str) :
  scan_exp s = (e, r) → s = e ++ r ∧ Forall (λ c, c ≠ NL) e.
Proof.
  destruct s as [|c x]; [by intros [= <- <-]|]. cbn [scan_exp].
  destruct ((c =? 101) || (c =? 69)) eqn:Hc; [|by intros [= <- <-]].
  assert (c ≠ NL) by (unfold NL; chars).
  destruct x as [|c' x'].
  - simpl. by intros [= <- <-].
  - destruct ((c' =? 43) || (c' =? 45)) eqn:Hc'.
    + assert (c' ≠ NL) by (unfold NL; chars).
      destruct (span_digits x') as [ed r'] eqn:Hs.
      apply span_digits_consumed in Hs as [-> Hed].
      destruct ed; intros [= <- <-]; [done|]. split; [done|].
      do 2 (constructor; [done|]). done.
    + destruct (span_digits (c' :: x')) as [ed r'] eqn:Hs.
      apply span_digits_consumed in Hs as [Heq Hed].
      destruct ed; intros [= <- <-]; [done|]. split; [by rewrite Heq|].
      constructor; done.
Qed.

Lemma match_number_consumed (s r : str) (v : json) :
  match_number s = Some (v, r) →
  ∃ p, s = p ++ r ∧ p ≠ [] ∧ Forall (λ c, c ≠ NL) p.
Proof.
  unfold match_number.
  assert (Hgen : ∀ neg s0,
    ('(int_ds, r0) ← scan_int s0;
     let '(frac, r1) := scan_frac r0 in
     let '(exp, r2) := scan_exp r1 in
     match frac, exp with
     | [], [] => Some (JInt (py_int neg int_ds), r2)
     | _, _ => Some (JFloat ((if neg then [45] else []) ++ int_ds ++ frac ++ exp), r2)
     end) = Some (v, r) →
    ∃ p, s0 = p ++ r ∧ p ≠ [] ∧ Forall (λ c, c ≠ NL) p).
  { intros neg s0. destruct (scan_int s0) as [[int_ds r0]|] eqn:Hi; [|done].
    simpl. destruct (scan_frac r0) as [frac r1] eqn:Hf.
    destruct (scan_exp r1) as [exp r2] eqn:He.
    apply scan_int_consumed in Hi as (-> & Hne & Hi).
    apply scan_frac_consumed in Hf as [-> Hf].
    apply scan_exp_consumed in He as [-> He].
    intros Hres. assert (r = r2) as -> by (destruct frac, exp; congruence).
    exists (int_ds ++ frac ++ exp). rewrite <- !app_assoc.
    split_and!; [done|by destruct int_ds|by rewrite !Forall_app]. }
  destruct s as [|c t]; [done|].
  destruct (N.eqb_spec c 45) as [->|]; [|apply Hgen].
  intros (p & -> & _ & Hp)%Hgen. exists (45 :: p). split_and!; [done|done|].
  constructor; [done|done].
Qed.

Lemma strip_prefix_consumed (p s r : str) :
  strip_prefix p s = Some r → s = p ++ r.
Proof.
  revert s. induction p as [|a p IH]; intros s; simpl; [by intros [= ->]|].
  destruct s as [|c s]; [done|]. destruct (N.eqb_spec c a) as [->|]; [|done].
  intros ->%IH. done.
Qed.

Lemma Forall_not_nl (l : str) :
  forallb (λ c, negb (c =? NL)) l = true → Forall (λ c, c ≠ NL) l.
Proof.
  induction l as [|c l IH]; simpl; [done|].
  intros [Hc Hl]%andb_true_iff. constructor; [|auto].
  by apply N.eqb_neq, negb_true_iff.
Qed.

Lemma scan_atom_consumed (s r : str) (v : json) :
  scan_atom s = Some (v, r) →
  ∃ c p, s = c :: p ++ r ∧ value_start c = true ∧ c ≠ NL
         ∧ Forall (λ c, c ≠ NL) p.
Proof.
  unfold scan_atom.
  assert (Hlit : ∀ c name,
    value_start c = true → Forall (λ c, c ≠ NL) (c :: name) →
    ∀ r', strip_prefix (c :: name) s = Some r' →
    ∃ c p, s = c :: p ++ r' ∧ value_start c = true ∧ c ≠ NL
           ∧ Forall (λ c, c ≠ NL) p).
  { intros c name Hstart [? ?]%Forall_cons r' ->%strip_prefix_consumed.
    by exists c, name. }
  destruct (strip_prefix (lit "null") s) as [r'|] eqn:H1.
  { intros [= <- <-]. eapply (Hlit _ _ _ _ _ H1). }
  destruct (strip_prefix (lit "true") s) as [r'|] eqn:H2.
  { intros [= <- <-]. eapply (Hlit _ _ _ _ _ H2). }
  destruct (strip_prefix (lit "false") s) as [r'|] eqn:H3.
  { intros [= <- <-]. eapply (Hlit _ _ _ _ _ H3). }
  destruct (match_number s) as [[v' r']|] eqn:H4.
  { intros [= <- <-].
    destruct (match_number_head s r' v' H4) as (c & t & -> & Hc).
    destruct (match_number_consumed _ _ _ H4) as (p & Hp & Hne & Hnl).
    destruct p as [|c' p]; [done|]. injection Hp as <- ->.
    apply Forall_cons in Hnl as [? ?].
    exists c, p. split_and!; try done.
    unfold value_start, is_digit in *. chars. }
  destruct (strip_prefix (lit "NaN") s) as [r'|] eqn:H5.
  { intros [= <- <-]. eapply (Hlit _ _ _ _ _ H5). }
  destruct (strip_prefix (lit "Infinity") s) as [r'|] eqn:H6.
  { intros [= <- <-]. eapply (Hlit _ _ _ _ _ H6). }
  destruct (strip_prefix (lit "-Infinity") s) as [r'|] eqn:H7; [|done].
  intros [= <- <-]. eapply (Hlit _ _ _ _ _ H7).
  Unshelve.
  all: try reflexivity; apply Forall_not_nl; vm_compute; reflexivity.
Qed.

Local Close Scope N_scope.

Local Open Scope N_scope.

(** A value starts a line harmlessly and does not end in a line feed. *)
Lemma scan_no_tick (fuel : nat) :
  (∀ s v r, scan_once fuel s = Some (v, r) →
            no_tick_line false r = true → no_tick_line true s = true)
  ∧ (∀ s vs r, array_items fuel s = Some (vs, r) →
               no_tick_line false r = true → no_tick_line true s = true)
  ∧ (∀ s ps r, object_items fuel s = Some (ps, r) →
               no_tick_line false r = true → no_tick_line false s = true).
Proof.
  assert (Hclose : ∀ c r,
    negb (c =? BACKTICK) && negb (c =? NL) = true →
    ∀ s, skip_ws s = c :: r →
    no_tick_line false r = true → no_tick_line true s = true).
  { intros c r [?%negb_true_iff%N.eqb_neq ?%negb_true_iff%N.eqb_neq]%andb_true_iff
      s Hs Hr.
    apply no_tick_skip_ws. rewrite Hs. by apply no_tick_token. }
  induction fuel as [|n (IHv & IHa & IHo)]; [by split_and!|].
  split_and!.
  - intros [|c t] v r; [done|]. cbn [scan_once].
    destruct (N.eqb_spec c QUOTE) as [->|].
    { destruct (scanstring t) as [[k r']|] eqn:Hs; [|done]. intros [= _ <-] Hr.
      apply no_tick_token; [done|done|].
      by eapply (scanstring_no_tick (length t)). }
    destruct (N.eqb_spec c 123) as [->|].
    { destruct (skip_ws t) as [|c1 r0] eqn:Ht; [done|].
      destruct (N.eqb_spec c1 125) as [->|].
      { intros [= _ <-] Hr. apply no_tick_bol_cons; [done|].
        eapply Hclose; [|done|done]; reflexivity. }
      destruct (N.eqb_spec c1 QUOTE) as [->|]; [|done].
      destruct (object_items n r0) as [[pairs r']|] eqn:Ho; [|done].
      intros [= _ <-] Hr. apply no_tick_bol_cons; [done|].
      eapply Hclose; [|done|by eapply IHo]; reflexivity. }
    destruct (N.eqb_spec c 91) as [->|].
    { destruct (skip_ws t) as [|c1 r0] eqn:Ht; [done|].
      destruct (N.eqb_spec c1 93) as [->|].
      { intros [= _ <-] Hr. apply no_tick_bol_cons; [done|].
        eapply Hclose; [|done|done]; reflexivity. }
      destruct (array_items n (c1 :: r0)) as [[vs r']|] eqn:Ha; [|done].
      intros [= _ <-] Hr. apply no_tick_bol_cons; [done|].
      apply no_tick_skip_ws. rewrite Ht. by eapply IHa. }
    intros (c' & p & [= -> ->] & Hc & Hnl & Hp)%scan_atom_consumed Hr.
    apply no_tick_token; [by apply value_start_not_tick|done|].
    by apply no_tick_mid_app.
  - intros s vs r. cbn [array_items].
    destruct (scan_once n s) as [[v r1]|] eqn:Hv; [|done]. cbn [mbind option_bind].
    destruct (skip_ws r1) as [|c r'] eqn:Hr1; [done|].
    destruct (N.eqb_spec c 93) as [->|].
    { intros [= _ <-] Hr. eapply IHv; [done|].
      apply no_tick_line_weaken. eapply Hclose; [|done|done]; reflexivity. }
    destruct (N.eqb_spec c 44) as [->|]; [|done].
    destruct (array_items n (skip_ws r')) as [[vs' r'']|] eqn:Ha; [|done].
    intros [= _ <-] Hr. eapply IHv; [done|].
    apply no_tick_line_weaken, no_tick_skip_ws. rewrite Hr1.
    apply no_tick_bol_cons; [done|]. apply no_tick_skip_ws. by eapply IHa.
  - intros s ps r. cbn [object_items].
    destruct (scanstring s) as [[key r0]|] eqn:Hk; [|done].
    cbn [mbind option_bind].
    destruct (skip_ws r0) as [|c r1] eqn:Hr0; [done|].
    destruct (N.eqb_spec c 58) as [->|]; [|done].
    destruct (scan_once n (skip_ws r1)) as [[v r2]|] eqn:Hv; [|done].
    cbn [mbind option_bind].
    destruct (skip_ws r2) as [|c2 r3] eqn:Hr2; [done|].
    assert (Hback : no_tick_line true r2 = true →
                    no_tick_line false s = true).
    { intros H2. eapply (scanstring_no_tick (length s)); [done|done|].
      apply no_tick_line_weaken, no_tick_skip_ws. rewrite Hr0.
      apply no_tick_bol_cons; [done|]. apply no_tick_skip_ws.
      eapply IHv; [done|]. by apply no_tick_line_weaken. }
    destruct (N.eqb_spec c2 125) as [->|].
    { intros [= _ <-] Hr. apply Hback. eapply Hclose; [|done|done]; reflexivity. }
    destruct (N.eqb_spec c2 44) as [->|]; [|done].
    destruct (skip_ws r3) as [|c3 r4] eqn:Hr3; [done|].
    destruct (N.eqb_spec c3 QUOTE) as [->|]; [|done].
    destruct (object_items n r4) as [[pairs r5]|] eqn:Ho; [|done].
    intros [= _ <-] Hr. apply Hback. apply no_tick_skip_ws. rewrite Hr2.
    apply no_tick_bol_cons; [done|].
    eapply Hclose; [|done|by eapply IHo]; reflexivity.
Qed.

Lemma scan_once_start (fuel : nat) (c : N) (t r : str) (v : json) :
  scan_once fuel (c :: t) = Some (v, r) → value_start c = true.
Proof.
  destruct fuel as [|n]; [done|]. cbn [scan_once].
  destruct (N.eqb_spec c QUOTE) as [->|]; [done|].
  destruct (N.eqb_spec c 123) as [->|]; [done|].
  destruct (N.eqb_spec c 91) as [->|]; [done|].
  by intros (c' & p & [= -> ->] & Hc & _)%scan_atom_consumed.
Qed.

(** In a text that [json.loads] accepts no line begins with a backtick, and
    the first character after the leading whitespace starts a value. *)
Lemma json_loads_no_tick (J : str) (v : json) :
  json_loads J = Some v →
  no_tick_line true J = true
  ∧ ∃ c t, skip_ws J = c :: t ∧ value_start c = true.
Proof.
  unfold json_loads. destruct (startswith J [65279]); [done|].
  destruct (scan_once _ (skip_ws J)) as [[v' r]|] eqn:Hs; [|done].
  destruct (skip_ws r) as [|? ?] eqn:Hr; [|done]. intros _. split.
  - apply no_tick_skip_ws.
    eapply (proj1 (scan_no_tick _)); [done|].
    apply no_tick_line_weaken, no_tick_skip_ws. by rewrite Hr.
  - destruct (skip_ws J) as [|c t]; [by destruct (2 * length J + 2)%nat|].
    exists c, t. split; [done|]. by eapply scan_once_start.
Qed.

(** ** Splitting, joining and trimming *)

Lemma split_app_sep (sep : N) (a b : str) :
  split sep (a ++ sep :: b)
  = match split sep a with
    | [] => split sep b
    | _ => split sep a ++ split sep b
    end.
Proof.
  induction a as [|c a IH]; simpl.
  - by rewrite N.eqb_refl.
  - destruct (c =? sep); [by rewrite IH; destruct (split sep a)|].
    rewrite IH. destruct (split sep a) as [|l ls] eqn:Ha; [|done].
    by destruct a; simpl in Ha; [|destruct (_ =? _), (split sep _)].
Qed.

Lemma split_nonempty (sep : N) (s : str) : split sep s ≠ [].
Proof.
  destruct s as [|c s]; simpl; [done|].
  destruct (c =? sep); [done|]. by destruct (split sep s).
Qed.

Lemma split_app (sep : N) (a b : str) :
  split sep (a ++ sep :: b) = split sep a ++ split sep b.
Proof.
  rewrite split_app_sep. pose proof (split_nonempty sep a).
  by destruct (split sep a).
Qed.

Lemma split_no_sep (sep : N) (a : str) : sep ∉ a → split sep a = [a].
Proof.
  induction a as [|c a IH]; [done|]. intros [Hc Ha]%not_elem_of_cons.
  simpl. destruct (N.eqb_spec c sep); [done|]. by rewrite IH.
Qed.

Lemma join_split (sep : N) (s : str) : join [sep] (split sep s) = s.
Proof.
  induction s as [|c s IH]; [done|]. simpl.
  destruct (N.eqb_spec c sep) as [->|].
  - pose proof (split_nonempty sep s).
    destruct (split sep s) as [|l ls] eqn:Hs; [done|]. simpl in *.
    by rewrite IH.
  - pose proof (split_nonempty sep s).
    destruct (split sep s) as [|l ls] eqn:Hs; [done|].
    destruct ls; simpl in *; by rewrite <- IH.
Qed.

(** The lines of a text in which no line begins with a backtick. *)
Lemma no_tick_lines (s : str) (bol : bool) :
  no_tick_line bol s = true →
  match split NL s with
  | [] => False
  | l :: ls =>
      (bol = true → startswith l FENCE = false)
      ∧ Forall (λ l, startswith l FENCE = false) ls
  end.
Proof.
  revert bol. induction s as [|c s IH]; intros bol; simpl; [done|].
  intros [Hc Hs]%andb_true_iff. specialize (IH _ Hs).
  destruct (N.eqb_spec c NL) as [->|Hne].
  - destruct (split NL s) as [|l ls]; [done|]. destruct IH as [Hl Hls].
    split; [done|]. constructor; auto.
  - destruct (split NL s) as [|l ls]; [done|]. destruct IH as [_ Hls].
    split; [|done]. intros ->. simpl in *.
    destruct (N.eqb_spec c BACKTICK); [done|done].
Qed.

Lemma filter_keeps (f : str → bool) (ls : list str) :
  Forall (λ l, f l = true) ls → List.filter f ls = ls.
Proof. induction 1 as [|l ls Hl _ IH]; simpl; [done|]. by rewrite Hl, IH. Qed.

Lemma lstrip_spaces (ws s : str) :
  Forall (λ c, py_isspace c = true) ws → lstrip (ws ++ s) = lstrip s.
Proof. induction 1 as [|c ws Hc _ IH]; [done|]. simpl. by rewrite Hc. Qed.

Lemma lstrip_start (c : N) (s : str) :
  py_isspace c = false → lstrip (c :: s) = c :: s.
Proof. intros H. simpl. by rewrite H. Qed.

Lemma lstrip_snoc (u : str) (c : N) :
  py_isspace c = false → lstrip (u ++ [c]) = lstrip u ++ [c].
Proof.
  intros Hc. induction u as [|a u IH]; simpl; [by rewrite Hc|].
  by destruct (py_isspace a).
Qed.

Lemma rstrip_spaces (s ws : str) :
  Forall (λ c, py_isspace c = true) ws → rstrip (s ++ ws) = rstrip s.
Proof.
  intros Hws. unfold rstrip. rewrite reverse_app, lstrip_spaces; [done|].
  by apply Forall_reverse.
Qed.

Lemma rstrip_end (s : str) (c : N) :
  py_isspace c = false → rstrip (s ++ [c]) = s ++ [c].
Proof.
  intros Hc. unfold rstrip. rewrite reverse_snoc.
  rewrite lstrip_start by done. by rewrite reverse_cons, reverse_involutive.
Qed.

(** Trimming never removes a first character that is not whitespace. *)
Lemma rstrip_head (c : N) (t : str) :
  py_isspace c = false → ∃ t', rstrip (c :: t) = c :: t'.
Proof.
  intros Hc. unfold rstrip. rewrite reverse_cons, lstrip_snoc by done.
  rewrite reverse_snoc. eauto.
Qed.

Lemma lstrip_skip_ws (s : str) (c : N) (t : str) :
  skip_ws s = c :: t → py_isspace c = false → lstrip s = c :: t.
Proof.
  intros Hs Hc. induction s as [|a s IH]; [done|]. simpl in *.
  destruct (json_ws a) eqn:Ha.
  - replace (py_isspace a) with true; [auto|].
    symmetry. unfold json_ws, py_isspace in *. chars.
  - injection Hs as -> ->. by rewrite Hc.
Qed.

Local Close Scope N_scope.

(** ** Number literals on their own *)

Local Open Scope N_scope.

Lemma span_digits_digits (s ds r : str) :
  span_digits s = (ds, r) →
  Forall (λ c, is_digit c = true) ds
  ∧ match r with [] => True | c :: _ => is_digit c = false end.
Proof.
  revert ds r. induction s as [|c s IH]; intros ds r; simpl.
  - by intros [= <- <-].
  - destruct (is_digit c) eqn:Hc; [|by intros [= <- <-]].
    destruct (span_digits s) as [ds' r']. intros [= <- <-].
    destruct (IH ds' r' eq_refl) as [? ?]. split; [by constructor|done].
Qed.

Lemma span_digits_exact (ds r : str) :
  Forall (λ c, is_digit c = true) ds →
  match r with [] => True | c :: _ => is_digit c = false end →
  span_digits (ds ++ r) = (ds, r).
Proof.
  intros Hds Hr. induction Hds as [|c ds Hc _ IH]; simpl.
  - destruct r as [|c r]; [done|]. simpl. by rewrite Hr.
  - by rewrite Hc, IH.
Qed.

(** The fraction and exponent read from a text, read again on their own. *)
Lemma scan_frac_shape (s f r : str) :
  scan_frac s = (f, r) →
  f = [] ∨ ∃ fd, f = 46 :: fd ∧ fd ≠ [] ∧ Forall (λ c, is_digit c = true) fd.
Proof.
  destruct s as [|c t]; [intros [= <- <-]; by left|]. cbn [scan_frac].
  destruct (N.eqb_spec c 46) as [->|]; [|intros [= <- <-]; by left].
  destruct (span_digits t) as [fd r'] eqn:Hs.
  apply span_digits_digits in Hs as [Hfd _].
  destruct fd; intros [= <- <-]; [by left|right]. by eexists.
Qed.

Lemma scan_exp_shape (s e r : str) :
  scan_exp s = (e, r) →
  e = [] ∨ ∃ c sign ed,
    e = c :: sign ++ ed ∧ ((c =? 101) || (c =? 69) = true)
    ∧ (sign = [] ∨ ∃ c', sign = [c'] ∧ (c' =? 43) || (c' =? 45) = true)
    ∧ ed ≠ [] ∧ Forall (λ c, is_digit c = true) ed.
Proof.
  destruct s as [|c x]; [intros [= <- <-]; by left|]. cbn [scan_exp].
  destruct ((c =? 101) || (c =? 69)) eqn:Hc; [|intros [= <- <-]; by left].
  destruct x as [|c' x'].
  - simpl. intros [= <- <-]. by left.
  - destruct ((c' =? 43) || (c' =? 45)) eqn:Hc'.
    + destruct (span_digits x') as [ed r'] eqn:Hs.
      apply span_digits_digits in Hs as [Hed _].
      destruct ed; intros [= <- <-]; [by left|right].
      eexists c, [c'], _. split_and!; eauto.
    + destruct (span_digits (c' :: x')) as [ed r'] eqn:Hs.
      apply span_digits_digits in Hs as [Hed _].
      destruct ed; intros [= <- <-]; [by left|right].
      eexists c, [], _. split_and!; eauto.
Qed.

Lemma scan_frac_alone (fd : str) :
  fd ≠ [] → Forall (λ c, is_digit c = true) fd →
  ∀ r, match r with [] => True | c :: _ => is_digit c = false end →
  scan_frac (46 :: fd ++ r) = (46 :: fd, r).
Proof.
  intros Hne Hfd r Hr. cbn [scan_frac]. change (46 =? 46) with true. cbn iota.
  rewrite span_digits_exact by done. by destruct fd.
Qed.

Lemma scan_exp_alone (c : N) (sign ed : str) :
  (c =? 101) || (c =? 69) = true →
  sign = [] ∨ (∃ c', sign = [c'] ∧ (c' =? 43) || (c' =? 45) = true) →
  ed ≠ [] → Forall (λ c, is_digit c = true) ed →
  scan_exp (c :: sign ++ ed) = (c :: sign ++ ed, []).
Proof.
  intros Hc Hsign Hne Hed. cbn [scan_exp]. rewrite Hc.
  pose proof (span_digits_exact ed [] Hed I) as Hs. rewrite app_nil_r in Hs.
  destruct Hsign as [->|(c' & -> & Hc')].
  - destruct ed as [|d ed]; [done|]. cbn [app].
    apply Forall_cons in Hed as [Hd Hed].
    replace ((d =? 43) || (d =? 45)) with false
      by (symmetry; unfold is_digit in Hd; chars).
    by rewrite Hs.
  - cbn [app]. rewrite Hc', Hs. by destruct ed.
Qed.

Lemma digits_snoc (l : str) :
  l ≠ [] → Forall (λ c, is_digit c = true) l →
  ∃ p d, l = p ++ [d] ∧ is_digit d = true.
Proof.
  induction l as [|d l _] using rev_ind; [done|]. intros _ Hl.
  apply Forall_app in Hl as [_ Hd]. rewrite Forall_singleton in Hd.
  by exists l, d.
Qed.

Lemma scan_int_digits (s ds r : str) :
  scan_int s = Some (ds, r) →
  ds ≠ [] ∧ Forall (λ c, is_digit c = true) ds
  ∧ ∀ y, match y with [] => True | c :: _ => is_digit c = false end →
         scan_int (ds ++ y) = Some (ds, y).
Proof.
  destruct s as [|d t]; [done|]. cbn [scan_int].
  destruct (is_digit d) eqn:Hd; [|done].
  destruct (N.eqb_spec d 48) as [->|Hd48].
  - intros [= <- <-]. split_and!; [done|by repeat constructor|done].
  - intros Hs. assert (Hs' : span_digits (d :: t) = (ds, r)) by congruence.
    pose proof Hs' as [Hds _]%span_digits_digits.
    simpl in Hs'. rewrite Hd in Hs'.
    destruct (span_digits t) as [ds' r']. injection Hs' as <- <-.
    split_and!; [done|done|]. intros y Hy. cbn [app scan_int]. rewrite Hd.
    destruct (N.eqb_spec d 48); [done|].
    change (d :: ds' ++ y) with ((d :: ds') ++ y).
    by rewrite span_digits_exact.
Qed.

(** The three groups of a number, read again without what follows. *)
Lemma number_parts (s0 ds r0 f r1 e r2 : str) :
  scan_int s0 = Some (ds, r0) →
  scan_frac r0 = (f, r1) →
  scan_exp r1 = (e, r2) →
  s0 = ds ++ f ++ e ++ r2
  ∧ scan_int (ds ++ f ++ e) = Some (ds, f ++ e)
  ∧ scan_frac (f ++ e) = (f, e)
  ∧ scan_exp e = (e, [])
  ∧ (∃ d t, ds = d :: t ∧ is_digit d = true)
  ∧ ∃ p d, ds ++ f ++ e = p ++ [d] ∧ is_digit d = true.
Proof.
  intros Hi Hf He.
  pose proof (scan_int_consumed _ _ _ Hi) as (-> & _ & _).
  pose proof (scan_frac_consumed _ _ _ Hf) as [-> _].
  pose proof (scan_exp_consumed _ _ _ He) as [-> _].
  apply scan_int_digits in Hi as (Hne & Hds & Hint).
  apply scan_frac_shape in Hf. apply scan_exp_shape in He.
  split; [done|].
  assert (Hexp : scan_exp e = (e, [])).
  { destruct He as [->|(c & sign & ed & -> & Hc & Hsign & Hne' & Hed)];
      [done|]. by apply scan_exp_alone. }
  assert (Hfrac : scan_frac (f ++ e) = (f, e)).
  { destruct Hf as [->|(fd & -> & Hne' & Hfd)].
    - destruct He as [->|(c & sign & ed & -> & Hc & _)]; [done|].
      cbn [app scan_frac]. replace (c =? 46) with false; [done|].
      symmetry. chars.
    - cbn [app]. apply scan_frac_alone; [done|done|].
      destruct He as [->|(c & sign & ed & -> & Hc & _)]; [done|].
      simpl. unfold is_digit. chars. }
  split_and!; [|done|done| |].
  - apply Hint. destruct Hf as [->|(fd & -> & _)]; [|done].
    destruct He as [->|(c & sign & ed & -> & Hc & _)]; [done|].
    simpl. unfold is_digit. chars.
  - destruct ds as [|d t]; [done|]. apply Forall_cons in Hds as [Hd _].
    by exists d, t.
  - destruct He as [->|(c & sign & ed & -> & _ & _ & Hne' & Hed)].
    + destruct Hf as [->|(fd & -> & Hne' & Hfd)].
      * rewrite !app_nil_r. by apply digits_snoc.
      * destruct (digits_snoc fd Hne' Hfd) as (p & d & -> & Hd).
        exists (ds ++ 46 :: p), d. split; [|done].
        rewrite app_nil_r. by rewrite <- app_assoc.
    + destruct (digits_snoc ed Hne' Hed) as (p & d & -> & Hd).
      exists (ds ++ f ++ c :: sign ++ p), d. split; [|done].
      rewrite <- !app_assoc. cbn [app]. by rewrite <- app_assoc.
Qed.

(** A number is read alike before anything that cannot continue it. *)
Lemma match_number_local (s r : str) (v : json) :
  match_number s = Some (v, r) →
  ∃ p d, s = p ++ d :: r ∧ is_digit d = true
         ∧ (∀ l, v = JFloat l → l = p ++ [d])
         ∧ ∀ r', number_follow r' = true →
                 match_number (p ++ d :: r') = Some (v, r').
Proof.
  intros H.
  assert (∃ p d, s = p ++ d :: r ∧ is_digit d = true
                 ∧ (∀ l, v = JFloat l → l = p ++ [d])
                 ∧ match_number (p ++ [d]) = Some (v, [])) as
    (p & d & -> & Hd & Hlit & Halone).
  { revert H. unfold match_number.
    assert (Hgen : ∀ (neg : bool) (s0 : str),
      ('(int_ds, r0) ← scan_int s0;
       let '(frac, r1) := scan_frac r0 in
       let '(exp, r2) := scan_exp r1 in
       match frac, exp with
       | [], [] => Some (JInt (py_int neg int_ds), r2)
       | _, _ =>
           Some (JFloat ((if neg then [45] else []) ++ int_ds ++ frac ++ exp),
                 r2)
       end) = Some (v, r) →
      ∃ p d h, s0 = p ++ d :: r ∧ is_digit d = true
        ∧ (∃ t, p ++ [d] = h :: t ∧ is_digit h = true)
        ∧ (∀ l, v = JFloat l → l = (if neg then [45] else []) ++ p ++ [d])
        ∧ ('(int_ds, r0) ← scan_int (p ++ [d]);
           let '(frac, r1) := scan_frac r0 in
           let '(exp, r2) := scan_exp r1 in
           match frac, exp with
           | [], [] => Some (JInt (py_int neg int_ds), r2)
           | _, _ =>
               Some (JFloat ((if neg then [45] else []) ++ int_ds ++ frac
                             ++ exp), r2)
           end) = Some (v, [])).
    { intros neg s0. destruct (scan_int s0) as [[ds r0]|] eqn:Hi; [|done].
      cbn [mbind option_bind]. destruct (scan_frac r0) as [f r1] eqn:Hf.
      destruct (scan_exp r1) as [e r2] eqn:He. intros Hres.
      destruct (number_parts _ _ _ _ _ _ _ Hi Hf He)
        as (-> & Hint & Hfrac & Hexp & (h & t & -> & Hh) & p & d & Hpd & Hd).
      assert (r2 = r) as -> by (destruct f, e; congruence).
      exists p, d, h. split_and!.
      - rewrite !app_assoc in *. rewrite Hpd. by rewrite <- app_assoc.
      - done.
      - exists (t ++ f ++ e). by rewrite <- Hpd.
      - intros l ->. rewrite <- Hpd. destruct f, e; congruence.
      - rewrite <- Hpd, Hint. cbn [mbind option_bind]. rewrite Hfrac, Hexp.
        destruct f, e; congruence. }
    destruct s as [|c t]; [done|].
    destruct (N.eqb_spec c 45) as [->|Hc].
    - intros (p & d & h & -> & Hd & _ & Hl & Hscan)%(Hgen true).
      exists (45 :: p), d. split_and!; [done|done|exact Hl|].
      cbn [app]. change (45 =? 45) with true. cbn iota. apply Hscan.
    - intros (p & d & h & Hs & Hd & (t' & Hpd & Hh) & Hl & Hscan)%(Hgen false).
      exists p, d. split_and!; [done|done|exact Hl|]. rewrite Hpd in *.
      replace (h =? 45) with false
        by (symmetry; unfold is_digit in Hh; chars).
      apply Hscan. }
  exists p, d. split_and!; [done|done|done|]. intros r' Hr'.
  pose proof (match_number_app (p ++ [d]) r' [] v Hr' Halone) as Happ.
  by rewrite <- app_assoc in Happ.
Qed.

Local Close Scope N_scope.

(** ** What the decoder builds *)

Local Open Scope N_scope.

(** A float literal read from a text is a float literal on its own. *)
Lemma match_number_float (s r l : str) :
  match_number s = Some (JFloat l, r) → is_float_literal l = true.
Proof.
  intros (p & d & _ & _ & Hl & Hloc)%match_number_local.
  specialize (Hloc [] eq_refl). rewrite <- (Hl l eq_refl) in Hloc.
  unfold is_float_literal. rewrite Hloc. apply orb_true_iff. right.
  by apply bool_decide_eq_true_2.
Qed.

Lemma match_number_kind (s r : str) (v : json) :
  match_number s = Some (v, r) → (∃ z, v = JInt z) ∨ (∃ l, v = JFloat l).
Proof.
  unfold match_number.
  destruct (match s with
            | [] => (false, s)
            | c :: t => if (c =? 45)%N then (true, t) else (false, s)
            end) as [neg s0].
  destruct (scan_int s0) as [[int_ds r0]|]; [|done]. simpl.
  destruct (scan_frac r0) as [frac r1]. destruct (scan_exp r1) as [exp r2].
  destruct frac, exp; intros [= <- _]; eauto.
Qed.

Lemma scan_atom_ok (s r : str) (v : json) :
  scan_atom s = Some (v, r) → json_ok v = true.
Proof.
  unfold scan_atom.
  repeat (match goal with
          | |- context [match strip_prefix ?p s with _ => _ end] =>
              destruct (strip_prefix p s); [by intros [= <- _]|]
          end).
  destruct (match_number s) as [[v' r']|] eqn:Hm.
  { intros [= -> ->].
    destruct (match_number_kind _ _ _ Hm) as [[z ->]|[l ->]]; [done|].
    by eapply match_number_float. }
  repeat (match goal with
          | |- context [match strip_prefix ?p s with _ => _ end] =>
              destruct (strip_prefix p s); [by intros [= <- _]|]
          end).
  done.
Qed.

Lemma dict_set_keys (d : list (str * json)) (k : str) (v : json) :
  (dict_set d k v).*1 = if bool_decide (k ∈ d.*1) then d.*1 else d.*1 ++ [k].
Proof.
  induction d as [|[k' v'] d IH]; [done|]. cbn [dict_set].
  rewrite (fmap_cons fst). cbn [fst].
  destruct (decide (k' = k)) as [->|Hne].
  - rewrite bool_decide_eq_true_2 by done.
    rewrite bool_decide_eq_true_2 by (apply elem_of_cons; by left). done.
  - rewrite bool_decide_eq_false_2 by done. rewrite (fmap_cons fst), IH.
    cbn [fst]. destruct (decide (k ∈ d.*1)) as [Hin|Hin].
    + rewrite (bool_decide_eq_true_2 _ Hin).
      rewrite bool_decide_eq_true_2; [done|]. apply elem_of_cons. by right.
    + rewrite (bool_decide_eq_false_2 _ Hin).
      rewrite bool_decide_eq_false_2; [done|].
      intros [?|?]%elem_of_cons; [by subst|done].
Qed.

Lemma dict_set_ok (d : list (str * json)) (k : str) (v : json) :
  NoDup d.*1 → forallb (λ kv, json_ok kv.2) d = true → json_ok v = true →
  NoDup (dict_set d k v).*1
  ∧ forallb (λ kv, json_ok kv.2) (dict_set d k v) = true.
Proof.
  intros Hnd Hd Hv. split.
  - rewrite dict_set_keys. case_bool_decide; [done|].
    apply NoDup_app. split_and!; [done| |apply NoDup_singleton].
    intros x Hx [->|[]%elem_of_nil]%elem_of_cons. done.
  - clear Hnd. induction d as [|[k' v'] d IH]; simpl in *; [by rewrite Hv|].
    apply andb_true_iff in Hd as [? ?].
    case_bool_decide; simpl; apply andb_true_iff; auto.
Qed.

Lemma dict_of_pairs_ok (pairs : list (str * json)) :
  forallb (λ kv, json_ok kv.2) pairs = true →
  json_ok (JDict (dict_of_pairs pairs)) = true.
Proof.
  unfold dict_of_pairs. intros Hp.
  assert (∀ acc, NoDup acc.*1 → forallb (λ kv, json_ok kv.2) acc = true →
    json_ok (JDict (foldl (λ d kv, dict_set d kv.1 kv.2) acc pairs)) = true)
    as Hgen.
  { induction pairs as [|[k v] pairs IH]; intros acc Hnd Hacc.
    - simpl. by rewrite bool_decide_eq_true_2.
    - simpl in Hp. apply andb_true_iff in Hp as [Hv Hp]. simpl.
      destruct (dict_set_ok acc k v Hnd Hacc Hv) as [? ?]. by apply IH. }
  apply Hgen; [constructor|done].
Qed.

(** Everything the scanner returns is a value in the sense of [json_ok]. *)
Lemma scan_ok (fuel : nat) :
  (∀ s v r, scan_once fuel s = Some (v, r) → json_ok v = true)
  ∧ (∀ s vs r, array_items fuel s = Some (vs, r) →
               forallb json_ok vs = true)
  ∧ (∀ s ps r, object_items fuel s = Some (ps, r) →
               forallb (λ kv, json_ok kv.2) ps = true).
Proof.
  induction fuel as [|n (IHv & IHa & IHo)]; [by split_and!|].
  split_and!.
  - intros [|c t] v r; [done|]. cbn [scan_once].
    destruct (c =? QUOTE).
    { destruct (scanstring t) as [[k r']|]; [|done]. by intros [= <- _]. }
    destruct (c =? 123).
    { destruct (skip_ws t) as [|c1 r0]; [done|].
      destruct (c1 =? 125); [by intros [= <- _]|].
      destruct (c1 =? QUOTE); [|done].
      destruct (object_items n r0) as [[pairs r']|] eqn:Ho; [|done].
      intros [= <- _]. apply dict_of_pairs_ok. by eapply IHo. }
    destruct (c =? 91).
    { destruct (skip_ws t) as [|c1 r0]; [done|].
      destruct (c1 =? 93); [by intros [= <- _]|].
      destruct (array_items n (c1 :: r0)) as [[vs r']|] eqn:Ha; [|done].
      intros [= <- _]. simpl. by eapply IHa. }
    apply scan_atom_ok.
  - intros s vs r. cbn [array_items].
    destruct (scan_once n s) as [[v r1]|] eqn:Hv; [|done].
    cbn [mbind option_bind].
    destruct (skip_ws r1) as [|c r']; [done|].
    destruct (c =? 93).
    { intros [= <- _]. simpl. rewrite (IHv _ _ _ Hv). done. }
    destruct (c =? 44); [|done].
    destruct (array_items n (skip_ws r')) as [[vs' r'']|] eqn:Ha; [|done].
    intros [= <- _]. simpl. by rewrite (IHv _ _ _ Hv), (IHa _ _ _ Ha).
  - intros s ps r. cbn [object_items].
    destruct (scanstring s) as [[key r0]|]; [|done]. cbn [mbind option_bind].
    destruct (skip_ws r0) as [|c r1]; [done|].
    destruct (c =? 58); [|done].
    destruct (scan_once n (skip_ws r1)) as [[v r2]|] eqn:Hv; [|done].
    cbn [mbind option_bind].
    destruct (skip_ws r2) as [|c2 r3]; [done|].
    destruct (c2 =? 125).
    { intros [= <- _]. simpl. by rewrite (IHv _ _ _ Hv). }
    destruct (c2 =? 44); [|done].
    destruct (skip_ws r3) as [|c3 r4]; [done|].
    destruct (c3 =? QUOTE); [|done].
    destruct (object_items n r4) as [[pairs r5]|] eqn:Ho; [|done].
    intros [= <- _]. simpl. by rewrite (IHv _ _ _ Hv), (IHo _ _ _ Ho).
Qed.

Lemma json_loads_ok (s : str) (v : json) :
  json_loads s = Some v → json_ok v = true.
Proof.
  unfold json_loads. destruct (startswith s [65279]); [done|].
  destruct (scan_once _ (skip_ws s)) as [[v' r]|] eqn:Hs; [|done].
  destruct (skip_ws r); [|done]. intros [= <-].
  by eapply (proj1 (scan_ok _)).
Qed.

Local Close Scope N_scope.

(** The records of a parsed response and of a loaded checkpoint come from
    the decoder. *)
Lemma parse_response_ok (raw : str) (l : list json) :
  parse_response raw = inr l → forallb json_ok l = true.
Proof.
  unfold parse_response.
  destruct (json_loads _) as [v|] eqn:Hv; [|done].
  apply json_loads_ok in Hv. destruct v; try done. by intros [= <-].
Qed.

Lemma load_existing_incidents_ok (f : file_state) (l : list json) :
  load_existing_incidents f = JList l → forallb json_ok l = true.
Proof.
  destruct f as [| |text]; simpl; try by intros [= <-].
  destruct (json_loads text) as [v|] eqn:Hv; [|by intros [= <-]].
  apply json_loads_ok in Hv.
  destruct (py_len v); [|by intros [= <-]]. by intros ->.
Qed.

Lemma job_result_ok (w : World) (round : nat) (j : BatchJob) (l : list json) :
  job_result w round j = inr l → forallb json_ok l = true.
Proof.
  unfold job_result, generate_incident_batch.
  destruct (backend w round j); [apply parse_response_ok|done].
Qed.

Lemma collect_results_records_ok (w : World) (round : nat)
    (completed : list BatchJob) :
  ∀ k st res st',
    collect_results w round k completed st = (res, st') →
    records_ok st → records_ok st'.
Proof.
  assert (Hext : ∀ st j batch, job_result w round j = inr batch →
    records_ok st → records_ok (do_extend st batch)).
  { intros st j batch Hb%job_result_ok Hst. unfold records_ok. simpl.
    rewrite forallb_app. by rewrite Hst, Hb. }
  induction completed as [|j completed IH]; intros k st res st'; simpl.
  - by intros [= _ <-].
  - destruct (interrupt w round k AwaitingResult); [by intros [= _ <-]|].
    destruct (job_result w round j) as [e|batch] eqn:Hj.
    + destruct (is_Exception e); [apply IH|by intros [= _ <-]].
    + destruct (interrupt w round k AfterExtend).
      { intros [= _ <-]. by eapply Hext. }
      destruct (interrupt w round k AfterSave).
      { intros [= _ <-] ?. by eapply (Hext st). }
      intros H ?. eapply IH; [done|]. by eapply (Hext st).
Qed.

Lemma generation_loop_records_ok (w : World) (T B W : Z) (fuel : nat) :
  ∀ round st res st',
    generation_loop fuel w T B W round st = Some (res, st') →
    records_ok st → records_ok st'.
Proof.
  induction fuel as [|fuel IH]; intros round st res st'; simpl;
    case_bool_decide; try done; try by intros [= _ <-].
  unfold run_round.
  destruct (interrupt w round 0 AtRoundStart); [by intros [= _ <-]|].
  destruct (dispatch_round _ _ _ _) as [e|jobs]; [by intros [= _ <-]|].
  destruct (collect_results _ _ _ _ _) as [[e|] st1] eqn:Hc.
  - intros [= _ <-] Hst. eapply collect_results_records_ok; [exact Hc|].
    exact Hst.
  - intros Hl Hst. eapply IH; [done|].
    eapply collect_results_records_ok; [exact Hc|]. exact Hst.
Qed.

(** Whatever a run holds, started from what was loaded, is a collection
    that the checkpoint file gives back as it was saved. *)
Corollary run_collection_reads_back (w : World) (T B W : Z) (fuel : nat)
    (f : file_state) (existing : list json) (res : option exn) (st' : state) :
  load_existing_incidents f = JList existing →
  generation_loop fuel w T B W 0 (mkState existing f [] []) = Some (res, st') →
  load_existing_incidents
    (save_incidents_to_temp Written (all_incidents st') (temp_file st'))
  = JList (all_incidents st').
Proof.
  intros Hload Hrun. apply load_dumped.
  eapply generation_loop_records_ok; [done|].
  by apply load_existing_incidents_ok in Hload.
Qed.

(** ** A value is read alike whatever follows it *)

Local Open Scope N_scope.

Lemma escape_window_Some (s s4 : str) (g1 g2 g3 g4 : N) :
  escape_window s = Some (g1, g2, g3, g4, s4) →
  s = BACKSLASH :: 117 :: g1 :: g2 :: g3 :: g4 :: s4.
Proof.
  destruct s as [|b [|u t]]; try done. cbn [escape_window].
  destruct (N.eqb_spec b BACKSLASH) as [->|]; [|done].
  destruct (N.eqb_spec u 117) as [->|]; [|done]. cbn [andb].
  destruct t as [|? [|? [|? [|? ?]]]]; try done. by intros [= -> -> -> -> ->].
Qed.

Lemma scanstring_u (h1 h2 h3 h4 : N) (s3 : str) :
  scanstring (BACKSLASH :: 117 :: h1 :: h2 :: h3 :: h4 :: s3)
  = match hex4 h1 h2 h3 h4 with
    | None => None
    | Some uni =>
        let single := '(t, r) ← scanstring s3; Some (uni :: t, r) in
        if is_high_surrogate uni then
          match escape_window s3 with
          | Some (g1, g2, g3, g4, s4) =>
              match hex4 g1 g2 g3 g4 with
              | None => None
              | Some uni2 =>
                  if is_low_surrogate uni2 then
                    '(t, r) ← scanstring s4;
                    Some (join_surrogates uni uni2 :: t, r)
                  else single
              end
          | None => single
          end
        else single
    end.
Proof.
  cbn [scanstring]. change (BACKSLASH =? QUOTE) with false.
  change (BACKSLASH =? BACKSLASH) with true. change (117 =? 117) with true.
  cbn iota. destruct (hex4 h1 h2 h3 h4) as [uni|]; [|done].
  destruct (is_high_surrogate uni); [|done].
  destruct s3 as [|b [|u [|g1 [|g2 [|g3 [|g4 s4]]]]]]; try done;
    cbn [escape_window]; by destruct ((b =? BACKSLASH) && (u =? 117)).
Qed.

(** Whether a string body begins with a [\uXXXX] escape, and with which
    digits, is settled within the body: the text after the closing quote
    has no part in it. *)
Lemma escape_window_stable (c r r' : str) :
  scanstring (c ++ [QUOTE]) ≠ None →
  match escape_window (c ++ QUOTE :: r), escape_window (c ++ QUOTE :: r') with
  | Some (g1, g2, g3, g4, _), Some (g1', g2', g3', g4', _) =>
      (g1, g2, g3, g4) = (g1', g2', g3', g4')
  | None, None => True
  | _, _ => False
  end.
Proof.
  intros H.
  destruct c as [|a1 [|a2 c]].
  - cbn [app escape_window]. by destruct r, r'.
  - cbn [app escape_window]. change (QUOTE =? 117) with false.
    by rewrite andb_false_r.
  - cbn [app escape_window].
    destruct (N.eqb_spec a1 BACKSLASH) as [->|]; [|done].
    destruct (N.eqb_spec a2 117) as [->|]; [|done]. cbn [andb].
    by destruct c as [|a3 [|a4 [|a5 [|a6 c]]]].
Qed.

(** A string body is read alike whatever follows its closing quote. *)
Lemma scanstring_local (n : nat) :
  ∀ s k r,
    (length s ≤ n)%nat →
    scanstring s = Some (k, r) →
    ∃ c, s = c ++ QUOTE :: r
         ∧ ∀ r', scanstring (c ++ QUOTE :: r') = Some (k, r').
Proof.
  induction n as [|n IH]; intros s k r Hlen.
  { destruct s; [done|simpl in Hlen; lia]. }
  destruct s as [|c0 s1]; [done|]. simpl in Hlen.
  assert (Hrec : ∀ s' (f : str → str),
    (length s' ≤ n)%nat →
    ('(t0, r0) ← scanstring s'; Some (f t0, r0)) = Some (k, r) →
    ∃ c, s' = c ++ QUOTE :: r
         ∧ ∀ r', ('(t0, r0) ← scanstring (c ++ QUOTE :: r'); Some (f t0, r0))
                 = Some (k, r')).
  { intros s' f Hl H. destruct (scanstring s') as [[t0 r0]|] eqn:Hs; [|done].
    injection H as <- <-. destruct (IH _ _ _ Hl Hs) as (c & -> & Hc).
    exists c. split; [done|]. intros r'. by rewrite Hc. }
  destruct (N.eqb_spec c0 QUOTE) as [->|Hq].
  { cbn [scanstring]. change (QUOTE =? QUOTE) with true. cbn iota.
    intros [= <- <-]. by exists []. }
  destruct (N.eqb_spec c0 BACKSLASH) as [->|Hb].
  - destruct s1 as [|e s2]; [done|]. simpl in Hlen.
    destruct (N.eqb_spec e 117) as [->|He].
    + destruct s2 as [|h1 [|h2 [|h3 [|h4 s3]]]]; try done. simpl in Hlen.
      rewrite scanstring_u.
      destruct (hex4 h1 h2 h3 h4) as [uni|] eqn:Hh; [|done]. cbn zeta.
      assert (Hsingle :
        ('(t, r0) ← scanstring s3; Some (uni :: t, r0)) = Some (k, r) →
        ∃ c, s3 = c ++ QUOTE :: r
             ∧ scanstring (c ++ [QUOTE]) ≠ None
             ∧ ∀ r', ('(t, r0) ← scanstring (c ++ QUOTE :: r');
                      Some (uni :: t, r0)) = Some (k, r')).
      { intros Hs. destruct (Hrec s3 (cons uni)) as (c & -> & Hc); [lia|done|].
        exists c. split_and!; [done| |done].
        specialize (Hc []). by destruct (scanstring (c ++ [QUOTE])). }
      assert (Hplain :
        ('(t, r0) ← scanstring s3; Some (uni :: t, r0)) = Some (k, r) →
        (is_high_surrogate uni = true →
         match escape_window s3 with
         | Some (g1, g2, g3, g4, _) =>
             ∃ uni2, hex4 g1 g2 g3 g4 = Some uni2
                     ∧ is_low_surrogate uni2 = false
         | None => True
         end) →
        ∃ c, BACKSLASH :: 117 :: h1 :: h2 :: h3 :: h4 :: s3 = c ++ QUOTE :: r
             ∧ ∀ r', scanstring (c ++ QUOTE :: r') = Some (k, r')).
      { intros (c & -> & Hne & Hc)%Hsingle Hwin.
        exists (BACKSLASH :: 117 :: h1 :: h2 :: h3 :: h4 :: c).
        split; [done|]. intros r'. cbn [app]. rewrite scanstring_u, Hh.
        cbn zeta. destruct (is_high_surrogate uni); [|apply Hc].
        specialize (Hwin eq_refl).
        pose proof (escape_window_stable c r r' Hne) as Hst.
        destruct (escape_window (c ++ QUOTE :: r))
          as [[[[[g1 g2] g3] g4] s4]|];
          destruct (escape_window (c ++ QUOTE :: r'))
            as [[[[[g1' g2'] g3'] g4'] s4']|]; try done.
        injection Hst as <- <- <- <-.
        destruct Hwin as (uni2 & -> & ->). apply Hc. }
      destruct (is_high_surrogate uni) eqn:Hhigh; [|intros H; by apply Hplain].
      destruct (escape_window s3) as [[[[[g1 g2] g3] g4] s4]|] eqn:Hw;
        [|intros H; by apply Hplain].
      destruct (hex4 g1 g2 g3 g4) as [uni2|] eqn:Hg; [|done].
      destruct (is_low_surrogate uni2) eqn:Hlow;
        [|intros H; apply Hplain; [done|]; intros _; by exists uni2].
      apply escape_window_Some in Hw as ->. simpl in Hlen. intros H.
      destruct (Hrec s4 (cons (join_surrogates uni uni2))) as (c & -> & Hc);
        [lia|done|].
      exists (BACKSLASH :: 117 :: h1 :: h2 :: h3 :: h4
              :: BACKSLASH :: 117 :: g1 :: g2 :: g3 :: g4 :: c).
      split; [done|]. intros r'. cbn [app]. rewrite scanstring_u, Hh.
      cbn zeta. rewrite Hhigh. cbn [escape_window].
      change ((BACKSLASH =? BACKSLASH) && (117 =? 117)) with true. cbn iota.
      rewrite Hg, Hlow. apply Hc.
    + cbn [scanstring]. change (BACKSLASH =? QUOTE) with false.
      change (BACKSLASH =? BACKSLASH) with true. cbn iota.
      destruct (N.eqb_spec e 117); [done|].
      destruct (unescape e) as [ch|] eqn:Hu; [|done]. intros H.
      destruct (Hrec s2 (cons ch)) as (c & -> & Hc); [lia|done|].
      exists (BACKSLASH :: e :: c). split; [done|]. intros r'.
      cbn [app scanstring]. change (BACKSLASH =? QUOTE) with false.
      change (BACKSLASH =? BACKSLASH) with true. cbn iota.
      destruct (N.eqb_spec e 117); [done|]. rewrite Hu. apply Hc.
  - cbn [scanstring]. destruct (N.eqb_spec c0 QUOTE); [done|].
    destruct (N.eqb_spec c0 BACKSLASH); [done|].
    destruct (c0 <? 32) eqn:Hctl; [done|]. intros H.
    destruct (Hrec s1 (cons c0)) as (c & -> & Hc); [lia|done|].
    exists (c0 :: c). split; [done|]. intros r'. cbn [app scanstring].
    destruct (N.eqb_spec c0 QUOTE); [done|].
    destruct (N.eqb_spec c0 BACKSLASH); [done|]. rewrite Hctl. apply Hc.
Qed.

(** A literal name or a number is read alike before anything that cannot
    continue a number; its last character is not white space. *)
Lemma scan_atom_local (s r : str) (v : json) :
  scan_atom s = Some (v, r) →
  ∃ p e, s = p ++ e :: r ∧ py_isspace e = false
         ∧ ∀ r', number_follow r' = true →
                 scan_atom (p ++ e :: r') = Some (v, r').
Proof.
  unfold scan_atom at 1.
  destruct (strip_prefix (lit "null") s) as [r0|] eqn:H1.
  { intros [= <- <-]. apply strip_prefix_consumed in H1 as ->.
    by exists (lit "nul"), 108. }
  destruct (strip_prefix (lit "true") s) as [r0|] eqn:H2.
  { intros [= <- <-]. apply strip_prefix_consumed in H2 as ->.
    by exists (lit "tru"), 101. }
  destruct (strip_prefix (lit "false") s) as [r0|] eqn:H3.
  { intros [= <- <-]. apply strip_prefix_consumed in H3 as ->.
    by exists (lit "fals"), 101. }
  destruct (match_number s) as [[v' r0]|] eqn:H4.
  { intros [= <- <-].
    destruct (match_number_local _ _ _ H4) as (p & d & -> & Hd & _ & Hloc).
    exists p, d. split_and!; [done|unfold is_digit, py_isspace in *; chars|].
    intros r' Hr'.
    pose proof (scan_atom_match_number (p ++ [d]) r' [] v' Hr'
                  (Hloc [] eq_refl)) as Happ.
    by rewrite <- app_assoc in Happ. }
  destruct (strip_prefix (lit "NaN") s) as [r0|] eqn:H5.
  { intros [= <- <-]. apply strip_prefix_consumed in H5 as ->.
    by exists (lit "Na"), 78. }
  destruct (strip_prefix (lit "Infinity") s) as [r0|] eqn:H6.
  { intros [= <- <-]. apply strip_prefix_consumed in H6 as ->.
    by exists (lit "Infinit"), 121. }
  destruct (strip_prefix (lit "-Infinity") s) as [r0|] eqn:H7; [|done].
  intros [= <- <-]. apply strip_prefix_consumed in H7 as ->.
  by exists (lit "-Infinit"), 121.
Qed.

Lemma json_ws_space (c : N) : json_ws c = true → py_isspace c = true.
Proof. unfold json_ws, py_isspace. intros H. chars. Qed.

Lemma skip_ws_inv (s : str) (c : N) (t : str) :
  skip_ws s = c :: t →
  ∃ ws, s = ws ++ c :: t ∧ Forall (λ c, json_ws c = true) ws
        ∧ json_ws c = false.
Proof.
  induction s as [|a s IH]; [done|]. simpl. destruct (json_ws a) eqn:Ha.
  - intros (ws & -> & Hws & Hc)%IH. exists (a :: ws).
    split_and!; [done|by constructor|done].
  - intros [= -> ->]. by exists [].
Qed.

Lemma skip_ws_app (ws : str) (c : N) (t : str) :
  Forall (λ c, json_ws c = true) ws → json_ws c = false →
  skip_ws (ws ++ c :: t) = c :: t.
Proof.
  induction 1 as [|a ws Ha _ IH]; intros Hc; simpl; [by rewrite Hc|].
  rewrite Ha. by apply IH.
Qed.

(** White space before a text that is then read up to [e]. *)
Lemma skip_ws_replace (s p r : str) (e : N) :
  skip_ws s = p ++ e :: r → py_isspace e = false →
  ∃ ws, s = ws ++ p ++ e :: r ∧ Forall (λ c, json_ws c = true) ws
        ∧ ∀ r', skip_ws (ws ++ p ++ e :: r') = p ++ e :: r'.
Proof.
  intros Hs He. destruct p as [|a p]; cbn [app] in *.
  - apply skip_ws_inv in Hs as (ws & -> & Hws & Hc). exists ws.
    split_and!; [done|done|]. intros r'. by apply skip_ws_app.
  - apply skip_ws_inv in Hs as (ws & -> & Hws & Hc). exists ws.
    split_and!; [done|done|]. intros r'. by apply skip_ws_app.
Qed.

Lemma number_follow_close (ws : str) (c : N) (t : str) :
  Forall (λ c, json_ws c = true) ws → c = 93 ∨ c = 44 ∨ c = 125 →
  number_follow (ws ++ c :: t) = true.
Proof.
  intros Hws Hc. destruct Hws as [|a ws Ha _]; simpl.
  - by destruct Hc as [-> | [-> | ->]].
  - apply negb_true_iff. unfold json_ws, is_digit in *. chars.
Qed.

Ltac assoc := repeat first [rewrite <- app_assoc | progress cbn [app]].
Ltac len H :=
  repeat first [rewrite length_app in H | rewrite length_app
               | progress cbn [length] in H | progress cbn [length]];
  lia.

(** What the scanner reads of a text is a value's own text [p ++ [e]]:
    put before anything that cannot continue a number, it is read as the
    same value, with a fuel of its length. *)
Lemma scan_local (fuel : nat) :
  (∀ s v r, scan_once fuel s = Some (v, r) →
     ∃ p e, s = p ++ e :: r ∧ py_isspace e = false
       ∧ ∀ r' m, number_follow r' = true → (length p < m)%nat →
           scan_once m (p ++ e :: r') = Some (v, r'))
  ∧ (∀ s vs r, array_items fuel s = Some (vs, r) →
     ∃ p, s = p ++ 93 :: r
       ∧ ∀ r' m, (length p < m)%nat →
           array_items m (p ++ 93 :: r') = Some (vs, r'))
  ∧ (∀ s ps r, object_items fuel s = Some (ps, r) →
     ∃ p, s = p ++ 125 :: r
       ∧ ∀ r' m, (length p < m)%nat →
           object_items m (p ++ 125 :: r') = Some (ps, r')).
Proof.
  induction fuel as [|n (IHv & IHa & IHo)]; [done|]. split_and!.
  - intros s v r. destruct s as [|c t]; [done|].
    destruct (N.eqb_spec c QUOTE) as [->|Hq].
    { rewrite scan_once_quote.
      destruct (scanstring t) as [[k r0]|] eqn:Hs; [|done]. intros [= <- <-].
      destruct (scanstring_local _ t k r0 (le_n _) Hs) as (cs & -> & Hcs).
      exists (QUOTE :: cs), QUOTE. split_and!; [done|done|].
      intros r' [|m] _ Hm; [simpl in Hm; lia|]. cbn [app].
      by rewrite scan_once_quote, Hcs. }
    destruct (N.eqb_spec c 123) as [->|Hb].
    { rewrite scan_once_object.
      destruct (skip_ws t) as [|c1 rr] eqn:Hw; [done|].
      apply skip_ws_inv in Hw as (ws & -> & Hws & Hc1).
      destruct (N.eqb_spec c1 125) as [->|Hc].
      - intros [= <- <-]. exists (123 :: ws), 125. split_and!; [done|done|].
        intros r' [|m] _ Hm; [simpl in Hm; lia|]. cbn [app].
        by rewrite scan_once_object, skip_ws_app.
      - destruct (N.eqb_spec c1 QUOTE) as [->|]; [|done].
        destruct (object_items n rr) as [[pairs r0]|] eqn:Ho; [|done].
        intros [= <- <-]. destruct (IHo _ _ _ Ho) as (po & -> & Hpo).
        exists (123 :: ws ++ QUOTE :: po), 125.
        split_and!; [by assoc|done|].
        intros r' [|m] _ Hm; [simpl in Hm; lia|]. assoc.
        rewrite scan_once_object, skip_ws_app by done.
        change (QUOTE =? 125) with false. change (QUOTE =? QUOTE) with true.
        cbn iota. rewrite Hpo; [done|]. len Hm. }
    destruct (N.eqb_spec c 91) as [->|Ha].
    { rewrite scan_once_array.
      destruct (skip_ws t) as [|c1 rr] eqn:Hw; [done|].
      apply skip_ws_inv in Hw as (ws & -> & Hws & Hc1).
      destruct (N.eqb_spec c1 93) as [->|Hc].
      - intros [= <- <-]. exists (91 :: ws), 93. split_and!; [done|done|].
        intros r' [|m] _ Hm; [simpl in Hm; lia|]. cbn [app].
        by rewrite scan_once_array, skip_ws_app.
      - destruct (array_items n (c1 :: rr)) as [[vs r0]|] eqn:Hi; [|done].
        intros [= <- <-]. destruct (IHa _ _ _ Hi) as (pa & Hpa & Hloc).
        destruct pa as [|c' pa]; [by injection Hpa|].
        injection Hpa as <- ->.
        exists (91 :: ws ++ c1 :: pa), 93. split_and!; [by assoc|done|].
        intros r' [|m] _ Hm; [simpl in Hm; lia|]. assoc.
        rewrite scan_once_array, skip_ws_app by done.
        destruct (N.eqb_spec c1 93); [done|].
        specialize (Hloc r' m). cbn [app] in Hloc.
        rewrite Hloc; [done|]. len Hm. }
    rewrite scan_once_atom by done. intros Hat.
    destruct (scan_atom_local _ _ _ Hat) as (p & e & Hp & He & Hloc).
    exists p, e. split_and!; [done|done|].
    intros r' [|m] Hr' Hm; [lia|].
    assert (∃ t', p ++ e :: r' = c :: t') as [t' Ht'].
    { destruct p as [|c' p]; injection Hp as <- _; by eexists. }
    rewrite Ht', scan_once_atom by done. rewrite <- Ht'. by apply Hloc.
  - intros s vs r. rewrite array_items_unfold.
    destruct (scan_once n s) as [[v r1]|] eqn:Hv; [|done].
    cbn [mbind option_bind].
    destruct (IHv _ _ _ Hv) as (pv & e & -> & He & Hloc).
    destruct (skip_ws r1) as [|c r2] eqn:Hw; [done|].
    apply skip_ws_inv in Hw as (ws & -> & Hws & Hc).
    destruct (N.eqb_spec c 93) as [->|Hc93].
    + intros [= <- <-]. exists (pv ++ e :: ws). split; [by assoc|].
      intros r' [|m] Hm; [lia|]. assoc. rewrite array_items_unfold.
      rewrite (Hloc (ws ++ 93 :: r') m);
        [|apply number_follow_close; auto|len Hm].
      cbn [mbind option_bind]. by rewrite skip_ws_app.
    + destruct (N.eqb_spec c 44) as [->|]; [|done].
      destruct (array_items n (skip_ws r2)) as [[vs' r0]|] eqn:Hi; [|done].
      intros [= <- <-]. destruct (IHa _ _ _ Hi) as (pa & Hpa & Hloca).
      destruct (skip_ws_replace _ _ _ _ Hpa eq_refl) as (ws2 & -> & _ & Hsk).
      exists (pv ++ e :: ws ++ 44 :: ws2 ++ pa). split; [by assoc|].
      intros r' [|m] Hm; [lia|]. assoc. rewrite array_items_unfold.
      rewrite (Hloc (ws ++ 44 :: ws2 ++ pa ++ 93 :: r') m);
        [|apply number_follow_close; auto|len Hm].
      cbn [mbind option_bind]. rewrite skip_ws_app by done.
      change (44 =? 93) with false. change (44 =? 44) with true. cbn iota.
      rewrite Hsk, (Hloca r' m); [done|]. len Hm.
  - intros s ps r. rewrite object_items_unfold.
    destruct (scanstring s) as [[key r0]|] eqn:Hs; [|done].
    cbn [mbind option_bind].
    destruct (scanstring_local _ s key r0 (le_n _) Hs) as (cs & -> & Hcs).
    destruct (skip_ws r0) as [|c r1] eqn:Hw; [done|].
    apply skip_ws_inv in Hw as (ws1 & -> & Hws1 & Hc).
    destruct (N.eqb_spec c 58) as [->|]; [|done].
    destruct (scan_once n (skip_ws r1)) as [[v r2]|] eqn:Hv; [|done].
    cbn [mbind option_bind].
    destruct (IHv _ _ _ Hv) as (pv & e & Hpv & He & Hloc).
    destruct (skip_ws_replace _ _ _ _ Hpv He) as (ws2 & -> & _ & Hsk).
    destruct (skip_ws r2) as [|c2 r3] eqn:Hw; [done|].
    apply skip_ws_inv in Hw as (ws3 & -> & Hws3 & Hc2).
    destruct (N.eqb_spec c2 125) as [->|Hc125].
    + intros [= <- <-].
      exists (cs ++ QUOTE :: ws1 ++ 58 :: ws2 ++ pv ++ e :: ws3).
      split; [by assoc|]. intros r' [|m] Hm; [lia|]. assoc.
      rewrite object_items_unfold, Hcs. cbn [mbind option_bind].
      rewrite skip_ws_app by done. change (58 =? 58) with true. cbn iota.
      rewrite Hsk, (Hloc (ws3 ++ 125 :: r') m);
        [|apply number_follow_close; auto|len Hm].
      cbn [mbind option_bind]. by rewrite skip_ws_app.
    + destruct (N.eqb_spec c2 44) as [->|]; [|done].
      destruct (skip_ws r3) as [|c3 r4] eqn:Hw; [done|].
      apply skip_ws_inv in Hw as (ws4 & -> & Hws4 & Hc3).
      destruct (N.eqb_spec c3 QUOTE) as [->|]; [|done].
      destruct (object_items n r4) as [[pairs r5]|] eqn:Ho; [|done].
      intros [= <- <-]. destruct (IHo _ _ _ Ho) as (po & -> & Hpo).
      exists (cs ++ QUOTE :: ws1 ++ 58 :: ws2 ++ pv ++ e :: ws3
              ++ 44 :: ws4 ++ QUOTE :: po).
      split; [by assoc|]. intros r' [|m] Hm; [lia|]. assoc.
      rewrite object_items_unfold, Hcs. cbn [mbind option_bind].
      rewrite skip_ws_app by done. change (58 =? 58) with true. cbn iota.
      rewrite Hsk,
        (Hloc (ws3 ++ 44 :: ws4 ++ QUOTE :: po ++ 125 :: r') m);
        [|apply number_follow_close; auto|len Hm].
      cbn [mbind option_bind]. rewrite skip_ws_app by done.
      change (44 =? 125) with false. change (44 =? 44) with true. cbn iota.
      rewrite skip_ws_app by done. change (QUOTE =? QUOTE) with true.
      cbn iota. rewrite (Hpo r' m); [done|]. len Hm.
Qed.

Lemma skip_ws_nil (s : str) :
  skip_ws s = [] → Forall (λ c, py_isspace c = true) s.
Proof.
  induction s as [|a s IH]; [done|]. simpl. destruct (json_ws a) eqn:Ha; [|done].
  intros Hs. constructor; [by apply json_ws_space|by apply IH].
Qed.

(** [json.loads] reads a text and the same text trimmed alike. *)
Lemma json_loads_strip (J : str) (v : json) :
  json_loads J = Some v → json_loads (strip J) = Some v.
Proof.
  intros HJ. destruct (json_loads_no_tick J v HJ) as (_ & c & t & Hct & Hc).
  revert HJ. unfold json_loads at 1.
  destruct (startswith J [65279]); [done|].
  destruct (scan_once _ (skip_ws J)) as [[v' r]|] eqn:Hv; [|done].
  destruct (skip_ws r) eqn:Hr; [|done]. intros [= ->].
  apply skip_ws_nil in Hr.
  destruct (proj1 (scan_local _) _ _ _ Hv) as (p & e & Hp & He & Hloc).
  destruct (skip_ws_replace _ _ _ _ Hp He) as (ws & -> & Hws & _).
  assert (∃ t', p ++ [e] = c :: t') as [t' Ht'].
  { rewrite Hct in Hp. destruct p as [|c' p]; injection Hp as <- _; by eexists. }
  assert (Hstrip : strip (ws ++ p ++ e :: r) = p ++ [e]).
  { unfold strip. rewrite lstrip_spaces
      by (eapply Forall_impl; [done|apply json_ws_space]).
    replace (p ++ e :: r) with ((c :: t') ++ r)
      by (rewrite <- Ht'; by rewrite <- app_assoc).
    cbn [app]. rewrite lstrip_start by by apply value_start_not_space.
    change (c :: t' ++ r) with ((c :: t') ++ r).
    rewrite rstrip_spaces by done. rewrite <- Ht'. by apply rstrip_end. }
  rewrite Hstrip. unfold json_loads. rewrite Ht'. cbn [startswith].
  replace (c =? 65279) with false
    by (symmetry; unfold value_start, is_digit in Hc; chars).
  cbn [andb]. rewrite skip_ws_start by by apply value_start_not_ws.
  specialize (Hloc [] (2 * length (c :: t') + 2)%nat eq_refl).
  rewrite Ht' in Hloc. rewrite Hloc; [done|].
  rewrite <- Ht', length_app. simpl. lia.
Qed.

Local Close Scope N_scope.

(** ** Fences around a JSON text *)

Lemma startswith_app (p x : str) : startswith (p ++ x) p = true.
Proof.
  induction p as [|a p IH]; [by destruct x|]. simpl.
  rewrite N.eqb_refl. exact IH.
Qed.

Lemma strip_code_fences_json (J : str) (v : json) :
  json_loads J = Some v → strip_code_fences J = strip J.
Proof.
  intros (_ & c & t & Hs & Hc)%json_loads_no_tick.
  unfold strip_code_fences, strip.
  rewrite (lstrip_skip_ws J c t Hs) by by apply value_start_not_space.
  destruct (rstrip_head c t) as [t' ->]; [by apply value_start_not_space|].
  simpl. apply value_start_not_tick in Hc.
  by destruct (N.eqb_spec c BACKTICK).
Qed.

(** A text that [json.loads] reads as an array is parsed as that array. *)
Lemma parse_response_json (J : str) (l : list json) :
  json_loads J = Some (JList l) → parse_response J = inr l.
Proof.
  intros H. unfold parse_response.
  by rewrite (strip_code_fences_json J _ H), (json_loads_strip _ _ H).
Qed.

Lemma strip_code_fences_fenced (J tag before after : str) (v : json) :
  json_loads J = Some v →
  NL ∉ tag →
  Forall (λ c, py_isspace c = true) before →
  Forall (λ c, py_isspace c = true) after →
  strip_code_fences (fenced before tag J after) = strip J.
Proof.
  intros [HJ _]%json_loads_no_tick Htag Hb Ha.
  unfold strip_code_fences, fenced.
  assert (strip (before ++ FENCE ++ tag ++ [NL] ++ J ++ [NL] ++ FENCE ++ after)
          = FENCE ++ tag ++ [NL] ++ J ++ [NL] ++ FENCE) as ->.
  { set (inner := BACKTICK :: BACKTICK :: tag ++ [NL] ++ J ++ [NL]
                   ++ [BACKTICK; BACKTICK]).
    assert (FENCE ++ tag ++ [NL] ++ J ++ [NL] ++ FENCE
            = (BACKTICK :: inner) ++ [BACKTICK]) as Hin.
    { unfold FENCE, inner. cbn [app]. do 3 f_equal.
      repeat (rewrite <- ?app_assoc; cbn [app]). done. }
    assert (FENCE ++ tag ++ [NL] ++ J ++ [NL] ++ FENCE ++ after
            = ((BACKTICK :: inner) ++ [BACKTICK]) ++ after) as ->.
    { rewrite <- Hin. by rewrite <- !app_assoc. }
    rewrite Hin. unfold strip. rewrite lstrip_spaces by done.
    cbn [app]. rewrite lstrip_start by done.
    change (BACKTICK :: (inner ++ [BACKTICK]) ++ after)
      with (((BACKTICK :: inner) ++ [BACKTICK]) ++ after).
    rewrite rstrip_spaces by done. by apply rstrip_end. }
  cbv zeta. rewrite startswith_app.
  replace (FENCE ++ tag ++ [NL] ++ J ++ [NL] ++ FENCE)
    with ((FENCE ++ tag) ++ NL :: (J ++ NL :: FENCE))
    by (by rewrite <- app_assoc).
  rewrite !split_app, split_no_sep.
  2:{ intros [H|H]%elem_of_app; [|done].
      repeat (apply elem_of_cons in H as [H|H]; [done|]).
      by apply elem_of_nil in H. }
  rewrite !List.filter_app.
  set (keep := λ l : str, negb (startswith l FENCE)).
  assert (List.filter keep [FENCE ++ tag] = []) as ->.
  { unfold keep. cbn [List.filter]. by rewrite startswith_app. }
  assert (List.filter keep (split NL FENCE) = []) as -> by done.
  rewrite app_nil_r. cbn [app]. rewrite filter_keeps, join_split; [done|].
  apply no_tick_lines in HJ. destruct (split NL J) as [|l ls]; [done|].
  destruct HJ as [Hl Hls]. unfold keep. constructor.
  - by rewrite Hl.
  - eapply Forall_impl; [done|]. by intros l' ->.
Qed.

(** C7. A JSON array text wrapped in a leading fence line, with or without
    a language tag, and a trailing fence line, with whitespace around the
    whole, parses exactly as the array text alone: both give the elements
    of the array. *)
Theorem fenced_array_parses_alike (J tag before after : str) (l : list json) :
  json_loads J = Some (JList l) →
  NL ∉ tag →
  Forall (λ c, py_isspace c = true) before →
  Forall (λ c, py_isspace c = true) after →
  parse_response (fenced before tag J after) = parse_response J
  ∧ parse_response J = inr l.
Proof.
  intros HJ Htag Hb Ha. split; [|by apply parse_response_json].
  unfold parse_response.
  by rewrite (strip_code_fences_fenced J tag before after _ HJ),
    (strip_code_fences_json J _ HJ).
Qed.

(** [fenced_array_parses_alike] on a two-line array in a fence tagged
    json, after a blank and before a form feed and a line feed. *)
Lemma fenced_array_parses_alike_witness :
  json_loads (lit "[{}," ++ [NL] ++ lit " 1]")
  = Some (JList [JDict []; JInt 1])
  ∧ parse_response
      (fenced [SPACE] (lit "json") (lit "[{}," ++ [NL] ++ lit " 1]") [12%N; NL])
    = parse_response (lit "[{}," ++ [NL] ++ lit " 1]")
  ∧ parse_response (lit "[{}," ++ [NL] ++ lit " 1]") = inr [JDict []; JInt 1].
Proof.
  split; [vm_compute; reflexivity|].
  apply (fenced_array_parses_alike _ (lit "json") [SPACE] [12%N; NL]).
  - vm_compute. reflexivity.
  - intros H. repeat (apply elem_of_cons in H as [H|H]; [discriminate|]).
    by apply elem_of_nil in H.
  - by repeat constructor.
  - by repeat constructor.
Defined.

(** The fence lines are recognised at the start of a line only: a closing
    fence that is indented stays in the text, which then is not JSON. *)
Example indented_closing_fence_is_kept :
  parse_response (FENCE ++ [NL] ++ lit "[1]" ++ [NL; SPACE] ++ FENCE)
  = inl JSONDecodeError
  ∧ parse_response (FENCE ++ [NL] ++ lit "[1]" ++ [NL] ++ FENCE ++ [SPACE])
    = inr [JInt 1].
Proof. split; vm_compute; reflexivity. Qed.

(** ** Backends that answer with well-formed arrays *)

(** The parser returns the records of an array written by [json.dumps]. *)
Lemma parse_response_dumps (l : list json) :
  forallb json_ok l = true → parse_response (json_dumps (JList l)) = inr l.
Proof. intros Hl. by apply parse_response_json, json_loads_dumps. Qed.

Lemma json_ok_nulls (n : nat) : forallb json_ok (replicate n JNull) = true.
Proof. induction n; [done|]. simpl. done. Qed.

Lemma parse_null_array (n : Z) :
  parse_response (null_array n) = inr (replicate (Z.to_nat n) JNull).
Proof. apply parse_response_dumps, json_ok_nulls. Qed.

Lemma obedient_world_exact (round : nat) (j : BatchJob) :
  succeeds_exactly obedient_world round j.
Proof.
  exists (replicate (Z.to_nat (num_incidents j)) JNull).
  split; [apply parse_null_array|apply length_replicate].
Qed.

Lemma flaky_world_exact_when_ok : exact_when_ok flaky_world.
Proof.
  intros round j batch. unfold job_result. simpl.
  case_bool_decide; [done|]. simpl. rewrite parse_null_array.
  intros [= <-]. apply length_replicate.
Qed.

Lemma flaky_world_recovers (round : nat) (j : BatchJob) :
  (1 ≤ round)%nat → succeeds_exactly flaky_world round j.
Proof.
  intros Hr. exists (replicate (Z.to_nat (num_incidents j)) JNull).
  unfold job_result. simpl. rewrite bool_decide_eq_false_2 by lia. simpl.
  split; [apply parse_null_array|apply length_replicate].
Qed.

Lemma calm_quiet (w : World) : interrupt w = calm → quiet w.
Proof. intros H round k p. by rewrite H. Qed.

(** ** Runs in which batches succeed *)

Lemma merge_saves_exact (w : World) (round : nat) (completed : list BatchJob) :
  Forall (succeeds_exactly w round) completed →
  ∀ st,
    length (saves (foldl (merge_result w round) st completed))
    = (length (saves st) + length completed)%nat.
Proof.
  induction 1 as [|j completed (b & Hb & _) _ IH]; intros st; simpl; [lia|].
  rewrite IH. unfold merge_result. rewrite Hb. simpl.
  rewrite length_app. simpl. lia.
Qed.

Lemma run_round_saves_exact (w : World) (T B W : Z) (round : nat)
    (st st' : state) (jobs : list BatchJob) :
  quiet w →
  (∀ j, succeeds_exactly w round j) →
  dispatch_round (len_all st) T B W = inr jobs →
  run_round w T B W round st = (None, st') →
  length (saves st') = (length (saves st) + length jobs)%nat.
Proof.
  intros Hq Hok Hd. unfold run_round. rewrite Hq. fold (len_all st).
  rewrite Hd, collect_results_quiet by done. intros [= <-].
  rewrite merge_saves_exact by (apply Forall_forall; auto).
  simpl. by rewrite as_completed_perm.
Qed.

(** What the failed jobs asked for is what the successful ones did not
    deliver of the round's request. *)
Lemma failed_budget (w : World) (round : nat) (jobs : list BatchJob) :
  exact_when_ok w →
  Forall (λ j, 0 <= num_incidents j) jobs →
  requested (List.filter (job_failed w round) jobs)
  + delivered_count w round jobs
  = requested jobs.
Proof.
  intros Hw. unfold requested, delivered_count.
  induction 1 as [|j jobs Hj _ IH]; [done|].
  cbn [List.filter foldr]. unfold job_failed at 1, delivered at 1.
  destruct (job_result w round j) as [e|b] eqn:Hb; cbn [foldr length].
  - lia.
  - apply Hw in Hb. lia.
Qed.

(** C3. Resuming from a checkpoint with [K] records towards a target
    [T > K], with every submitted batch succeeding and returning exactly
    the requested count: the sizes requested over all rounds add up to
    [T - K], and the loop ends with exactly [T] records. The last save is
    handed the whole collection, and when the writes go through the file
    reads back as that collection. *)
Theorem resume_requests_the_remainder (w : World) (f : file_state)
    (existing : list json) (T B W : Z) :
  load_existing_incidents f = JList existing →
  Z.of_nat (length existing) < T →
  1 <= B → 1 <= W →
  quiet w →
  (∀ round j, succeeds_exactly w round j) →
  let K := Z.of_nat (length existing) in
  ∃ st',
    (∀ fuel, (Z.to_nat (T - K) ≤ fuel)%nat →
       generation_loop fuel w T B W 0 (mkState existing f [] [])
       = Some (None, st'))
    ∧ requested (concat (submitted st')) = T - K
    ∧ len_all st' = T
    ∧ last (saves st') = Some (all_incidents st')
    ∧ ((∀ n, disk w n = Written) →
       load_existing_incidents (temp_file st') = JList (all_incidents st')).
Proof.
  intros Hload HK HB HW Hq Hok K.
  set (st := mkState existing f [] []).
  destruct (generation_loop_exact w T B W Hq HB HW (Z.to_nat (T - K)) 0 st)
    as (st' & rounds & Hrun & HT & Hsub & Hreq & Hck);
    [auto|unfold len_all; simpl; lia|unfold len_all; simpl; lia|].
  assert (Hne : rounds ≠ []).
  { intros ->. unfold len_all in Hreq. simpl in Hreq. fold K in Hreq.
    change (requested []) with 0 in Hreq. lia. }
  destruct (Hck (or_introl Hne)) as [Hlast Hfile].
  exists st'. split_and!; [|by rewrite Hsub|done|done|].
  - intros fuel Hfuel. by eapply generation_loop_mono.
  - intros Hdisk. rewrite (Hfile (Hdisk _)). apply load_dumped.
    eapply generation_loop_records_ok; [done|].
    by apply load_existing_incidents_ok in Hload.
Qed.

(** [resume_requests_the_remainder] on a checkpoint that holds
    [sample_records], towards 7 records with the default batch size and
    worker count. *)
Lemma resume_requests_the_remainder_witness :
  ∃ st',
    generation_loop 5 obedient_world 7 5 3 0
      (mkState sample_records (Text (json_dumps (JList sample_records))) [] [])
    = Some (None, st')
    ∧ requested (concat (submitted st')) = 7 - 2
    ∧ len_all st' = 7
    ∧ load_existing_incidents (temp_file st') = JList (all_incidents st').
Proof.
  destruct (resume_requests_the_remainder obedient_world
              (Text (json_dumps (JList sample_records))) sample_records 7 5 3)
    as (st' & Hrun & Hreq & Hlen & _ & Hfile).
  - vm_compute. reflexivity.
  - simpl. lia.
  - lia.
  - lia.
  - by apply calm_quiet.
  - apply obedient_world_exact.
  - exists st'. split_and!; [apply Hrun; simpl; lia|done|done|by apply Hfile].
Defined.

(** C2. Target 10, batch size 4, two workers, an empty collection, every
    batch succeeding with exactly the requested count: the loop runs
    exactly two rounds, with batches of 4 and 4 and then one of 2; the
    final collection has 10 records; the three saves end with the whole
    collection, which is what the file holds, and what loading it gives
    back, when that write goes through. *)
Theorem end_to_end_scenario (w : World) (f : file_state) :
  quiet w →
  (∀ round j, succeeds_exactly w round j) →
  ∃ st',
    generation_loop 1 w 10 4 2 0 (mkState [] f [] []) = None
    ∧ (∀ fuel, (2 ≤ fuel)%nat →
         generation_loop fuel w 10 4 2 0 (mkState [] f [] [])
         = Some (None, st'))
    ∧ submitted st' = [[mkJob 4 0; mkJob 4 4]; [mkJob 2 8]]
    ∧ length (all_incidents st') = 10%nat
    ∧ length (saves st') = 3%nat
    ∧ last (saves st') = Some (all_incidents st')
    ∧ (disk w 2 = Written →
       temp_file st' = Text (json_dumps (JList (all_incidents st')))
       ∧ load_existing_incidents (temp_file st')
         = JList (all_incidents st')).
Proof.
  intros Hq Hok. set (st0 := mkState [] f [] []).
  assert (Hl0 : len_all st0 = 0) by done.
  destruct (run_round_planned w 10 4 2 0 st0 Hq) as
    (st1 & Hr1 & _ & Hsub1 & Hlen1 & _ & Hpos1 & Hck1); [lia|lia|lia|].
  pose proof (dispatch_round_planned (len_all st0) 10 4 2 ltac:(lia)) as Hd0.
  rewrite Hl0 in Hsub1, Hlen1, Hpos1, Hck1, Hd0.
  change (planned_job 0 (10 - 0) 4 <$> seqZ 0 (Z.min 2 ((10 - 0 + 4 - 1) / 4)))
    with [mkJob 4 0; mkJob 4 4] in *.
  rewrite delivered_count_exact in Hlen1
    by (done || apply Forall_forall; auto).
  change (0 + requested [mkJob 4 0; mkJob 4 4]) with 8 in Hlen1.
  pose proof (run_round_saves_exact w 10 4 2 0 st0 st1 _ Hq (Hok 0%nat)
                Hd0 Hr1) as Hs1.
  destruct (run_round_planned w 10 4 2 1 st1 Hq) as
    (st2 & Hr2 & _ & Hsub2 & Hlen2 & _ & Hpos2 & Hck2); [lia|lia|lia|].
  pose proof (dispatch_round_planned (len_all st1) 10 4 2 ltac:(lia)) as Hd1.
  rewrite Hlen1 in Hsub2, Hlen2, Hpos2, Hck2, Hd1.
  change (planned_job 8 (10 - 8) 4 <$> seqZ 0 (Z.min 2 ((10 - 8 + 4 - 1) / 4)))
    with [mkJob 2 8] in *.
  rewrite delivered_count_exact in Hlen2
    by (done || apply Forall_forall; auto).
  change (8 + requested [mkJob 2 8]) with 10 in Hlen2.
  rewrite <- Hlen1 in Hd1.
  pose proof (run_round_saves_exact w 10 4 2 1 st1 st2 _ Hq (Hok 1%nat)
                Hd1 Hr2) as Hs2.
  assert (Hck : checkpoint_current w st2).
  { apply Hck2. right. destruct (Hok 1%nat (mkJob 2 8)) as (b & Hb & _).
    exists (mkJob 2 8), b. split; [apply elem_of_cons; by left|done]. }
  assert (Hn : length (saves st2) = 3%nat) by (rewrite Hs2, Hs1; done).
  exists st2. split_and!.
  - rewrite generation_loop_step, Hr1 by lia.
    apply generation_loop_out_of_fuel. lia.
  - intros [|[|fuel]] Hfuel; [lia|lia|].
    rewrite generation_loop_step, Hr1 by lia.
    rewrite generation_loop_step, Hr2 by lia.
    apply generation_loop_stop. lia.
  - by rewrite Hsub2, Hsub1.
  - unfold len_all in Hlen2. lia.
  - done.
  - apply Hck.
  - destruct Hck as [_ Hfile]. rewrite Hn in Hfile. intros Hw.
    split; [by apply Hfile|]. rewrite (Hfile Hw). apply load_dumped.
    apply (generation_loop_records_ok w 10 4 2 2 0%nat st0 None st2);
      [|done].
    rewrite generation_loop_step, Hr1 by lia.
    rewrite generation_loop_step, Hr2 by lia.
    apply generation_loop_stop. lia.
Qed.

(** [end_to_end_scenario] with the backend that returns what is asked
    for, on a fresh run. *)
Lemma end_to_end_scenario_witness :
  ∃ st',
    generation_loop 2 obedient_world 10 4 2 0 fresh = Some (None, st')
    ∧ submitted st' = [[mkJob 4 0; mkJob 4 4]; [mkJob 2 8]]
    ∧ length (all_incidents st') = 10%nat
    ∧ load_existing_incidents (temp_file st') = JList (all_incidents st').
Proof.
  destruct (end_to_end_scenario obedient_world Missing)
    as (st' & _ & Hrun & Hsub & Hlen & _ & _ & Hfile).
  - by apply calm_quiet.
  - apply obedient_world_exact.
  - exists st'. split_and!; [by apply Hrun|done|done|by apply Hfile].
Defined.

(** C4. When a batch job fails in a round, the failure is caught where its
    result is collected: the batch adds no record, the round goes on with
    the other batches and the run with the next round, whose remaining
    count is the target minus the records merged so far and therefore
    includes what the failed batch was asked for. If, from some round on,
    every batch succeeds, the run ends with the target reached, and with
    exactly the target when successful batches return what was asked. *)
Theorem failed_batches_roll_over (w : World) (T B W : Z) (round : nat)
    (st : state) :
  quiet w → 1 <= B → 1 <= W → len_all st < T →
  ∃ jobs st',
    dispatch_round (len_all st) T B W = inr jobs
    ∧ run_round w T B W round st = (None, st')
    ∧ (∀ j, job_failed w round j = true → delivered w round j = [])
    ∧ all_incidents st' = all_incidents st ++ merged w round jobs
    ∧ T - len_all st' = T - len_all st - delivered_count w round jobs
    ∧ (exact_when_ok w →
       requested (List.filter (job_failed w round) jobs) <= T - len_all st'
       ∧ ∀ k,
           (∀ r j, (round + k ≤ r)%nat → succeeds_exactly w r j) →
           ∃ st'',
             (∀ fuel, (k + Z.to_nat (T - len_all st) ≤ fuel)%nat →
                generation_loop fuel w T B W round st = Some (None, st''))
             ∧ len_all st'' = T).
Proof.
  intros Hq HB HW HL.
  destruct (run_round_planned w T B W round st Hq HB HW HL)
    as (st' & Hrun & Hall & _ & Hlen & Hreq & Hpos & _).
  set (jobs := planned_job _ _ _ <$> _) in *.
  exists jobs, st'. split_and!.
  - by apply dispatch_round_planned.
  - done.
  - intros j. unfold job_failed, delivered.
    by destruct (job_result w round j).
  - done.
  - lia.
  - intros Hw. split.
    + pose proof (failed_budget w round jobs Hw Hpos). lia.
    + intros k Hok.
      destruct (generation_loop_recovers w T B W Hq HB HW Hw k
                  (k + Z.to_nat (T - len_all st)) round st)
        as (st'' & Hloop & HT); [done|lia|lia|].
      exists st''. split; [|done]. intros fuel Hfuel.
      by eapply generation_loop_mono.
Qed.

(** [failed_batches_roll_over] on a run whose first job fails in round 0:
    target 10, batches of 4, two workers. *)
Lemma failed_batches_roll_over_witness :
  job_failed flaky_world 0 (mkJob 4 0) = true
  ∧ ∃ st'',
      generation_loop 11 flaky_world 10 4 2 0 fresh = Some (None, st'')
      ∧ len_all st'' = 10.
Proof.
  split; [vm_compute; reflexivity|].
  destruct (failed_batches_roll_over flaky_world 10 4 2 0 fresh)
    as (jobs & st' & _ & _ & _ & _ & _ & Hexact).
  - by apply calm_quiet.
  - lia.
  - lia.
  - unfold len_all. simpl. lia.
  - destruct (Hexact flaky_world_exact_when_ok) as [_ Hrec].
    destruct (Hrec 1%nat) as (st'' & Hloop & HT).
    + intros r j Hr. apply flaky_world_recovers. lia.
    + exists st''. split; [|done]. apply Hloop. vm_compute. lia.
Defined.

(** * Further properties of the code *)

(** ** The parser and the text around a reply *)

Lemma lstrip_all_space (s : str) :
  Forall (λ c, py_isspace c = true) s → lstrip s = [].
Proof. induction 1 as [|c s Hc _ IH]; [done|]. simpl. by rewrite Hc. Qed.

Lemma lstrip_cases (s : str) :
  (Forall (λ c, py_isspace c = true) s ∧ lstrip s = [])
  ∨ ∃ ws c t, s = ws ++ c :: t ∧ Forall (λ c, py_isspace c = true) ws
              ∧ py_isspace c = false ∧ lstrip s = c :: t.
Proof.
  induction s as [|a s IH]; [by left|]. simpl.
  destruct (py_isspace a) eqn:Ha.
  - destruct IH as [[Hall Hs]|(ws & c & t & -> & Hws & Hc & Hs)].
    + left. split; [by constructor|done].
    + right. exists (a :: ws), c, t. split_and!; [done|by constructor|done|done].
  - right. by exists [], a, s.
Qed.

Lemma strip_surrounded (before raw after : str) :
  Forall (λ c, py_isspace c = true) before →
  Forall (λ c, py_isspace c = true) after →
  strip (before ++ raw ++ after) = strip raw.
Proof.
  intros Hb Ha. unfold strip. rewrite lstrip_spaces by done.
  destruct (lstrip_cases raw) as [[Hall Hs]|(ws & c & t & -> & Hws & Hc & Hs)].
  - rewrite Hs, lstrip_spaces by done. by rewrite lstrip_all_space.
  - rewrite Hs, <- app_assoc, lstrip_spaces by done. cbn [app].
    rewrite lstrip_start by done.
    change (c :: t ++ after) with ((c :: t) ++ after).
    by apply rstrip_spaces.
Qed.

(** X1. White space before and after a reply, of any kind that [strip]
    removes, has no influence on what the parser returns, whether records
    or an error. *)
Theorem parse_response_surrounding_space (before raw after : str) :
  Forall (λ c, py_isspace c = true) before →
  Forall (λ c, py_isspace c = true) after →
  parse_response (before ++ raw ++ after) = parse_response raw.
Proof.
  intros Hb Ha. unfold parse_response, strip_code_fences.
  by rewrite strip_surrounded.
Qed.

(** [parse_response_surrounding_space] on an unfinished array between a line feed and a no-break space, and a form feed and a blank. *)
Lemma parse_response_surrounding_space_witness :
  parse_response ([NL; 160%N] ++ lit "[1, 2" ++ [12%N; SPACE])
  = parse_response (lit "[1, 2").
Proof.
  apply parse_response_surrounding_space; by repeat constructor.
Defined.

Local Open Scope N_scope.

Lemma no_tick_line_starts (s : str) (bol : bool) :
  no_tick_line bol s = true →
  match split NL s with
  | [] => False
  | l :: ls =>
      (bol = true → startswith l [BACKTICK] = false)
      ∧ Forall (λ l, startswith l [BACKTICK] = false) ls
  end.
Proof.
  revert bol. induction s as [|c s IH]; intros bol; simpl; [done|].
  intros [Hc Hs]%andb_true_iff. specialize (IH _ Hs).
  destruct (N.eqb_spec c NL) as [->|Hne].
  - destruct (split NL s) as [|l ls]; [done|]. destruct IH as [Hl Hls].
    split; [done|]. constructor; auto.
  - destruct (split NL s) as [|l ls]; [done|]. destruct IH as [_ Hls].
    split; [|done]. intros ->. simpl in *.
    by destruct (N.eqb_spec c BACKTICK).
Qed.

Local Close Scope N_scope.

(** X2. Fence lines are removed only from a reply that begins with one.
    When the trimmed reply begins with anything else and one of its lines
    begins with a backtick (a code block after an introductory sentence,
    say), the reply is not parsed: decoding fails. *)
Theorem fence_after_other_text_fails (raw : str) :
  startswith (strip raw) FENCE = false →
  Exists (λ l, startswith l [BACKTICK] = true) (split NL (strip raw)) →
  parse_response raw = inl JSONDecodeError.
Proof.
  intros Hstart Hline. unfold parse_response, strip_code_fences.
  rewrite Hstart.
  destruct (json_loads (strip raw)) as [v|] eqn:Hv; [|done]. exfalso.
  apply json_loads_no_tick in Hv as [Htick _].
  apply no_tick_line_starts in Htick.
  destruct (split NL (strip raw)) as [|l ls]; [done|].
  destruct Htick as [Hl Hls]. apply Exists_cons in Hline as [Hline|Hline].
  - by rewrite Hl in Hline.
  - apply Exists_exists in Hline as (l' & Hin & Hl').
    rewrite Forall_forall in Hls. by rewrite Hls in Hl'.
Qed.

(** [fence_after_other_text_fails] on a fenced array announced by a word. *)
Lemma fence_after_other_text_fails_witness :
  parse_response (lit "Here:" ++ [NL] ++ FENCE ++ lit "json" ++ [NL]
                  ++ lit "[]" ++ [NL] ++ FENCE)
  = inl JSONDecodeError.
Proof.
  apply fence_after_other_text_fails.
  - vm_compute. reflexivity.
  - apply Exists_cons_tl, Exists_cons_hd. vm_compute. reflexivity.
Defined.

(** ** A checkpoint cut short *)

Local Open Scope N_scope.

Lemma scan_once_list_start (fuel : nat) (c : N) (t r : str) (l : list json) :
  scan_once fuel (c :: t) = Some (JList l, r) → c = 91.
Proof.
  destruct fuel as [|n]; [done|].
  destruct (N.eqb_spec c QUOTE) as [->|Hq].
  { rewrite scan_once_quote. by destruct (scanstring t) as [[??]|]. }
  destruct (N.eqb_spec c 123) as [->|Hb].
  { rewrite scan_once_object. destruct (skip_ws t) as [|c1 rr]; [done|].
    destruct (c1 =? 125); [done|]. destruct (c1 =? QUOTE); [|done].
    by destruct (object_items n rr) as [[??]|]. }
  destruct (N.eqb_spec c 91) as [->|Ha]; [done|].
  rewrite scan_once_atom by done. unfold scan_atom.
  repeat (match goal with
          | |- context [match strip_prefix ?p ?s with _ => _ end] =>
              destruct (strip_prefix p s); [done|]
          end).
  destruct (match_number (c :: t)) as [[v' r']|] eqn:Hm.
  { intros [= -> ->]. by destruct (match_number_kind _ _ _ Hm) as [[??]|[??]]. }
  repeat (match goal with
          | |- context [match strip_prefix ?p ?s with _ => _ end] =>
              destruct (strip_prefix p s); [done|]
          end).
  done.
Qed.

(** An array is read alike whatever follows its closing bracket. *)
Lemma scan_once_array_local (fuel : nat) (t r : str) (v : json) :
  scan_once fuel (91 :: t) = Some (v, r) →
  ∃ p, 91 :: t = p ++ 93 :: r
       ∧ ∀ r' m, (length p < m)%nat →
                 scan_once m (p ++ 93 :: r') = Some (v, r').
Proof.
  destruct fuel as [|n]; [done|]. rewrite scan_once_array.
  destruct (skip_ws t) as [|c1 rr] eqn:Hw; [done|].
  apply skip_ws_inv in Hw as (ws & -> & Hws & Hc1).
  destruct (N.eqb_spec c1 93) as [->|Hc].
  - intros [= <- <-]. exists (91 :: ws). split; [done|].
    intros r' [|m] Hm; [simpl in Hm; lia|]. cbn [app].
    by rewrite scan_once_array, skip_ws_app.
  - destruct (array_items n (c1 :: rr)) as [[vs r0]|] eqn:Hi; [|done].
    intros [= <- <-].
    destruct (proj1 (proj2 (scan_local n)) _ _ _ Hi) as (pa & Hpa & Hloc).
    destruct pa as [|c' pa]; [by injection Hpa|]. injection Hpa as <- ->.
    exists (91 :: ws ++ c1 :: pa). split; [by assoc|].
    intros r' [|m] Hm; [simpl in Hm; lia|]. assoc.
    rewrite scan_once_array, skip_ws_app by done.
    destruct (N.eqb_spec c1 93); [done|].
    specialize (Hloc r' m). cbn [app] in Hloc. rewrite Hloc; [done|]. len Hm.
Qed.

Lemma skip_ws_app_start (p q : str) (c : N) (t : str) :
  skip_ws p = c :: t → skip_ws (p ++ q) = c :: t ++ q.
Proof.
  intros (ws & -> & Hws & Hc)%skip_ws_inv. rewrite <- app_assoc. cbn [app].
  by apply skip_ws_app.
Qed.

Local Close Scope N_scope.

(** [json.loads] refuses every proper initial part of a text that it reads
    as an array and that ends with the closing bracket. *)
Lemma json_loads_array_prefix (text : str) (l : list json) (n : nat) :
  json_loads text = Some (JList l) →
  last text = Some 93%N →
  (n < length text)%nat →
  json_loads (take n text) = None.
Proof.
  intros Htext Hlast Hn.
  destruct (json_loads (take n text)) as [v|] eqn:Hp; [|done]. exfalso.
  set (p := take n text) in *. set (q := drop n text).
  assert (Hpq : text = p ++ q) by (symmetry; apply take_drop).
  assert (Hq : last q = Some 93%N).
  { rewrite Hpq, last_app in Hlast. destruct (last q) eqn:Hl; [done|].
    apply last_None in Hl. unfold q in Hl.
    apply (f_equal length) in Hl. rewrite length_drop in Hl. simpl in Hl. lia. }
  destruct (json_loads_no_tick p v Hp) as (_ & c & t & Hct & _).
  revert Hp Htext. unfold json_loads.
  destruct (startswith p _); [done|]. destruct (startswith text _); [done|].
  rewrite Hpq at 2. rewrite (skip_ws_app_start p q c t Hct), Hct.
  destruct (scan_once _ (c :: t)) as [[v' r]|] eqn:Hv; [|done].
  destruct (skip_ws r) eqn:Hr; [|done]. intros [= ->].
  destruct (scan_once _ (c :: t ++ q)) as [[v'' r2]|] eqn:Hv2; [|done].
  destruct (skip_ws r2) eqn:Hr2; [|done]. intros [= ->].
  apply scan_once_list_start in Hv2 as Hc. subst c.
  destruct (scan_once_array_local _ _ _ _ Hv) as (p0 & Hp0 & Hloc).
  assert (Hlen : (length p0 < 2 * length text + 2)%nat).
  { apply (f_equal length) in Hp0. rewrite Hpq, length_app.
    apply (f_equal length) in Hct. simpl in Hp0, Hct.
    rewrite length_app in Hp0. simpl in Hp0.
    assert (length (skip_ws p) ≤ length p)%nat; [|lia].
    clear. induction p as [|a p IH]; simpl; [lia|].
    destruct (json_ws a); simpl; lia. }
  specialize (Hloc (r ++ q) _ Hlen).
  replace (p0 ++ 93%N :: r ++ q) with (91%N :: t ++ q) in Hloc.
  2:{ change (91%N :: t ++ q) with ((91%N :: t) ++ q). rewrite Hp0.
      rewrite <- app_assoc. done. }
  rewrite Hloc in Hv2. injection Hv2 as _ <-.
  apply skip_ws_nil in Hr2. apply Forall_app in Hr2 as [_ Hq2].
  destruct (last_Some q 93%N) as [Hex _]. destruct (Hex Hq) as [q' ->].
  apply Forall_app in Hq2 as [_ H93]. rewrite Forall_singleton in H93.
  by vm_compute in H93.
Qed.

Lemma json_dumps_list_last (l : list json) :
  last (json_dumps (JList l)) = Some 93%N.
Proof.
  unfold json_dumps. destruct l as [|x xs]; [done|].
  rewrite encode_list_cons, !app_assoc. change (lit "]") with [93%N].
  apply last_snoc.
Qed.

(** X3. A checkpoint write that is cut short leaves a file that the next
    run cannot use: whatever proper initial part of the dump reached the
    file, loading it gives the empty collection, so all progress of the
    run is lost on resume. *)
Theorem torn_checkpoint_loads_empty (X : list json) (f : file_state)
    (n : nat) :
  forallb json_ok X = true →
  (n < length (json_dumps (JList X)))%nat →
  load_existing_incidents (save_incidents_to_temp (Torn n) X f) = JList [].
Proof.
  intros HX Hn. unfold save_incidents_to_temp, load_existing_incidents.
  rewrite (json_loads_array_prefix _ X); [done| | |done].
  - by apply json_loads_dumps.
  - apply json_dumps_list_last.
Qed.

(** [torn_checkpoint_loads_empty] on the first 40 characters of the dump of [sample_records]. *)
Lemma torn_checkpoint_loads_empty_witness :
  load_existing_incidents
    (save_incidents_to_temp (Torn 40) sample_records Missing)
  = JList [].
Proof.
  apply torn_checkpoint_loads_empty; [vm_compute; reflexivity|].
  vm_compute. lia.
Defined.

(** ** The configuration file *)

Lemma filter_keys_NoDup (p : str * json → bool) (d : list (str * json)) :
  NoDup d.*1 → NoDup (List.filter p d).*1.
Proof.
  induction d as [|kv d IH]; [done|]. rewrite fmap_cons.
  intros [Hk Hd]%NoDup_cons. simpl. destruct (p kv); [|by apply IH].
  rewrite fmap_cons. apply NoDup_cons. split; [|by apply IH].
  intros Hin. apply Hk. apply list_elem_of_fmap in Hin as (kv' & -> & Hin).
  apply list_elem_of_fmap. exists kv'. split; [done|].
  apply list_elem_of_In, filter_In in Hin as [Hin _].
  by apply list_elem_of_In.
Qed.

Lemma filter_Forall {A} (p : A → bool) (l : list A) :
  Forall (λ x, p x = true) (List.filter p l).
Proof.
  apply Forall_forall. intros x Hin.
  by apply list_elem_of_In, filter_In in Hin as [_ ?].
Qed.

Lemma clean_section_filter (d : list (str * json)) :
  NoDup d.*1 →
  clean_section d = List.filter (λ kv, negb (is_comment_key kv.1)) d.
Proof. intros Hd. by apply dict_of_pairs_NoDup, filter_keys_NoDup. Qed.

(** On a decoded object the loop of lines 116-123 is a filter and a map. *)
Lemma clean_config_filter (config : list (str * json)) :
  json_ok (JDict config) = true →
  clean_config config
  = (λ kv, (kv.1, match kv.2 with
                  | JDict value =>
                      JDict (List.filter
                               (λ kv', negb (is_comment_key kv'.1)) value)
                  | value => value
                  end))
    <$> List.filter (λ kv, negb (is_comment_key kv.1)) config.
Proof.
  intros [Hnd Hok]%andb_true_iff. apply bool_decide_eq_true in Hnd.
  unfold clean_config.
  set (step := λ (cleaned_config : list (str * json)) (kv : str * json), _).
  set (entry := λ kv : str * json, _).
  assert (Hgen : ∀ acc,
    NoDup ((acc ++ config).*1) →
    foldl step acc config
    = acc ++ (entry <$> List.filter (λ kv, negb (is_comment_key kv.1)) config)).
  { clear Hnd. induction config as [|[k v] config IH]; intros acc Hacc.
    - simpl. by rewrite app_nil_r.
    - simpl in Hok. apply andb_true_iff in Hok as [Hv Hok].
      cbn [foldl List.filter]. unfold step at 2. cbn [fst snd].
      rewrite fmap_app, fmap_cons in Hacc. cbn [fst] in Hacc.
      destruct (is_comment_key k) eqn:Hk; cbn [negb].
      + apply IH; [done|]. rewrite fmap_app.
        apply NoDup_app in Hacc as (H1 & H2 & H3).
        apply NoDup_cons in H3 as [_ H3]. apply NoDup_app.
        split_and!; [done| |done]. intros x Hx Hx'. apply (H2 x Hx).
        apply elem_of_cons. by right.
      + assert (Hfresh : k ∉ acc.*1).
        { apply NoDup_app in Hacc as (_ & H2 & _). intros Hin.
          apply (H2 k Hin). apply elem_of_cons. by left. }
        assert (Hnext : ∀ v', NoDup (((acc ++ [(k, v')]) ++ config).*1)).
        { intros v'. rewrite <- app_assoc, fmap_app. cbn [app fmap list_fmap].
          exact Hacc. }
        rewrite fmap_cons, (cons_middle _ acc), app_assoc.
        destruct v as [ | | | | |l|d]; rewrite dict_set_fresh by done;
          try (rewrite IH by (done || apply Hnext); done).
        rewrite IH by (done || apply Hnext). do 2 f_equal.
        unfold entry. cbn [fst snd]. do 3 f_equal.
        apply clean_section_filter. simpl in Hv.
        apply andb_true_iff in Hv as [Hd _]. by apply bool_decide_eq_true in Hd. }
  apply (Hgen []). by rewrite app_nil_l.
Qed.

(** What [load_config] returns, as a filter and a map of the decoded
    object. *)
Lemma load_config_filter (f : file_state) (c : list (str * json)) :
  load_config f = Some c →
  ∃ content config,
    f = Text content
    ∧ json_loads content = Some (JDict config)
    ∧ c = (λ kv, (kv.1, match kv.2 with
                        | JDict value =>
                            JDict (List.filter
                                     (λ kv', negb (is_comment_key kv'.1))
                                     value)
                        | value => value
                        end))
          <$> List.filter (λ kv, negb (is_comment_key kv.1)) config.
Proof.
  destruct f as [| |content]; try done. unfold load_config.
  destruct (json_loads content) as [[ | | | | | |config]|] eqn:Hc; try done.
  intros [= <-]. exists content, config. split_and!; [done|done|].
  apply clean_config_filter. by apply json_loads_ok in Hc.
Qed.

(** X4. What [load_config] returns holds no comment key: no key of the
    configuration begins with an underscore, and neither does a key of
    any object that is the value of one of its entries. *)
Theorem load_config_drops_comment_keys (f : file_state)
    (c : list (str * json)) :
  load_config f = Some c →
  Forall (λ kv, is_comment_key kv.1 = false
                ∧ ∀ value, kv.2 = JDict value →
                    Forall (λ kv', is_comment_key kv'.1 = false) value) c.
Proof.
  intros (content & config & _ & _ & ->)%load_config_filter.
  apply Forall_fmap.
  eapply Forall_impl;
    [apply (filter_Forall (λ kv, negb (is_comment_key kv.1)))|].
  intros [k v] Hk. simpl in *. apply negb_true_iff in Hk. split; [done|].
  intros value Hv. destruct v; try done. injection Hv as <-.
  eapply Forall_impl;
    [apply (filter_Forall (λ kv', negb (is_comment_key kv'.1)))|].
  intros kv' Hk'. by apply negb_true_iff in Hk'.
Qed.

(** [load_config_drops_comment_keys] on [sample_config]. *)
Lemma load_config_drops_comment_keys_witness :
  ∃ c,
    load_config (Text (json_dumps sample_config)) = Some c
    ∧ Forall (λ kv, is_comment_key kv.1 = false
                    ∧ ∀ value, kv.2 = JDict value →
                        Forall (λ kv', is_comment_key kv'.1 = false) value) c.
Proof.
  eexists. split; [vm_compute; reflexivity|].
  apply (load_config_drops_comment_keys (Text (json_dumps sample_config))).
  vm_compute. reflexivity.
Defined.

(** X5. [load_config] changes nothing but the comment keys: the entries
    whose key does not begin with an underscore are kept in the order of
    the file; a value that is not an object is kept as it is, and an
    object loses the entries of its own whose key begins with an
    underscore and nothing else, so that anything nested more deeply,
    comment keys included, is returned untouched. *)
Theorem load_config_keeps_the_rest (f : file_state)
    (c : list (str * json)) :
  load_config f = Some c →
  ∃ content config,
    f = Text content
    ∧ json_loads content = Some (JDict config)
    ∧ c = (λ kv, (kv.1, match kv.2 with
                        | JDict value =>
                            JDict (List.filter
                                     (λ kv', negb (is_comment_key kv'.1))
                                     value)
                        | value => value
                        end))
          <$> List.filter (λ kv, negb (is_comment_key kv.1)) config.
Proof. apply load_config_filter. Qed.

(** [load_config_keeps_the_rest] on [sample_config]: the comment two levels down is kept. *)
Lemma load_config_keeps_the_rest_witness :
  ∃ content config,
    Text (json_dumps sample_config) = Text content
    ∧ json_loads content = Some (JDict config)
    ∧ [ (lit "llm_provider", JStr (lit "ollama"));
        (lit "generation",
         JDict [ (lit "batch_size", JInt 4); (lit "num_workers", JInt 2) ]);
        (lit "categories",
         JDict [ (lit "sub_categories",
                  JDict [ (lit "_comment", JStr (lit "per top category"));
                          (lit "Hardware", JList [JStr (lit "Laptop")]) ]) ]) ]
      = (λ kv, (kv.1, match kv.2 with
                      | JDict value =>
                          JDict (List.filter
                                   (λ kv', negb (is_comment_key kv'.1))
                                   value)
                      | value => value
                      end))
        <$> List.filter (λ kv, negb (is_comment_key kv.1)) config.
Proof.
  apply load_config_keeps_the_rest. vm_compute. reflexivity.
Defined.

(** ** Checkpoint writes and the course of a run *)

Lemma collect_results_with_disk (w : World) (d : nat → write_result)
    (round : nat) (completed : list BatchJob) :
  ∀ k st1 st2,
    in_memory st1 = in_memory st2 →
    (collect_results (with_disk w d) round k completed st1).1
    = (collect_results w round k completed st2).1
    ∧ in_memory (collect_results (with_disk w d) round k completed st1).2
      = in_memory (collect_results w round k completed st2).2.
Proof.
  induction completed as [|j completed IH]; intros k st1 st2 Hst; [done|].
  cbn [collect_results].
  change (interrupt (with_disk w d)) with (interrupt w).
  change (job_result (with_disk w d) round j) with (job_result w round j).
  destruct (interrupt w round k AwaitingResult); [done|].
  destruct (job_result w round j) as [e|batch].
  { destruct (is_Exception e); [by apply IH|done]. }
  assert (Hext : in_memory (do_extend st1 batch)
                 = in_memory (do_extend st2 batch)).
  { unfold in_memory in *. simpl. by injection Hst as -> -> ->. }
  destruct (interrupt w round k AfterExtend); [done|].
  assert (Hsave : in_memory (do_save (with_disk w d) (do_extend st1 batch))
                  = in_memory (do_save w (do_extend st2 batch))).
  { unfold in_memory in *. simpl. by injection Hst as -> -> ->. }
  destruct (interrupt w round k AfterSave); [done|]. by apply IH.
Qed.

(** X6. Whether the checkpoint writes succeed, fail or are cut short has no
    influence on the course of a run: with any other behaviour of the
    disk the loop ends the same way, after submitting the same jobs, with
    the same records in memory and the same collections handed to the
    saves. A failed write is only reported. *)
Theorem checkpoint_writes_do_not_steer (w : World) (d : nat → write_result)
    (T B W : Z) (fuel round : nat) (st : state) :
  (λ '(res, st'), (res, in_memory st'))
    <$> generation_loop fuel (with_disk w d) T B W round st
  = (λ '(res, st'), (res, in_memory st'))
    <$> generation_loop fuel w T B W round st.
Proof.
  assert (Hgen : ∀ st1 st2 round,
    in_memory st1 = in_memory st2 →
    (λ '(res, st'), (res, in_memory st'))
      <$> generation_loop fuel (with_disk w d) T B W round st1
    = (λ '(res, st'), (res, in_memory st'))
      <$> generation_loop fuel w T B W round st2); [|by apply Hgen].
  clear. induction fuel as [|fuel IH]; intros st1 st2 round Hst.
  - simpl. assert (all_incidents st1 = all_incidents st2) as ->
      by (by injection Hst).
    case_bool_decide; [done|]. simpl. by rewrite Hst.
  - simpl. assert (Hall : all_incidents st1 = all_incidents st2)
      by (by injection Hst).
    rewrite Hall. case_bool_decide; [|simpl; by rewrite Hst].
    unfold run_round.
    change (interrupt (with_disk w d)) with (interrupt w).
    rewrite Hall.
    destruct (interrupt w round 0 AtRoundStart); [simpl; by rewrite Hst|].
    destruct (dispatch_round _ T B W) as [e|jobs]; [simpl; by rewrite Hst|].
    change (as_completed (with_disk w d) round jobs)
      with (as_completed w round jobs).
    destruct (collect_results_with_disk w d round
                (as_completed w round jobs) 0
                (do_submit st1 jobs) (do_submit st2 jobs)) as [Hres Hmem].
    { unfold in_memory in *. simpl. by injection Hst as -> -> ->. }
    destruct (collect_results (with_disk w d) _ _ _ _) as [r1 s1].
    destruct (collect_results w _ _ _ _) as [r2 s2]. simpl in *. subst r2.
    destruct r1 as [e|]; [simpl; by rewrite Hmem|]. by apply IH.
Qed.

(** ** The order in which jobs complete *)

Lemma concat_perm {A} (l1 l2 : list (list A)) :
  l1 ≡ₚ l2 → concat l1 ≡ₚ concat l2.
Proof.
  induction 1 as [|x l l' _ IH|x y l|l l' l'' _ IH1 _ IH2]; simpl.
  - done.
  - by rewrite IH.
  - rewrite !app_assoc. f_equiv. apply Permutation_app_comm.
  - by rewrite IH1.
Qed.

Lemma merged_with_finish_time (w : World) (t : nat → BatchJob → nat)
    (round : nat) (jobs : list BatchJob) :
  merged (with_finish_time w t) round jobs ≡ₚ merged w round jobs.
Proof.
  unfold merged.
  change (delivered (with_finish_time w t) round) with (delivered w round).
  apply concat_perm, fmap_Permutation.
  by rewrite !as_completed_perm.
Qed.

(** X7. The order in which the jobs of a round complete decides only the
    order of the records: in a run without interruption, any other
    completion order submits the same jobs round by round, ends the same
    way, and ends with the same records, in a possibly different order. *)
Theorem completion_order_permutes_records (w : World)
    (t : nat → BatchJob → nat) (T B W : Z) (fuel round : nat) (st : state) :
  quiet w →
  match generation_loop fuel (with_finish_time w t) T B W round st,
        generation_loop fuel w T B W round st with
  | Some (res1, st1), Some (res2, st2) =>
      res1 = res2 ∧ submitted st1 = submitted st2
      ∧ all_incidents st1 ≡ₚ all_incidents st2
  | None, None => True
  | _, _ => False
  end.
Proof.
  intros Hq.
  assert (Hq' : quiet (with_finish_time w t)) by exact Hq.
  assert (Hgen : ∀ st1 st2 round,
    submitted st1 = submitted st2 →
    all_incidents st1 ≡ₚ all_incidents st2 →
    match generation_loop fuel (with_finish_time w t) T B W round st1,
          generation_loop fuel w T B W round st2 with
    | Some (res1, st1), Some (res2, st2) =>
        res1 = res2 ∧ submitted st1 = submitted st2
        ∧ all_incidents st1 ≡ₚ all_incidents st2
    | None, None => True
    | _, _ => False
    end); [|by apply Hgen].
  clear st round. induction fuel as [|fuel IH]; intros st1 st2 round Hsub Hall.
  - simpl. rewrite (Permutation_length Hall). by case_bool_decide.
  - simpl. rewrite (Permutation_length Hall). case_bool_decide; [|done].
    destruct (dispatch_round (len_all st2) T B W) as [e|jobs] eqn:Hd.
    + unfold run_round. rewrite Hq, Hq'. fold (len_all st1) (len_all st2).
      assert (len_all st1 = len_all st2) as ->
        by (unfold len_all; by rewrite (Permutation_length Hall)).
      by rewrite Hd.
    + destruct (run_round_quiet w T B W round st2 jobs Hq Hd)
        as (s2 & -> & Hall2 & Hsub2).
      destruct (run_round_quiet (with_finish_time w t) T B W round st1 jobs Hq')
        as (s1 & -> & Hall1 & Hsub1).
      { unfold len_all. rewrite (Permutation_length Hall). exact Hd. }
      apply IH; [by rewrite Hsub1, Hsub2, Hsub|].
      rewrite Hall1, Hall2, Hall. f_equiv. apply merged_with_finish_time.
Qed.

(** [completion_order_permutes_records] on a run in which the jobs of a round finish in reverse order. *)
Lemma completion_order_permutes_records_witness :
  match generation_loop 2
          (with_finish_time obedient_world
             (λ _ j, Z.to_nat (10 - existing_count j))) 10 4 2 0 fresh,
        generation_loop 2 obedient_world 10 4 2 0 fresh with
  | Some (res1, st1), Some (res2, st2) =>
      res1 = res2 ∧ submitted st1 = submitted st2
      ∧ all_incidents st1 ≡ₚ all_incidents st2
  | None, None => True
  | _, _ => False
  end.
Proof.
  apply completion_order_permutes_records. by apply calm_quiet.
Defined.

(** ** What the file holds when a run stops *)

Lemma collect_results_file (w : World) (round : nat)
    (completed : list BatchJob) :
  (∀ round k, interrupt w round k AfterExtend = false) →
  (∀ n, disk w n = Written) →
  ∀ k st res st',
    collect_results w round k completed st = (res, st') →
    records_ok st →
    load_existing_incidents (temp_file st) = JList (all_incidents st) →
    load_existing_incidents (temp_file st') = JList (all_incidents st').
Proof.
  intros Hgap Hdisk.
  induction completed as [|j completed IH]; intros k st res st'; simpl.
  - by intros [= _ <-].
  - destruct (interrupt w round k AwaitingResult); [by intros [= _ <-]|].
    destruct (job_result w round j) as [e|batch] eqn:Hj.
    { destruct (is_Exception e); [apply IH|by intros [= _ <-]]. }
    rewrite Hgap. intros Hc Hok Hfile.
    assert (Hok' : records_ok (do_save w (do_extend st batch))).
    { unfold records_ok in *. simpl. rewrite forallb_app, Hok. simpl.
      by eapply job_result_ok. }
    assert (Hfile' :
      load_existing_incidents (temp_file (do_save w (do_extend st batch)))
      = JList (all_incidents (do_save w (do_extend st batch)))).
    { simpl. rewrite Hdisk. by apply load_dumped. }
    destruct (interrupt w round k AfterSave); [by injection Hc as _ <-|].
    by eapply IH.
Qed.

Lemma generation_loop_file (w : World) (T B W : Z) (fuel : nat) :
  (∀ round k, interrupt w round k AfterExtend = false) →
  (∀ n, disk w n = Written) →
  ∀ round st res st',
    generation_loop fuel w T B W round st = Some (res, st') →
    records_ok st →
    load_existing_incidents (temp_file st) = JList (all_incidents st) →
    load_existing_incidents (temp_file st') = JList (all_incidents st').
Proof.
  intros Hgap Hdisk.
  induction fuel as [|fuel IH]; intros round st res st'; simpl;
    case_bool_decide; try done; try by intros [= _ <-].
  unfold run_round.
  destruct (interrupt w round 0 AtRoundStart); [by intros [= _ <-]|].
  destruct (dispatch_round _ _ _ _) as [e|jobs]; [by intros [= _ <-]|].
  destruct (collect_results _ _ _ _ _) as [[e|] st1] eqn:Hc.
  - intros [= _ <-] Hok Hfile.
    eapply collect_results_file; [done|done|exact Hc|exact Hok|exact Hfile].
  - intros Hl Hok Hfile. eapply IH; [exact Hl| |].
    + eapply collect_results_records_ok; [exact Hc|exact Hok].
    + eapply collect_results_file; [done|done|exact Hc|exact Hok|exact Hfile].
Qed.

(** X8. When the checkpoint writes go through and no Ctrl-C falls between
    [extend] and the save that follows it, the file never lags behind the
    memory at the end of the generation loop: however the loop ends
    (target reached, Ctrl-C, or an exception of the dispatch), loading the
    file gives exactly the collection the run held, so a new run resumes
    with all of it. *)
Theorem stopped_run_resumes_in_full (w : World) (T B W : Z) (fuel : nat)
    (f : file_state) (existing : list json) (res : option exn)
    (st' : state) :
  load_existing_incidents f = JList existing →
  (∀ round k, interrupt w round k AfterExtend = false) →
  (∀ n, disk w n = Written) →
  generation_loop fuel w T B W 0 (mkState existing f [] []) = Some (res, st') →
  load_existing_incidents (temp_file st') = JList (all_incidents st').
Proof.
  intros Hload Hgap Hdisk Hrun.
  eapply generation_loop_file; [done|done|exact Hrun| |done].
  by apply load_existing_incidents_ok in Hload.
Qed.

(** [stopped_run_resumes_in_full] on a run interrupted right after its first save. *)
Lemma stopped_run_resumes_in_full_witness :
  ∃ st',
    generation_loop 3 saved_then_interrupted_world 10 4 2 0 fresh
    = Some (Some KeyboardInterrupt, st')
    ∧ length (all_incidents st') = 4%nat
    ∧ load_existing_incidents (temp_file st') = JList (all_incidents st').
Proof.
  eexists. split; [vm_compute; reflexivity|]. split; [reflexivity|].
  eapply (stopped_run_resumes_in_full saved_then_interrupted_world 10 4 2 3
            Missing []); [reflexivity|done|done|].
  vm_compute. reflexivity.
Defined.

(** ** How much a round and a run ask for *)

(** X9. A round never asks for more than is missing: the sizes of its
    jobs add up to the remainder, or to [NUM_WORKERS] full batches when
    that is less, and every job asks for at least one record and at most
    [BATCH_SIZE]. *)
Theorem round_requests_total (L T B W : Z) :
  L < T → 1 <= B → 1 <= W →
  ∃ jobs,
    dispatch_round L T B W = inr jobs
    ∧ requested jobs = Z.min (T - L) (W * B)
    ∧ Forall (λ j, 1 <= num_incidents j <= B) jobs.
Proof.
  intros HL HB HW. eexists. split; [by apply dispatch_round_planned|].
  pose proof (ceil_div_spec L T B HB) as Hc. cbv zeta in Hc.
  set (n := (T - L + B - 1) / B) in *.
  assert (1 <= n) by nia.
  split.
  - replace (Z.min W n) with (Z.of_nat (Z.to_nat (Z.min W n))) by lia.
    rewrite requested_planned by nia. nia.
  - apply Forall_fmap, Forall_seqZ. intros i Hi. simpl. nia.
Qed.

(** [round_requests_total] on the defaults of the script with 7 records of 30 present. *)
Lemma round_requests_total_witness :
  ∃ jobs,
    dispatch_round 7 30 5 3 = inr jobs
    ∧ requested jobs = Z.min (30 - 7) (3 * 5)
    ∧ Forall (λ j, 1 <= num_incidents j <= 5) jobs.
Proof. apply round_requests_total; lia. Defined.

Lemma ceil_step (R B W : Z) :
  1 <= B → 1 <= W → W * B < R →
  (R - W * B + B - 1) / B = (R + B - 1) / B - W
  ∧ (R - W * B + W * B - 1) / (W * B) = (R + W * B - 1) / (W * B) - 1
  ∧ W < (R + B - 1) / B.
Proof.
  intros HB HW HR.
  replace (R - W * B + B - 1) with (R + B - 1 + (- W) * B) by lia.
  rewrite Z.div_add by lia.
  replace (R - W * B + W * B - 1) with (R + W * B - 1 + (- 1) * (W * B))
    by lia.
  rewrite Z.div_add by nia.
  split; [lia|]. split; [lia|].
  pose proof (ceil_div_spec 0 R B HB) as Hc. cbv zeta in Hc.
  rewrite Z.sub_0_r in Hc. nia.
Qed.

Lemma ceil_last (R B W : Z) :
  1 <= B → 1 <= W → 1 <= R <= W * B →
  (R + W * B - 1) / (W * B) = 1 ∧ (R + B - 1) / B <= W.
Proof.
  intros HB HW HR. split.
  - symmetry. apply (Z.div_unique _ _ 1 (R - 1)); nia.
  - pose proof (ceil_div_spec 0 R B HB) as Hc. cbv zeta in Hc.
    rewrite Z.sub_0_r in Hc. nia.
Qed.

Lemma generation_loop_counts (w : World) (T B W : Z) (fuel : nat) :
  quiet w → 1 <= B → 1 <= W →
  (∀ r j, succeeds_exactly w r j) →
  ∀ round st,
    len_all st <= T →
    (Z.to_nat (T - len_all st) ≤ fuel)%nat →
    ∃ st' rounds,
      generation_loop fuel w T B W round st = Some (None, st')
      ∧ submitted st' = submitted st ++ rounds
      ∧ Z.of_nat (length rounds)
        = (T - len_all st + W * B - 1) / (W * B)
      ∧ Z.of_nat (length (concat rounds)) = (T - len_all st + B - 1) / B.
Proof.
  intros Hq HB HW Hok.
  induction fuel as [|fuel IH]; intros round st Hle Hfuel.
  - exists st, []. rewrite generation_loop_stop by lia.
    rewrite app_nil_r. replace (T - len_all st) with 0 by lia. simpl.
    split_and!; [done|done| |].
    + symmetry. apply Z.div_small. nia.
    + symmetry. apply Z.div_small. lia.
  - destruct (decide (len_all st < T)) as [Hlt|Hge].
    2:{ exists st, []. rewrite generation_loop_stop by lia.
        rewrite app_nil_r. replace (T - len_all st) with 0 by lia. simpl.
        split_and!; [done|done| |].
        - symmetry. apply Z.div_small. nia.
        - symmetry. apply Z.div_small. lia. }
    rewrite generation_loop_step by done.
    destruct (run_round_planned w T B W round st Hq HB HW Hlt)
      as (st1 & -> & Hall & Hsub & Hlen & Hreq & Hpos & _).
    set (R := T - len_all st) in *.
    pose proof (ceil_div_spec (len_all st) T B HB) as Hc. cbv zeta in Hc.
    fold R in Hc. set (n := (R + B - 1) / B) in *.
    assert (Hn : 1 <= n) by nia.
    set (jobs := planned_job _ _ _ <$> _) in *.
    rewrite delivered_count_exact in Hlen
      by (done || apply Forall_forall; auto).
    assert (Hreqv : requested jobs = Z.min R (W * B)).
    { unfold jobs.
      replace (Z.min W n) with (Z.of_nat (Z.to_nat (Z.min W n))) by lia.
      rewrite requested_planned by nia. nia. }
    assert (Hjobs : Z.of_nat (length jobs) = Z.min W n).
    { unfold jobs. rewrite length_fmap, length_seqZ. lia. }
    destruct (IH (S round) st1) as (st' & rounds & Hrun & Hsub' & Hr & Hj);
      [lia|lia|].
    exists st', (jobs :: rounds). split; [done|]. split.
    { rewrite Hsub', Hsub, <- app_assoc. done. }
    replace (T - len_all st1) with (R - Z.min R (W * B)) in Hr, Hj by lia.
    cbn [length concat]. rewrite length_app, Nat2Z.inj_succ, Nat2Z.inj_add.
    rewrite Hr, Hj, Hjobs.
    destruct (decide (R <= W * B)) as [Hlast|Hmore].
    + destruct (ceil_last R B W HB HW ltac:(lia)) as [H1 H2]. fold n in H2.
      rewrite H1. replace (R - Z.min R (W * B)) with 0 by lia. simpl.
      rewrite !Z.div_small by nia. lia.
    + destruct (ceil_step R B W HB HW ltac:(lia)) as (H1 & H2 & H3).
      fold n in H1, H3.
      replace (R - Z.min R (W * B)) with (R - W * B) by lia.
      rewrite H1, H2. lia.
Qed.

(** X10. When every batch succeeds with exactly the requested count, a
    run that is [R] records short of its target takes [ceil(R / (W * B))]
    rounds and sends [ceil(R / B)] requests to the backend in all, for
    batch size [B] and [W] workers. *)
Theorem rounds_and_requests_of_a_run (w : World) (T B W : Z) (round : nat)
    (st : state) :
  quiet w → 1 <= B → 1 <= W →
  (∀ r j, succeeds_exactly w r j) →
  len_all st <= T →
  let R := T - len_all st in
  ∃ st' rounds,
    (∀ fuel, (Z.to_nat R ≤ fuel)%nat →
       generation_loop fuel w T B W round st = Some (None, st'))
    ∧ submitted st' = submitted st ++ rounds
    ∧ Z.of_nat (length rounds) = (R + W * B - 1) / (W * B)
    ∧ Z.of_nat (length (concat rounds)) = (R + B - 1) / B.
Proof.
  intros Hq HB HW Hok Hle R.
  destruct (generation_loop_counts w T B W (Z.to_nat R) Hq HB HW Hok round st)
    as (st' & rounds & Hrun & Hsub & Hr & Hj); [done|done|].
  exists st', rounds. split_and!; [|done|done|done].
  intros fuel Hfuel. by eapply generation_loop_mono.
Qed.

(** [rounds_and_requests_of_a_run] on a fresh run towards 23 records with the defaults of the script. *)
Lemma rounds_and_requests_of_a_run_witness :
  ∃ st' rounds,
    generation_loop 23 obedient_world 23 5 3 0 fresh = Some (None, st')
    ∧ submitted st' = rounds
    ∧ Z.of_nat (length rounds) = 2
    ∧ Z.of_nat (length (concat rounds)) = 5.
Proof.
  destruct (rounds_and_requests_of_a_run obedient_world 23 5 3 0 fresh)
    as (st' & rounds & Hrun & Hsub & Hr & Hj).
  - by apply calm_quiet.
  - lia.
  - lia.
  - intros r j. apply obedient_world_exact.
  - unfold len_all. simpl. lia.
  - exists st', rounds. split_and!.
    + apply Hrun. vm_compute. lia.
    + exact Hsub.
    + rewrite Hr. reflexivity.
    + rewrite Hj. reflexivity.
Defined.

(** ** A batch size below zero *)

Lemma submit_jobs_negative (L T B : Z) (idx : list Z) :
  B < 0 → L < T → submit_jobs L T B idx = [] ∨ ∃ i idx', idx = i :: idx' ∧ i ≠ 0.
Proof.
  intros HB HL. destruct idx as [|i idx']; [by left|].
  destruct (decide (i = 0)) as [->|Hi]; [left|right; by eexists _, _].
  cbn [submit_jobs]. case_bool_decide; [done|].
  rewrite bool_decide_eq_true_2; [done|lia].
Qed.

Lemma dispatch_round_negative (L T B W : Z) :
  B < 0 → L < T → dispatch_round L T B W = inr [].
Proof.
  intros HB HL. unfold dispatch_round, py_range.
  rewrite bool_decide_eq_false_2 by lia. f_equal.
  destruct (submit_jobs_negative L T B
              (seqZ 0 (Z.min W ((T - L + B - 1) / B))) HB HL)
    as [->|(i & idx' & Hidx & Hi)]; [done|].
  exfalso. destruct (decide (0 < Z.min W ((T - L + B - 1) / B))) as [Hpos|Hneg].
  - rewrite seqZ_cons in Hidx by done. injection Hidx as <- _. done.
  - rewrite seqZ_nil in Hidx by lia. done.
Qed.

(** X11. With a batch size below zero the loop never submits a job and
    never ends: every round computes an empty set of futures, merges
    nothing, and finds the collection as short of the target as before.
    Only a Ctrl-C stops the run. *)
Theorem negative_batch_size_spins (w : World) (T B W : Z) (fuel round : nat)
    (st : state) :
  (∀ r, interrupt w r 0 AtRoundStart = false) →
  B < 0 → len_all st < T →
  dispatch_round (len_all st) T B W = inr []
  ∧ run_round w T B W round st = (None, do_submit st [])
  ∧ generation_loop fuel w T B W round st = None.
Proof.
  intros Hq HB HL. split; [by apply dispatch_round_negative|].
  assert (Hround : ∀ round st, len_all st < T →
            run_round w T B W round st = (None, do_submit st [])).
  { intros r s Hs. unfold run_round. rewrite Hq. fold (len_all s).
    by rewrite dispatch_round_negative. }
  split; [by apply Hround|].
  revert round st HL. induction fuel as [|fuel IH]; intros round st HL.
  - by apply generation_loop_out_of_fuel.
  - rewrite generation_loop_step, Hround by done. by apply IH.
Qed.

(** [negative_batch_size_spins] on a batch size of -4. *)
Lemma negative_batch_size_spins_witness :
  dispatch_round (len_all fresh) 10 (-4) 2 = inr []
  ∧ run_round obedient_world 10 (-4) 2 0 fresh = (None, do_submit fresh [])
  ∧ generation_loop 1000 obedient_world 10 (-4) 2 0 fresh = None.
Proof.
  apply negative_batch_size_spins; [done|lia|].
  unfold len_all. simpl. lia.
Defined.

(** ** The saves of a run *)

Lemma collect_results_saves_grow (w : World) (round : nat) (X0 : list json)
    (completed : list BatchJob) :
  ∀ k st res st',
    collect_results w round k completed st = (res, st') →
    saves_ok st → X0 `prefix_of` all_incidents st →
    Forall (λ snap, X0 `prefix_of` snap) (saves st) →
    StronglySorted prefix (saves st) →
    saves_ok st' ∧ X0 `prefix_of` all_incidents st'
    ∧ Forall (λ snap, X0 `prefix_of` snap) (saves st')
    ∧ StronglySorted prefix (saves st').
Proof.
  assert (Hsnoc : ∀ (l : list (list json)) y,
            StronglySorted prefix l → Forall (λ x, x `prefix_of` y) l →
            StronglySorted prefix (l ++ [y])).
  { intros l y Hl Hy. induction Hl as [|x l Hl IH Hx]; simpl.
    - by repeat constructor.
    - apply Forall_cons in Hy as [Hxy Hy]. constructor; [by apply IH|].
      apply Forall_app. split; [done|]. by apply Forall_singleton. }
  induction completed as [|j completed IH]; intros k st res st'; simpl.
  - by intros [= _ <-].
  - destruct (interrupt w round k AwaitingResult); [by intros [= _ <-]|].
    destruct (job_result w round j) as [e|batch].
    { destruct (is_Exception e); [apply IH|by intros [= _ <-]]. }
    intros Hc Hok HX Hall Hs.
    assert (Hok1 : saves_ok (do_extend st batch)) by by apply saves_ok_extend.
    assert (HX1 : X0 `prefix_of` all_incidents (do_extend st batch))
      by (simpl; by apply prefix_app_r).
    destruct (interrupt w round k AfterExtend); [by injection Hc as _ <-|].
    assert (Hok2 : saves_ok (do_save w (do_extend st batch)))
      by by apply saves_ok_save.
    assert (Hall2 : Forall (λ snap, X0 `prefix_of` snap)
                      (saves (do_save w (do_extend st batch)))).
    { simpl. apply Forall_app. split; [done|]. by apply Forall_singleton. }
    assert (Hs2 : StronglySorted prefix
                    (saves (do_save w (do_extend st batch)))).
    { simpl. apply Hsnoc; [done|]. exact Hok1. }
    destruct (interrupt w round k AfterSave); [by injection Hc as _ <-|].
    by eapply IH.
Qed.

(** X12. The checkpoint only grows during a run. Every collection handed
    to a save begins with the records the run started with, in their
    order, and with everything handed to the saves before it; and so does
    the collection in memory, however the loop ends. *)
Theorem saves_only_grow (w : World) (T B W : Z) (fuel round : nat)
    (st : state) (res : option exn) (st' : state) :
  saves st = [] →
  generation_loop fuel w T B W round st = Some (res, st') →
  all_incidents st `prefix_of` all_incidents st'
  ∧ Forall (λ snap, all_incidents st `prefix_of` snap
                    ∧ snap `prefix_of` all_incidents st') (saves st')
  ∧ StronglySorted prefix (saves st').
Proof.
  intros Hs0 Hrun. set (X0 := all_incidents st).
  assert (Hgen : ∀ fuel round st res st',
    generation_loop fuel w T B W round st = Some (res, st') →
    saves_ok st → X0 `prefix_of` all_incidents st →
    Forall (λ snap, X0 `prefix_of` snap) (saves st) →
    StronglySorted prefix (saves st) →
    saves_ok st' ∧ X0 `prefix_of` all_incidents st'
    ∧ Forall (λ snap, X0 `prefix_of` snap) (saves st')
    ∧ StronglySorted prefix (saves st')).
  { clear. intros n. induction n as [|n IH]; intros r s res0 s'; simpl;
      case_bool_decide; try done; try by intros [= _ <-].
    unfold run_round.
    destruct (interrupt w r 0 AtRoundStart); [by intros [= _ <-]|].
    destruct (dispatch_round _ _ _ _) as [e|jobs]; [by intros [= _ <-]|].
    destruct (collect_results _ _ _ _ _) as [[e|] st1] eqn:Hc.
    - intros [= _ <-] H1 H2 H3 H4.
      eapply collect_results_saves_grow; [exact Hc|exact H1|exact H2|exact H3|exact H4].
    - intros Hl H1 H2 H3 H4.
      destruct (collect_results_saves_grow _ _ X0 _ _ _ _ _ Hc H1 H2 H3 H4)
        as (?&?&?&?).
      by eapply IH. }
  destruct (Hgen fuel round st res st' Hrun) as (Hok & HX & Hall & Hsorted).
  - unfold saves_ok. by rewrite Hs0.
  - done.
  - by rewrite Hs0.
  - rewrite Hs0. constructor.
  - split; [done|]. split; [|done].
    unfold saves_ok in Hok. rewrite Forall_forall in *. intros snap Hin.
    split; [by apply Hall|by apply Hok].
Qed.

(** [saves_only_grow] on the run of the end-to-end scenario. *)
Lemma saves_only_grow_witness :
  ∃ st',
    generation_loop 2 obedient_world 10 4 2 0 fresh = Some (None, st')
    ∧ StronglySorted prefix (saves st').
Proof.
  eexists. split; [vm_compute; reflexivity|].
  eapply (saves_only_grow obedient_world 10 4 2 2 0 fresh None);
    [reflexivity|vm_compute; reflexivity].
Defined.

(** ** What a Ctrl-C can cost *)

Lemma collect_results_lag (w : World) (round : nat)
    (completed : list BatchJob) :
  (∀ n, disk w n = Written) →
  ∀ k st res st',
    collect_results w round k completed st = (res, st') →
    records_ok st →
    load_existing_incidents (temp_file st) = JList (all_incidents st) →
    (records_ok st'
     ∧ load_existing_incidents (temp_file st') = JList (all_incidents st'))
    ∨ (res = Some KeyboardInterrupt
       ∧ ∃ st0 j batch,
           load_existing_incidents (temp_file st0) = JList (all_incidents st0)
           ∧ job_result w round j = inr batch
           ∧ st' = do_extend st0 batch).
Proof.
  intros Hdisk.
  induction completed as [|j completed IH]; intros k st res st'; simpl.
  - intros [= <- <-] Hok Hfile. by left.
  - destruct (interrupt w round k AwaitingResult).
    { intros [= <- <-] Hok Hfile. by left. }
    destruct (job_result w round j) as [e|batch] eqn:Hj.
    { destruct (is_Exception e); [apply IH|].
      intros [= <- <-] Hok Hfile. by left. }
    intros Hc Hok Hfile.
    destruct (interrupt w round k AfterExtend).
    { injection Hc as <- <-. right. split; [done|]. by exists st, j, batch. }
    assert (Hok' : records_ok (do_save w (do_extend st batch))).
    { unfold records_ok in *. simpl. rewrite forallb_app, Hok. simpl.
      by eapply job_result_ok. }
    assert (Hfile' :
      load_existing_incidents (temp_file (do_save w (do_extend st batch)))
      = JList (all_incidents (do_save w (do_extend st batch)))).
    { simpl. rewrite Hdisk. by apply load_dumped. }
    destruct (interrupt w round k AfterSave); [|by eapply IH].
    injection Hc as <- <-. by left.
Qed.

Lemma generation_loop_lag (w : World) (T B W : Z) (fuel : nat) :
  (∀ n, disk w n = Written) →
  ∀ round st res st',
    generation_loop fuel w T B W round st = Some (res, st') →
    records_ok st →
    load_existing_incidents (temp_file st) = JList (all_incidents st) →
    (records_ok st'
     ∧ load_existing_incidents (temp_file st') = JList (all_incidents st'))
    ∨ (res = Some KeyboardInterrupt
       ∧ ∃ st0 r j batch,
           load_existing_incidents (temp_file st0) = JList (all_incidents st0)
           ∧ job_result w r j = inr batch
           ∧ st' = do_extend st0 batch).
Proof.
  intros Hdisk.
  induction fuel as [|fuel IH]; intros round st res st'; simpl;
    case_bool_decide; try done; try (intros [= _ <-]; by left).
  unfold run_round.
  destruct (interrupt w round 0 AtRoundStart); [intros [= _ <-]; by left|].
  destruct (dispatch_round _ _ _ _) as [e|jobs]; [intros [= _ <-]; by left|].
  destruct (collect_results _ _ _ _ _) as [[e|] st1] eqn:Hc.
  - intros [= <- <-] Hok Hfile.
    destruct (collect_results_lag w round _ Hdisk _ _ _ _ Hc Hok Hfile)
      as [?|(? & st0 & j & batch & ? & ? & ?)]; [by left|right].
    split; [done|]. by exists st0, round, j, batch.
  - intros Hl Hok Hfile.
    destruct (collect_results_lag w round _ Hdisk _ _ _ _ Hc Hok Hfile)
      as [[Hok1 Hfile1]|([=] & _)].
    by eapply IH.
Qed.

(** X13. A Ctrl-C costs at most one batch. When the checkpoint writes go
    through, then however the loop ends, the file reads back as a
    collection that is the one in memory or lacks only its end, and what
    it lacks is the result of the one batch that had been merged and not
    yet saved when the interruption arrived. *)
Theorem interrupt_costs_at_most_one_batch (w : World) (T B W : Z)
    (fuel : nat) (f : file_state) (existing : list json)
    (res : option exn) (st' : state) :
  load_existing_incidents f = JList existing →
  (∀ n, disk w n = Written) →
  generation_loop fuel w T B W 0 (mkState existing f [] []) = Some (res, st') →
  ∃ saved lost,
    load_existing_incidents (temp_file st') = JList saved
    ∧ all_incidents st' = saved ++ lost
    ∧ (lost = []
       ∨ (res = Some KeyboardInterrupt
          ∧ ∃ round j, job_result w round j = inr lost)).
Proof.
  intros Hload Hdisk Hrun.
  destruct (generation_loop_lag w T B W fuel Hdisk _ _ _ _ Hrun)
    as [[_ Hfile]|(Hres & st0 & r & j & batch & Hfile & Hj & ->)].
  - by apply load_existing_incidents_ok in Hload.
  - done.
  - exists (all_incidents st'), []. rewrite app_nil_r. split_and!; [done|done|by left].
  - exists (all_incidents st0), batch. split_and!; [done|done|].
    right. split; [done|]. by exists r, j.
Qed.

(** [interrupt_costs_at_most_one_batch] on a run interrupted between [extend] and the first save. *)
Lemma interrupt_costs_at_most_one_batch_witness :
  ∃ st' saved lost,
    generation_loop 3 interrupted_world 10 4 2 0 fresh
    = Some (Some KeyboardInterrupt, st')
    ∧ load_existing_incidents (temp_file st') = JList saved
    ∧ all_incidents st' = saved ++ lost
    ∧ (lost = []
       ∨ (Some KeyboardInterrupt = Some KeyboardInterrupt
          ∧ ∃ round j, job_result interrupted_world round j = inr lost)).
Proof.
  eexists.
  destruct (interrupt_costs_at_most_one_batch interrupted_world 10 4 2 3
              Missing [] (Some KeyboardInterrupt)
              (mkState (replicate 4 JNull) Missing
                 [[mkJob 4 0; mkJob 4 4]] []))
    as (saved & lost & H1 & H2 & H3).
  - reflexivity.
  - done.
  - vm_compute. reflexivity.
  - exists saved, lost. split; [vm_compute; reflexivity|]. done.
Defined.

(** ** Rounds in which batches fail *)

Lemma merge_all_failed (w : World) (round : nat) (completed : list BatchJob) :
  Forall (λ j, job_failed w round j = true) completed →
  ∀ st, foldl (merge_result w round) st completed = st.
Proof.
  induction 1 as [|j completed Hj _ IH]; intros st; [done|]. simpl.
  rewrite <- (IH st) at 2. f_equal. unfold merge_result.
  unfold job_failed in Hj. by destruct (job_result w round j).
Qed.

Lemma run_round_all_failed (w : World) (T B W : Z) (round : nat)
    (st : state) (jobs : list BatchJob) :
  quiet w →
  (∀ j, job_failed w round j = true) →
  dispatch_round (len_all st) T B W = inr jobs →
  run_round w T B W round st = (None, do_submit st jobs).
Proof.
  intros Hq Hfail Hd. unfold run_round. rewrite Hq. fold (len_all st).
  rewrite Hd, collect_results_quiet by done.
  rewrite merge_all_failed; [done|]. apply Forall_forall. auto.
Qed.

(** X14. There is no limit to the retries. While every batch fails, at
    the backend or in the parser, each round submits its jobs again and
    changes nothing else: no record is added, nothing is saved, the file
    stays as it is; and the loop does not end. *)
Theorem failing_backend_is_retried_forever (w : World) (T B W : Z)
    (fuel round : nat) (st : state) :
  quiet w → 1 <= B → 1 <= W → len_all st < T →
  (∀ r j, job_failed w r j = true) →
  generation_loop fuel w T B W round st = None
  ∧ ∃ jobs,
      jobs ≠ []
      ∧ run_round w T B W round st
        = (None, mkState (all_incidents st) (temp_file st)
                   (submitted st ++ [jobs]) (saves st)).
Proof.
  intros Hq HB HW HL Hfail. split.
  - revert round st HL. induction fuel as [|fuel IH]; intros round st HL.
    + by apply generation_loop_out_of_fuel.
    + rewrite generation_loop_step by done.
      erewrite run_round_all_failed;
        [|done|done|by apply dispatch_round_planned].
      by apply IH.
  - eexists. split; [|by apply run_round_all_failed,
                          dispatch_round_planned].
    pose proof (ceil_div_spec (len_all st) T B HB) as Hc. cbv zeta in Hc.
    intros Hnil%(f_equal length). rewrite length_fmap, length_seqZ in Hnil.
    simpl in Hnil. nia.
Qed.

(** [failing_backend_is_retried_forever] on a backend that is down. *)
Lemma failing_backend_is_retried_forever_witness :
  generation_loop 500
    (with_backend_down obedient_world) 10 4 2 0 fresh = None
  ∧ ∃ jobs,
      jobs ≠ []
      ∧ run_round (with_backend_down obedient_world) 10 4 2 0 fresh
        = (None, mkState (all_incidents fresh) (temp_file fresh)
                   (submitted fresh ++ [jobs]) (saves fresh)).
Proof.
  apply failing_backend_is_retried_forever.
  - by apply calm_quiet.
  - lia.
  - lia.
  - unfold len_all. simpl. lia.
  - done.
Defined.

(** X15. The numbers a batch is asked for can be asked for again although
    its records were merged. With two workers, when the first batch of a
    round fails and the second delivers its full count, the next round
    begins with the very job of that second batch, same size and same
    starting count, so the prompt names the same record numbers a second
    time. *)
Theorem merged_numbers_are_requested_again (w : World) (T B : Z)
    (round : nat) (st : state) :
  quiet w → 1 <= B → len_all st + 2 * B <= T →
  job_failed w round (mkJob B (len_all st)) = true →
  length (delivered w round (mkJob B (len_all st + B))) = Z.to_nat B →
  ∃ st1 rest,
    dispatch_round (len_all st) T B 2
    = inr [mkJob B (len_all st); mkJob B (len_all st + B)]
    ∧ run_round w T B 2 round st = (None, st1)
    ∧ len_all st1 = len_all st + B
    ∧ dispatch_round (len_all st1) T B 2
      = inr (mkJob B (len_all st + B) :: rest).
Proof.
  intros Hq HB HT Hfail Hok.
  set (L := len_all st) in *.
  assert (Hd : dispatch_round L T B 2 = inr [mkJob B L; mkJob B (L + B)]).
  { rewrite dispatch_round_planned by done.
    pose proof (ceil_div_spec L T B HB) as Hc. cbv zeta in Hc.
    replace (Z.min 2 ((T - L + B - 1) / B)) with 2 by nia.
    change (seqZ 0 2) with [0; 1]. cbn [fmap list_fmap]. unfold planned_job.
    replace (B `min` (T - L - 0 * B)) with B by lia.
    replace (B `min` (T - L - 1 * B)) with B by lia.
    by replace (L + 0 * B) with L by lia; replace (L + 1 * B) with (L + B) by lia. }
  destruct (run_round_quiet w T B 2 round st _ Hq Hd) as (st1 & Hrun & Hall & _).
  assert (Hlen : len_all st1 = L + B).
  { unfold len_all at 1. rewrite Hall, length_app, Nat2Z.inj_add, length_merged.
    fold (len_all st). fold L. unfold delivered_count. cbn [foldr].
    rewrite Hok. unfold delivered at 1. unfold job_failed in Hfail.
    destruct (job_result w round (mkJob B L)); [simpl; lia|done]. }
  exists st1. eexists. split_and!; [done|done|done|].
  rewrite Hlen, dispatch_round_planned by done.
  pose proof (ceil_div_spec (L + B) T B HB) as Hc. cbv zeta in Hc.
  set (m := Z.min 2 ((T - (L + B) + B - 1) / B)).
  assert (1 <= m) by (unfold m; nia).
  rewrite seqZ_cons by lia. cbn [fmap list_fmap]. unfold planned_job at 1.
  replace (B `min` (T - (L + B) - 0 * B)) with B by lia.
  by replace (L + B + 0 * B) with (L + B) by lia.
Qed.

(** [merged_numbers_are_requested_again] on the run whose first job fails in round 0. *)
Lemma merged_numbers_are_requested_again_witness :
  ∃ st1 rest,
    dispatch_round (len_all fresh) 10 4 2
    = inr [mkJob 4 (len_all fresh); mkJob 4 (len_all fresh + 4)]
    ∧ run_round flaky_world 10 4 2 0 fresh = (None, st1)
    ∧ len_all st1 = len_all fresh + 4
    ∧ dispatch_round (len_all st1) 10 4 2
      = inr (mkJob 4 (len_all fresh + 4) :: rest).
Proof.
  apply merged_numbers_are_requested_again.
  - by apply calm_quiet.
  - lia.
  - vm_compute. discriminate.
  - vm_compute. reflexivity.
  - vm_compute. reflexivity.
Defined.

(** ** The record numbers of a run *)

Lemma consecutive_app (l1 l2 : list BatchJob) (a b c : Z) :
  consecutive l1 a b → consecutive l2 b c → consecutive (l1 ++ l2) a c.
Proof.
  revert a. induction l1 as [|j l1 IH]; intros a; simpl.
  - by intros ->.
  - intros (? & ? & ?) ?. split_and!; [done|done|]. by apply IH.
Qed.

Lemma planned_consecutive (L R B : Z) (m : nat) :
  1 <= B → 0 <= R → (Z.of_nat m - 1) * B < R →
  consecutive (planned_job L R B <$> seqZ 0 (Z.of_nat m)) L
    (L + Z.min R (Z.of_nat m * B)).
Proof.
  intros HB HR. induction m as [|m IH]; intros Hm.
  - simpl. lia.
  - rewrite seqZ_S, fmap_app. eapply consecutive_app; [apply IH; nia|].
    simpl. split_and!; nia.
Qed.

Lemma generation_loop_consecutive (w : World) (T B W : Z) (fuel : nat) :
  quiet w → 1 <= B → 1 <= W →
  (∀ r j, succeeds_exactly w r j) →
  ∀ round st,
    len_all st <= T →
    (Z.to_nat (T - len_all st) ≤ fuel)%nat →
    ∃ st' rounds,
      generation_loop fuel w T B W round st = Some (None, st')
      ∧ submitted st' = submitted st ++ rounds
      ∧ consecutive (concat rounds) (len_all st) T.
Proof.
  intros Hq HB HW Hok.
  induction fuel as [|fuel IH]; intros round st Hle Hfuel.
  - exists st, []. rewrite generation_loop_stop by lia.
    rewrite app_nil_r. simpl. split_and!; [done|done|lia].
  - destruct (decide (len_all st < T)) as [Hlt|Hge].
    2:{ exists st, []. rewrite generation_loop_stop by lia.
        rewrite app_nil_r. simpl. split_and!; [done|done|lia]. }
    rewrite generation_loop_step by done.
    destruct (run_round_planned w T B W round st Hq HB HW Hlt)
      as (st1 & -> & Hall & Hsub & Hlen & Hreq & Hpos & _).
    pose proof (ceil_div_spec (len_all st) T B HB) as Hc. cbv zeta in Hc.
    set (R := T - len_all st) in *. set (n := (R + B - 1) / B) in *.
    assert (Hn : 1 <= n) by nia.
    set (jobs := planned_job _ _ _ <$> _) in *.
    rewrite delivered_count_exact in Hlen
      by (done || apply Forall_forall; auto).
    assert (Hreqv : requested jobs = Z.min R (Z.min W n * B)).
    { unfold jobs.
      replace (Z.min W n) with (Z.of_nat (Z.to_nat (Z.min W n))) by lia.
      rewrite requested_planned by nia. done. }
    assert (Hcons : consecutive jobs (len_all st) (len_all st1)).
    { rewrite Hlen, Hreqv. unfold jobs.
      replace (Z.min W n) with (Z.of_nat (Z.to_nat (Z.min W n))) by lia.
      apply planned_consecutive; nia. }
    destruct (IH (S round) st1) as (st' & rounds & Hrun & Hsub' & Hc');
      [lia|lia|].
    exists st', (jobs :: rounds). split; [done|]. split.
    { rewrite Hsub', Hsub, <- app_assoc. done. }
    simpl. by eapply consecutive_app.
Qed.

(** X16. When every batch succeeds with exactly the requested count, the
    jobs of the whole run, in the order of their submission, ask for the
    records after the first [K] up to the target one stretch after the
    other: every job starts where the one before it ends, so every record
    number from [K + 1] to [T] is asked for exactly once. *)
Theorem every_number_is_requested_once (w : World) (T B W : Z)
    (round : nat) (st : state) :
  quiet w → 1 <= B → 1 <= W →
  (∀ r j, succeeds_exactly w r j) →
  len_all st <= T →
  ∃ st' rounds,
    (∀ fuel, (Z.to_nat (T - len_all st) ≤ fuel)%nat →
       generation_loop fuel w T B W round st = Some (None, st'))
    ∧ submitted st' = submitted st ++ rounds
    ∧ consecutive (concat rounds) (len_all st) T.
Proof.
  intros Hq HB HW Hok Hle.
  destruct (generation_loop_consecutive w T B W (Z.to_nat (T - len_all st))
              Hq HB HW Hok round st) as (st' & rounds & Hrun & Hsub & Hc);
    [done|done|].
  exists st', rounds. split_and!; [|done|done].
  intros fuel Hfuel. by eapply generation_loop_mono.
Qed.

(** [every_number_is_requested_once] on the run of the end-to-end scenario. *)
Lemma every_number_is_requested_once_witness :
  ∃ st' rounds,
    generation_loop 10 obedient_world 10 4 2 0 fresh = Some (None, st')
    ∧ submitted st' = rounds
    ∧ consecutive (concat rounds) 0 10.
Proof.
  destruct (every_number_is_requested_once obedient_world 10 4 2 0 fresh)
    as (st' & rounds & Hrun & Hsub & Hc).
  - by apply calm_quiet.
  - lia.
  - lia.
  - intros r j. apply obedient_world_exact.
  - unfold len_all. simpl. lia.
  - exists st', rounds. split_and!.
    + apply Hrun. vm_compute. lia.
    + exact Hsub.
    + exact Hc.
Defined.

(** ** The start of a run *)

Lemma load_existing_incidents_sized (f : file_state) :
  ∃ n, py_len (load_existing_incidents f) = Some n ∧ 0 <= n.
Proof.
  assert (Hlen : ∀ v n, py_len v = Some n → 0 <= n).
  { intros [] n [= <-]; lia. }
  destruct f as [| |content]; simpl; try by exists 0.
  destruct (json_loads content) as [v|]; [|by exists 0].
  destruct (py_len v) as [n|] eqn:Hv; [|by exists 0].
  exists n. split; [done|]. by eapply Hlen.
Qed.

(** X17. Whatever the checkpoint file holds, the start of a run does not
    fail on it, and for a positive target generation begins only with a
    collection that is shorter than the target: either what was loaded,
    with the file left alone, or the empty collection with the file
    removed, after the user chose to start over. A loaded collection that
    already reaches the target is exported whole when the user declines. *)
Theorem generation_starts_below_target (f : file_state) (T : Z)
    (overwrite_yes : bool) :
  0 < T →
  ∃ s,
    start_run f T overwrite_yes = Some s
    ∧ match s with
      | Generate c f' =>
          (∃ n, py_len c = Some n ∧ n < T)
          ∧ ((c = load_existing_incidents f ∧ f' = f)
             ∨ (c = JList [] ∧ f' = Missing ∧ overwrite_yes = true))
      | ExportOnly c =>
          c = load_existing_incidents f ∧ overwrite_yes = false
          ∧ ∃ n, py_len c = Some n ∧ T <= n
      end.
Proof.
  intros HT. unfold start_run.
  destruct (load_existing_incidents_sized f) as (n & Hn & Hpos).
  rewrite Hn. cbn [mbind option_bind]. case_bool_decide.
  - destruct overwrite_yes; eexists; (split; [done|]).
    + split; [exists 0; split; [done|lia]|]. right. done.
    + split_and!; [done|done|]. exists n. split; [done|lia].
  - eexists. split; [done|]. split; [exists n; split; [done|lia]|]. by left.
Qed.

(** [generation_starts_below_target] on a checkpoint of two records and a target of two. *)
Lemma generation_starts_below_target_witness :
  ∃ s,
    start_run (Text (json_dumps (JList sample_records))) 2 false = Some s
    ∧ match s with
      | Generate c f' =>
          (∃ n, py_len c = Some n ∧ n < 2)
          ∧ ((c = load_existing_incidents
                    (Text (json_dumps (JList sample_records)))
              ∧ f' = Text (json_dumps (JList sample_records)))
             ∨ (c = JList [] ∧ f' = Missing ∧ false = true))
      | ExportOnly c =>
          c = load_existing_incidents
                (Text (json_dumps (JList sample_records)))
          ∧ false = false
          ∧ ∃ n, py_len c = Some n ∧ 2 <= n
      end.
Proof. apply generation_starts_below_target. lia. Defined.



(** X19. The target a run works with is positive: it is the first answer
    that [int] accepts and that is greater than zero; every answer before
    it was refused or was not positive. *)
Theorem read_total_incidents_first_positive (answers : list (option Z))
    (total_incidents : Z) :
  read_total_incidents answers = Some total_incidents →
  0 < total_incidents
  ∧ ∃ before after,
      answers = before ++ Some total_incidents :: after
      ∧ Forall (λ a, ∀ z, a = Some z → z <= 0) before.
Proof.
  induction answers as [|a answers IH]; [done|]. simpl.
  destruct a as [z|].
  - case_bool_decide as Hz.
    + intros [= ->]. split; [lia|]. by exists [], answers.
    + intros (HT & before & after & -> & Hb)%IH. split; [done|].
      exists (Some z :: before), after. split; [done|].
      constructor; [|done]. intros z' [= <-]. lia.
  - intros (HT & before & after & -> & Hb)%IH. split; [done|].
    exists (None :: before), after. split; [done|]. by constructor.
Qed.

(** [read_total_incidents_first_positive] on a refused answer, a zero and a negative number before 25. *)
Lemma read_total_incidents_first_positive_witness :
  0 < 25
  ∧ ∃ before after,
      [None; Some 0; Some (-3); Some 25; Some 7]
      = before ++ Some 25 :: after
      ∧ Forall (λ a, ∀ z, a = Some z → z <= 0) before.
Proof. apply read_total_incidents_first_positive. reflexivity. Defined.

(** ** A checkpoint that is not an array *)

Lemma collect_unmergeable_quiet (w : World) (round : nat)
    (completed : list BatchJob) :
  quiet w → ∀ k, collect_unmergeable w round k completed = None.
Proof.
  intros Hq. induction completed as [|j completed IH]; intros k; [done|].
  simpl. rewrite Hq. destruct (job_result w round j) as [e|b] eqn:Hj; [|done].
  by rewrite (job_result_Exception _ _ _ _ Hj).
Qed.

Lemma dispatch_round_nonempty (L T B W : Z) :
  L < T → 1 <= B → 1 <= W →
  ∃ jobs, dispatch_round L T B W = inr jobs ∧ jobs ≠ [].
Proof.
  intros HL HB HW. eexists. split; [by apply dispatch_round_planned|].
  pose proof (ceil_div_spec L T B HB) as Hc. cbv zeta in Hc.
  intros Hnil%(f_equal length). rewrite length_fmap, length_seqZ in Hnil.
  simpl in Hnil. nia.
Qed.

(** X20. A checkpoint file that holds a JSON object or string instead of
    an array is loaded as it is. When it is shorter than the target the
    run never ends: every round submits its jobs, at least one, to the
    backend, their results cannot be merged, nothing is saved, and the
    next round asks for the same again. *)
Theorem unmergeable_checkpoint_spins (w : World) (f : file_state)
    (T B W n : Z) (overwrite_yes : bool) :
  (∀ l, load_existing_incidents f ≠ JList l) →
  py_len (load_existing_incidents f) = Some n →
  n < T → 1 <= B → 1 <= W → quiet w →
  start_run f T overwrite_yes = Some (Generate (load_existing_incidents f) f)
  ∧ ∀ fuel round log,
      loop_unmergeable fuel w T B W round n log = None
      ∧ ∃ jobs,
          run_round_unmergeable w T B W round n log = (None, log ++ [jobs])
          ∧ jobs ≠ [].
Proof.
  intros Hnl Hn HT HB HW Hq. split.
  { unfold start_run. rewrite Hn. cbn [mbind option_bind].
    by rewrite bool_decide_eq_false_2 by lia. }
  assert (Hround : ∀ round log, ∃ jobs,
            run_round_unmergeable w T B W round n log = (None, log ++ [jobs])
            ∧ jobs ≠ []).
  { intros round log. unfold run_round_unmergeable. rewrite Hq.
    destruct (dispatch_round_nonempty n T B W HT HB HW) as (jobs & -> & Hne).
    rewrite collect_unmergeable_quiet by done. by exists jobs. }
  intros fuel round log. split; [|apply Hround].
  revert round log. induction fuel as [|fuel IH]; intros round log; simpl;
    rewrite bool_decide_eq_true_2 by done; [done|].
  destruct (Hround round log) as (jobs & -> & _). apply IH.
Qed.

(** [unmergeable_checkpoint_spins] on a checkpoint file that holds an empty object. *)
Lemma unmergeable_checkpoint_spins_witness :
  start_run (Text (lit "{}")) 10 false
  = Some (Generate (load_existing_incidents (Text (lit "{}")))
            (Text (lit "{}")))
  ∧ ∀ fuel round log,
      loop_unmergeable fuel obedient_world 10 4 2 round 0 log = None
      ∧ ∃ jobs,
          run_round_unmergeable obedient_world 10 4 2 round 0 log
          = (None, log ++ [jobs])
          ∧ jobs ≠ [].
Proof.
  apply unmergeable_checkpoint_spins.
  - intros l. vm_compute. discriminate.
  - vm_compute. reflexivity.
  - lia.
  - lia.
  - lia.
  - by apply calm_quiet.
Defined.
